(** * Repository-graph analysis: graph builder and pattern detectors

    A shallow embedding of [jfrog_analyser.py] (the graph builder, the loop
    detector and the remote-to-virtual check) and of
    [advanced_detection.py] (the six detectors and the combined report),
    together with a functional model of the part of the networkx library
    they call: [DiGraph], [simple_cycles] and [all_simple_paths]. *)

From Stdlib Require Import List String Ascii Bool Arith ZArith Lia Permutation.
From Stdlib Require Import DecimalString.
Import ListNotations.

Local Open Scope string_scope.
Local Open Scope list_scope.

(* ================================================================== *)
(** ** Python built-ins used by the program *)
(* ================================================================== *)

Module Py.

(** [s.split(sep)] for a one-character separator: never empty. *)
Fixpoint split (sep : ascii) (s : string) : list string :=
  match s with
  | EmptyString => [EmptyString]
  | String c s' =>
      if Ascii.eqb c sep then EmptyString :: split sep s'
      else match split sep s' with
           | [] => [String c EmptyString]
           | h :: t => String c h :: t
           end
  end.

(** [parts[0]] and [parts[-1]] on the (non-empty) result of a split. *)
Definition first (parts : list string) : string := hd EmptyString parts.
Definition last (parts : list string) : string := List.last parts EmptyString.

(** [s.lstrip(c)], [s.rstrip(c)] and [s.strip(c)] for one character. *)
Fixpoint lstrip (c : ascii) (s : string) : string :=
  match s with
  | EmptyString => EmptyString
  | String a s' => if Ascii.eqb a c then lstrip c s' else s
  end.

Fixpoint rstrip (c : ascii) (s : string) : string :=
  match s with
  | EmptyString => EmptyString
  | String a s' =>
      match rstrip c s' with
      | EmptyString => if Ascii.eqb a c then EmptyString else String a EmptyString
      | r => String a r
      end
  end.

Definition strip (c : ascii) (s : string) : string := rstrip c (lstrip c s).

(** [s.startswith(p)]. *)
Definition startswith (s p : string) : bool := String.prefix p s.

(** [s[n:]]. *)
Fixpoint slice_from (n : nat) (s : string) : string :=
  match n, s with
  | O, _ => s
  | S n', String _ s' => slice_from n' s'
  | S _, EmptyString => EmptyString
  end.

(** A [dict] with string keys: an association list in insertion order.
    Keys are kept unique by [dict_set]; lookups read the first binding. *)
Definition dict (V : Type) : Type := list (string * V).

Fixpoint dict_get {V} (k : string) (d : dict V) : option V :=
  match d with
  | [] => None
  | (k', v) :: d' => if String.eqb k' k then Some v else dict_get k d'
  end.

Definition dict_mem {V} (k : string) (d : dict V) : bool :=
  match dict_get k d with Some _ => true | None => false end.

(** [d[k] = v]: an existing key keeps its position, a new one goes last. *)
Fixpoint dict_set {V} (k : string) (v : V) (d : dict V) : dict V :=
  match d with
  | [] => [(k, v)]
  | (k', v') :: d' =>
      if String.eqb k' k then (k, v) :: d' else (k', v') :: dict_set k v d'
  end.

(** [d.update(new)]. *)
Definition dict_update {V} (d new : dict V) : dict V :=
  fold_left (fun acc kv => dict_set (fst kv) (snd kv) acc) new d.

Definition keys {V} (d : dict V) : list string := map fst d.

(** [x == 'lit'] where [x] comes from [d.get(k)] (possibly [None]). *)
Definition opt_is (x : option string) (lit : string) : bool :=
  match x with Some s => String.eqb s lit | None => false end.

(** A [set] of strings: a duplicate-free list; [add] and [len]. *)
Definition set_add (x : string) (s : list string) : list string :=
  if existsb (String.eqb x) s then s else s ++ [x].

Definition set_of (l : list string) : list string :=
  fold_left (fun s x => set_add x s) l [].

Definition mem (x : string) (l : list string) : bool := existsb (String.eqb x) l.

End Py.

(* ================================================================== *)
(** ** networkx: the directed graph and the two enumerations *)
(* ================================================================== *)

Module nx.
Import Py.

(** Attribute dictionaries of nodes and of edges. *)
Definition attrs : Type := dict string.

(** One node of a [DiGraph]: its identifier, its attribute dictionary
    ([G.nodes[n]]) and its successor dictionary ([G.adj[n]]), which maps
    each successor to the attribute dictionary of the edge.  networkx
    keeps [_node] and [_adj] as two dictionaries over the same keys in the
    same insertion order; they are merged here into one ordered table. *)
Record node_entry : Type := mkEntry {
  nid : string;
  nattr : attrs;
  nsucc : dict attrs
}.

Definition DiGraph : Type := list node_entry.

Definition empty_graph : DiGraph := [].

Fixpoint find_entry (n : string) (G : DiGraph) : option node_entry :=
  match G with
  | [] => None
  | e :: G' => if String.eqb (nid e) n then Some e else find_entry n G'
  end.

Definition has_node (n : string) (G : DiGraph) : bool :=
  match find_entry n G with Some _ => true | None => false end.

Fixpoint update_entry (n : string) (f : node_entry -> node_entry)
         (G : DiGraph) : DiGraph :=
  match G with
  | [] => []
  | e :: G' =>
      if String.eqb (nid e) n then f e :: G' else e :: update_entry n f G'
  end.

(** [G.add_node(n, **a)]. *)
Definition set_attr (a : attrs) (e : node_entry) : node_entry :=
  mkEntry (nid e) (dict_update (nattr e) a) (nsucc e).

Definition add_node (G : DiGraph) (n : string) (a : attrs) : DiGraph :=
  if has_node n G then update_entry n (set_attr a) G
  else G ++ [mkEntry n (dict_update [] a) []].

(** [G.add_edge(u, v, **a)]: both endpoints are created when absent, and
    the attributes are merged into those of an existing edge. *)
Definition ensure_node (G : DiGraph) (n : string) : DiGraph :=
  if has_node n G then G else G ++ [mkEntry n [] []].

Definition set_succ (v : string) (a : attrs) (e : node_entry) : node_entry :=
  let old := match dict_get v (nsucc e) with Some d => d | None => [] end in
  mkEntry (nid e) (nattr e) (dict_set v (dict_update old a) (nsucc e)).

Definition add_edge (G : DiGraph) (u v : string) (a : attrs) : DiGraph :=
  update_entry u (set_succ v a) (ensure_node (ensure_node G u) v).

(** [G.nodes()], [G.nodes[n]], [G.nodes(data=True)]. *)
Definition nodes (G : DiGraph) : list string := map nid G.

Definition node_data (G : DiGraph) (n : string) : attrs :=
  match find_entry n G with Some e => nattr e | None => [] end.

Definition nodes_data (G : DiGraph) : list (string * attrs) :=
  map (fun e => (nid e, nattr e)) G.

(** [G.successors(n)] and [G.out_degree(n)]. *)
Definition successors (G : DiGraph) (n : string) : list string :=
  match find_entry n G with Some e => keys (nsucc e) | None => [] end.

Definition out_degree (G : DiGraph) (n : string) : nat :=
  List.length (successors G n).

(** [G.in_degree(n)]: the number of nodes with an edge to [n]. *)
Definition in_degree (G : DiGraph) (n : string) : nat :=
  List.length (filter (fun e => dict_mem n (nsucc e)) G).

(** [G.edges(data=True)]: by source in node order, then by successor. *)
Definition edges (G : DiGraph) : list (string * string * attrs) :=
  flat_map (fun e => map (fun vd => (nid e, fst vd, snd vd)) (nsucc e)) G.

(** Depth-first enumeration of the simple continuations of a walk that
    stands at [cur]: the node lists [q] such that [cur :: q] is a walk
    of at most [fuel] edges ending at [target], whose nodes are pairwise
    distinct, outside [visited], and meet [target] only at the end. *)
Fixpoint extend (G : DiGraph) (target : string) (fuel : nat)
         (visited : list string) (cur : string) : list (list string) :=
  match fuel with
  | O => []
  | S fuel' =>
      flat_map
        (fun child =>
           if mem child visited then []
           else if String.eqb child target then [[child]]
           else map (cons child)
                    (extend G target fuel' (child :: visited) child))
        (successors G cur)
  end.

(** [nx.all_simple_paths(G, source, target, cutoff)]: every simple path
    from [source] to [target] with at most [cutoff] edges, in depth-first
    order; nothing when [source == target] or [cutoff < 1].  The callers
    only pass nodes of [G], so the [NodeNotFound] case does not arise. *)
Definition all_simple_paths (G : DiGraph) (source target : string)
           (cutoff : Z) : list (list string) :=
  if String.eqb source target then []
  else map (cons source) (extend G target (Z.to_nat cutoff) [source] source).

(** Cycles whose first node is [root] and that avoid the nodes of
    [removed]: the closed walks from [root] back to [root]. *)
Definition cycles_from (G : DiGraph) (removed : list string) (root : string)
  : list (list string) :=
  map (fun q => root :: removelast q)
      (extend G root (List.length G) removed root).

Fixpoint cycles_over (G : DiGraph) (roots removed : list string)
  : list (list string) :=
  match roots with
  | [] => []
  | r :: roots' =>
      cycles_from G removed r ++ cycles_over G roots' (r :: removed)
  end.

(** [nx.simple_cycles(G)]: every elementary circuit of [G], each once,
    as the list of its nodes without the closing repetition.  The library
    leaves the order of the cycles and the rotation of each unspecified;
    here a cycle starts at its earliest node in [G.nodes()]. *)
Definition simple_cycles (G : DiGraph) : list (list string) :=
  cycles_over G (nodes G) [].

End nx.

(* ================================================================== *)
(** ** [jfrog_analyser.py] *)
(* ================================================================== *)

Module JFrogAnalyser.
Import Py nx.

(** The fields of a repository record ([repo_data]) that the builder
    reads with [repo_data.get]; [None] is an absent key. *)
Record RepoData : Type := mkRepo {
  r_type : option string;
  r_packageType : option string;
  r_url : option string;
  r_repositories : option (list string)
}.

(** [ArtifactoryInstance]: the credentials play no part in the graph. *)
Record ArtifactoryInstance : Type := mkInstance {
  name : string;
  url : string;
  repositories : dict RepoData
}.

(** [ArtifactoryInstance.__init__]: the base URL loses trailing slashes. *)
Definition new_instance (nm base : string) (repos : dict RepoData)
  : ArtifactoryInstance :=
  mkInstance nm (rstrip "/" base) repos.

Definition or_default (x : option string) (d : string) : string :=
  match x with Some s => s | None => d end.

(** [f"{instance.name}:{repo_key}"]. *)
Definition node_id (inst : ArtifactoryInstance) (repo_key : string) : string :=
  name inst ++ ":" ++ repo_key.

(** First loop of [build_repository_graph]: one node per repository. *)
Definition add_repo_node (inst : ArtifactoryInstance) (G : DiGraph)
           (kv : string * RepoData) : DiGraph :=
  let (repo_key, repo_data) := kv in
  add_node G (node_id inst repo_key)
    [("instance", name inst);
     ("repo_key", repo_key);
     ("repo_type", or_default (r_type repo_data) "unknown");
     ("package_type", or_default (r_packageType repo_data) "unknown")].

Definition add_nodes (instances : list ArtifactoryInstance) (G : DiGraph)
  : DiGraph :=
  fold_left (fun G inst => fold_left (add_repo_node inst) (repositories inst) G)
            instances G.

(** The body of [for target_instance in self.instances] for a remote
    repository with URL [remote_url]. *)
Definition remote_step (source_node remote_url : string) (G : DiGraph)
           (target_instance : ArtifactoryInstance) : DiGraph :=
  if startswith remote_url (url target_instance) then
    let url_path :=
      strip "/" (slice_from (String.length (url target_instance)) remote_url) in
    if startswith url_path "api/" then G
    else
      let parts := split "/" url_path in
      if (1 <=? List.length parts)%nat then
        let target_repo := last parts in
        if dict_mem target_repo (repositories target_instance) then
          add_edge G source_node (node_id target_instance target_repo)
                   [("edge_type", "remote")]
        else G
      else G
  else G.

(** The body of [for included_repo in repo_data.get('repositories', [])]. *)
Definition include_step (inst : ArtifactoryInstance) (source_node : string)
           (G : DiGraph) (included_repo : string) : DiGraph :=
  if dict_mem included_repo (repositories inst) then
    add_edge G source_node (node_id inst included_repo)
             [("edge_type", "includes")]
  else G.

(** Second loop of [build_repository_graph], for one repository. *)
Definition add_repo_edges (instances : list ArtifactoryInstance)
           (inst : ArtifactoryInstance) (G : DiGraph)
           (kv : string * RepoData) : DiGraph :=
  let (repo_key, repo_data) := kv in
  let source_node := node_id inst repo_key in
  let G1 :=
    if opt_is (r_type repo_data) "remote" then
      fold_left (remote_step source_node (or_default (r_url repo_data) ""))
                instances G
    else G in
  if opt_is (r_type repo_data) "virtual" then
    fold_left (include_step inst source_node)
              (match r_repositories repo_data with Some l => l | None => [] end)
              G1
  else G1.

Definition add_edges (instances : list ArtifactoryInstance) (G : DiGraph)
  : DiGraph :=
  fold_left
    (fun G inst => fold_left (add_repo_edges instances inst) (repositories inst) G)
    instances G.

(** [build_repository_graph]: the graph is cleared, then all nodes are
    added, then all edges. *)
Definition build_repository_graph (instances : list ArtifactoryInstance)
  : DiGraph :=
  add_edges instances (add_nodes instances empty_graph).

(** [detect_loops]. *)
Definition detect_loops (G : DiGraph) : list (list string) :=
  simple_cycles G.

(** [detect_remote_to_virtual_issues]. *)
Definition detect_remote_to_virtual_issues (G : DiGraph)
  : list (string * string) :=
  flat_map
    (fun nd : string * attrs =>
       let (node, node_data_) := nd in
       if opt_is (dict_get "repo_type" node_data_) "remote" then
         map (pair node)
             (filter
                (fun successor =>
                   opt_is (dict_get "repo_type" (node_data G successor)) "virtual")
                (successors G node))
       else [])
    (nodes_data G).

End JFrogAnalyser.

(* ================================================================== *)
(** ** [advanced_detection.py] *)
(* ================================================================== *)

Module AdvancedDetection.
Import Py nx.

(** The loop [for u, v, data in graph.edges(data=True)] that copies the
    edges whose [edge_type] is [ty] into a fresh graph. *)
Definition copy_typed_edge (ty : string) (H : DiGraph)
           (e : string * string * attrs) : DiGraph :=
  let '(u, v, data) := e in
  if opt_is (dict_get "edge_type" data) ty then add_edge H u v [] else H.

Definition typed_subgraph (ty : string) (graph : DiGraph) : DiGraph :=
  fold_left (copy_typed_edge ty) (edges graph) empty_graph.

Definition include_graph (graph : DiGraph) : DiGraph :=
  typed_subgraph "includes" graph.

Definition remote_graph (graph : DiGraph) : DiGraph :=
  typed_subgraph "remote" graph.

(** [find_include_cycles]. *)
Definition find_include_cycles (graph : DiGraph) : list (list string) :=
  simple_cycles (include_graph graph).

(** [find_remote_chains]. *)
Definition find_remote_chains (graph : DiGraph) : list (list string) :=
  let R := remote_graph graph in
  flat_map
    (fun node =>
       if (0 <? out_degree R node)%nat then
         flat_map
           (fun target =>
              if negb (String.eqb node target) then
                filter (fun path => (1 <? List.length path)%nat)
                       (all_simple_paths R node target 10)
              else [])
           (nodes R)
       else [])
    (nodes R).

(** [node.split(':')[0]] and [node.split(':')[-1]]. *)
Definition instance_of (node : string) : string := first (split ":" node).
Definition repo_key_of (node : string) : string := last (split ":" node).

(** [find_cross_instance_loops]. *)
Definition find_cross_instance_loops (graph : DiGraph) : list (list string) :=
  filter (fun cycle => (1 <? List.length (set_of (map instance_of cycle)))%nat)
         (simple_cycles graph).

(** The grouping loop of [detect_repository_shadowing]. *)
Definition group_node (repo_map : dict (list string)) (node : string)
  : dict (list string) :=
  let repo_key := repo_key_of node in
  let repo_map1 :=
    if dict_mem repo_key repo_map then repo_map
    else dict_set repo_key [] repo_map in
  match dict_get repo_key repo_map1 with
  | Some l => dict_set repo_key (l ++ [node]) repo_map1
  | None => repo_map1
  end.

(** [for i in range(len(nodes)): for j in range(i+1, len(nodes))]. *)
Definition index_pairs (nodes : list string) : list (string * string) :=
  flat_map
    (fun i =>
       map (fun j => (nth i nodes "", nth j nodes ""))
           (seq (i + 1) (List.length nodes - (i + 1))))
    (seq 0 (List.length nodes)).

(** [detect_repository_shadowing]. *)
Definition detect_repository_shadowing (graph : DiGraph)
  : list (string * string) :=
  let repo_map := fold_left group_node (nodes graph) [] in
  flat_map
    (fun kv : string * list string =>
       let nodes_ := snd kv in
       if (1 <? List.length nodes_)%nat then
         if (1 <? List.length (set_of (map instance_of nodes_)))%nat
         then index_pairs nodes_ else []
       else [])
    repo_map.

(** [detect_long_dependency_chains]; [max_length] is a Python [int]. *)
Definition detect_long_dependency_chains (graph : DiGraph) (max_length : Z)
  : list (list string) :=
  flat_map
    (fun source =>
       flat_map
         (fun target =>
            if negb (String.eqb source target) then
              filter (fun path => (max_length <? Z.of_nat (List.length path))%Z)
                     (all_simple_paths graph source target (max_length + 1))
            else [])
         (nodes graph))
    (nodes graph).

Definition default_max_length : Z := 5.

(** [detect_isolated_repositories]. *)
Definition detect_isolated_repositories (graph : DiGraph) : list string :=
  filter
    (fun node =>
       (in_degree graph node =? 0)%nat
       && opt_is (dict_get "repo_type" (node_data graph node)) "local")
    (nodes graph).

(** A finding: a node sequence, a node pair or a single node. *)
Inductive finding : Type :=
| FPath (p : list string)
| FPair (p : string * string)
| FNode (n : string).

(** [detect_all_issues]: the report dictionary. *)
Definition detect_all_issues (graph : DiGraph) : dict (list finding) :=
  [("include_cycles", map FPath (find_include_cycles graph));
   ("remote_chains", map FPath (find_remote_chains graph));
   ("cross_instance_loops", map FPath (find_cross_instance_loops graph));
   ("shadowed_repositories", map FPair (detect_repository_shadowing graph));
   ("long_dependency_chains",
    map FPath (detect_long_dependency_chains graph default_max_length));
   ("isolated_repositories", map FNode (detect_isolated_repositories graph))].

End AdvancedDetection.

Import Py nx JFrogAnalyser AdvancedDetection.

(* ================================================================== *)
(** ** Vocabulary of the properties *)
(* ================================================================== *)

(** [edge G u v]: [v] is a successor of [u]. *)
Definition edge (G : DiGraph) (u v : string) : Prop := In v (successors G u).

(** [typed_edge ty G u v]: [G.edges(data=True)] lists an edge from [u] to
    [v] whose [edge_type] is [ty]. *)
Definition typed_edge (ty : string) (G : DiGraph) (u v : string) : Prop :=
  exists data, In (u, v, data) (edges G)
               /\ opt_is (dict_get "edge_type" data) ty = true.

(** A walk along a relation: consecutive nodes are related. *)
Fixpoint walk (R : string -> string -> Prop) (p : list string) : Prop :=
  match p with
  | [] => True
  | x :: t =>
      match t with
      | [] => True
      | y :: _ => R x y /\ walk R t
      end
  end.

(** A simple path from [s] to [t]: a walk over pairwise distinct nodes
    with at least one edge. *)
Definition simple_path (R : string -> string -> Prop) (s t : string)
           (p : list string) : Prop :=
  exists body, p = s :: body ++ [t] /\ NoDup p /\ walk R p.

(** What [extend] enumerates (see [extend_spec]). *)
Definition continuation (G : DiGraph) (target : string) (fuel : nat)
           (visited : list string) (cur : string) (q : list string) : Prop :=
  exists body,
    q = body ++ [target]
    /\ List.length body < fuel
    /\ NoDup body
    /\ ~ In target body
    /\ (forall x, In x q -> ~ In x visited)
    /\ walk (edge G) (cur :: q).

(** A simple cycle, given without the closing repetition of its first
    node: distinct nodes, each related to the next and the last to the
    first. *)
Definition is_cycle (R : string -> string -> Prop) (c : list string) : Prop :=
  match c with
  | [] => False
  | r :: body => NoDup c /\ walk R (r :: body ++ [r])
  end.

(** Two lists that present the same cycle from different starting nodes. *)
Definition rotation (c c' : list string) : Prop :=
  exists l1 l2, c = l1 ++ l2 /\ c' = l2 ++ l1.

(** The dictionaries behind a [DiGraph] have unique keys. *)
Definition wf_graph (G : DiGraph) : Prop :=
  NoDup (nodes G) /\ forall e, In e G -> NoDup (keys (nsucc e)).

(** The graph obtained from [G] by dropping every edge whose type is not
    [includes]; the nodes and their attributes stay. *)
Definition drop_non_includes (G : DiGraph) : DiGraph :=
  map (fun e =>
         mkEntry (nid e) (nattr e)
                 (filter (fun vd => opt_is (dict_get "edge_type" (snd vd)) "includes")
                         (nsucc e)))
      G.

(** The nodes added by the node-insertion pass of the builder. *)
Definition first_pass_nodes (instances : list ArtifactoryInstance) : list string :=
  nodes (add_nodes instances empty_graph).

Definition edge_type_ok (d : attrs) : Prop :=
  dict_get "edge_type" d = Some "remote"
  \/ dict_get "edge_type" d = Some "includes".

(** What the edge pass of the builder preserves: the node list of the
    first pass, the unique keys, and that every edge joins two such nodes
    and is tagged [remote] or [includes]. *)
Definition builder_inv (instances : list ArtifactoryInstance) (G : DiGraph)
  : Prop :=
  nodes G = first_pass_nodes instances
  /\ wf_graph G
  /\ forall x y d,
      In (x, y, d) (edges G) ->
      In x (first_pass_nodes instances) /\ In y (first_pass_nodes instances)
      /\ edge_type_ok d.

(** The state of the grouping loop of the shadowing detector after the
    nodes [processed]: every group holds, in order, the processed nodes of
    its key, and every processed node has a group. *)
Definition grouped (processed : list string) (repo_map : dict (list string))
  : Prop :=
  NoDup (keys repo_map)
  /\ (forall k l, dict_get k repo_map = Some l ->
                  l = filter (fun y => String.eqb (repo_key_of y) k) processed)
  /\ (forall y, In y processed -> dict_mem (repo_key_of y) repo_map = true).

(** Nodes listed in one order, [includes] edges met in another: the cycle
    between [b] and [c] is found from [c] by the detector and from [b] in
    the edge-filtered graph. *)
Definition rotated_example : DiGraph :=
  add_edge
    (add_edge
       (add_edge
          (add_node (add_node (add_node empty_graph "a" []) "b" []) "c" [])
          "a" "c" [("edge_type", "includes")])
       "c" "b" [("edge_type", "includes")])
    "b" "c" [("edge_type", "includes")].

(** The category names of the report value. *)
Definition report_keys : list string :=
  ["cycles"; "include_cycles"; "remote_chains"; "cross_instance_loops";
   "shadowed_repositories"; "long_dependency_chains"; "isolated_repositories";
   "remote_to_virtual"].

Definition detector_keys : list string :=
  ["include_cycles"; "remote_chains"; "cross_instance_loops";
   "shadowed_repositories"; "long_dependency_chains"; "isolated_repositories"].

(** *** Example inputs *)

(** Instance [A] with virtual [v1] including local [l1]; instance [B] with
    remote [r1] whose URL is that of [A]'s [v1]. *)
Definition repo_v1 (pkg : option string) : RepoData :=
  mkRepo (Some "virtual") pkg None (Some ["l1"]).
Definition repo_l1 (pkg : option string) : RepoData :=
  mkRepo (Some "local") pkg None None.
Definition repo_r1 (pkg : option string) : RepoData :=
  mkRepo (Some "remote") pkg (Some "http://a/art/v1") None.

Definition instance_A (pv pl : option string) (v_first : bool)
  : ArtifactoryInstance :=
  new_instance "A" "http://a/art"
    (if v_first then [("v1", repo_v1 pv); ("l1", repo_l1 pl)]
     else [("l1", repo_l1 pl); ("v1", repo_v1 pv)]).

Definition instance_B (pr : option string) : ArtifactoryInstance :=
  new_instance "B" "http://b/art" [("r1", repo_r1 pr)].

Definition two_instances (pv pl pr : option string) (v_first a_first : bool)
  : list ArtifactoryInstance :=
  if a_first then [instance_A pv pl v_first; instance_B pr]
  else [instance_B pr; instance_A pv pl v_first].

(** Two instances that each define a local repository keyed [shared]. *)
Definition shared_instances : list ArtifactoryInstance :=
  [new_instance "A" "http://a/art" [("shared", repo_l1 None)];
   new_instance "B" "http://b/art" [("shared", repo_l1 None)]].

(** A graph whose edges run along the list [l], all of type [ty]. *)
Definition chain_graph (ty : string) (l : list string) : DiGraph :=
  fold_left (fun G uv => add_edge G (fst uv) (snd uv) [("edge_type", ty)])
            (combine l (tl l)) empty_graph.

(* ================================================================== *)
(** ** Vocabulary of the builder's contract *)
(* ================================================================== *)

(** The identifiers of all repository records, in the order of the
    node-insertion loop. *)
Definition repository_ids (instances : list ArtifactoryInstance) : list string :=
  flat_map (fun inst => map (node_id inst) (keys (repositories inst))) instances.

(** The attributes that the node-insertion loop gives to a repository. *)
Definition repo_node_attrs (inst : ArtifactoryInstance) (repo_key : string)
           (repo_data : RepoData) : attrs :=
  [("instance", name inst);
   ("repo_key", repo_key);
   ("repo_type", or_default (r_type repo_data) "unknown");
   ("package_type", or_default (r_packageType repo_data) "unknown")].

(** The part of a remote URL below the base URL of [target_instance]. *)
Definition url_path_below (target_instance : ArtifactoryInstance)
           (remote_url : string) : string :=
  strip "/" (slice_from (String.length (url target_instance)) remote_url).

(** [u -> v] is a remote relationship that the builder resolves: [u] is a
    repository of type [remote] whose URL lies below the base URL of a
    configured instance, is not an API endpoint, and ends in the key of a
    repository [v] of that instance. *)
Definition remote_resolves (instances : list ArtifactoryInstance)
           (u v : string) : Prop :=
  exists inst k rd tinst,
    In inst instances /\ In (k, rd) (repositories inst)
    /\ opt_is (r_type rd) "remote" = true
    /\ u = node_id inst k
    /\ In tinst instances
    /\ startswith (or_default (r_url rd) "") (url tinst) = true
    /\ startswith (url_path_below tinst (or_default (r_url rd) "")) "api/" = false
    /\ dict_mem (last (split "/" (url_path_below tinst (or_default (r_url rd) ""))))
                (repositories tinst) = true
    /\ v = node_id tinst
                   (last (split "/" (url_path_below tinst (or_default (r_url rd) "")))).

(** [u -> v] is an include that the builder resolves: [u] is a repository
    of type [virtual] that lists the key of [v], a repository of the same
    instance. *)
Definition include_resolves (instances : list ArtifactoryInstance)
           (u v : string) : Prop :=
  exists inst k rd included,
    In inst instances /\ In (k, rd) (repositories inst)
    /\ opt_is (r_type rd) "virtual" = true
    /\ In included (match r_repositories rd with Some l => l | None => [] end)
    /\ dict_mem included (repositories inst) = true
    /\ u = node_id inst k
    /\ v = node_id inst included.

(** A node carries the four attributes of a repository, and its
    [instance] and [repo_key] attributes recompose its identifier. *)
Definition node_attrs_ok (e : node_entry) : Prop :=
  exists i k t p,
    dict_get "instance" (nattr e) = Some i
    /\ dict_get "repo_key" (nattr e) = Some k
    /\ dict_get "repo_type" (nattr e) = Some t
    /\ dict_get "package_type" (nattr e) = Some p
    /\ nid e = (i ++ ":" ++ k)%string.

(** A string without the character [c]. *)
Fixpoint lacks (c : ascii) (s : string) : Prop :=
  match s with
  | EmptyString => True
  | String a s' => a <> c /\ lacks c s'
  end.

(** [p] is the instance prefix of the identifier [node]: the text of
    [node] before its first colon, or all of [node] when it has none. *)
Definition instance_prefix (node p : string) : Prop :=
  lacks ":" p
  /\ (node = p \/ exists rest, node = (p ++ ":" ++ rest)%string).

(** [u] is directly followed by [v] on the closed walk of the cycle [c]
    (the last node of [c] is followed by the first). *)
Definition cycle_step (c : list string) (u v : string) : Prop :=
  exists l1 l2, c ++ [hd "" c] = l1 ++ u :: v :: l2.

(* ================================================================== *)
(** ** [util.py] *)
(* ================================================================== *)

Module Util.
Import Py.

(** [format_repository_path]. *)
Definition format_repository_path (instance_name repo_key : string) : string :=
  instance_name ++ "/" ++ repo_key.

(** [parts.index(x)], called where [x in parts] holds. *)
Fixpoint list_index (x : string) (parts : list string) : nat :=
  match parts with
  | [] => 0
  | y :: t => if String.eqb y x then 0 else S (list_index x t)
  end.

(** [extract_repo_from_url]. *)
Definition extract_repo_from_url (url base_url : string) : option string :=
  if negb (startswith url base_url) then None
  else
    let path := strip "/" (slice_from (String.length base_url) url) in
    let parts := split "/" path in
    if mem "artifactory" parts then
      let artifactory_index := list_index "artifactory" parts in
      if (artifactory_index + 1 <? List.length parts)%nat
      then Some (nth (artifactory_index + 1) parts "")
      else None
    else if (0 <? List.length parts)%nat then Some (nth 0 parts "")
    else None.

(** [get_edge_label]. *)
Definition edge_labels : dict string :=
  [("remote", "points to");
   ("includes", "includes");
   ("deploys_to", "deploys to");
   ("depends_on", "depends on")].

Definition get_edge_label (edge_type : string) : string :=
  match dict_get edge_type edge_labels with
  | Some label => label
  | None => edge_type
  end.

(** A parsed configuration.  The value of [artifactory_instances] is a
    list of entries, a string or null.  An entry is a mapping whose values
    are strings or null ([None]), a string, a list (of strings, [None]
    standing for any other element), or a value that is no container
    (null, a number, a boolean). *)
Definition instance_cfg : Type := dict (option string).

Inductive entry : Type :=
| EMap (d : instance_cfg)
| EStr (s : string)
| EList (l : list (option string))
| EOther.

Inductive cfg_value : Type :=
| CInstances (l : list entry)
| CStr (s : string)
| CNull.

Definition config : Type := dict cfg_value.

(** [sub in s] for two strings. *)
Fixpoint str_contains (sub s : string) : bool :=
  if startswith s sub then true
  else match s with
       | EmptyString => false
       | String _ s' => str_contains sub s'
       end.

(** [x in l] for a string and a list. *)
Definition list_has (x : string) (l : list (option string)) : bool :=
  existsb (fun v => opt_is v x) l.

(** [k in instance]: a key of a mapping, a piece of a string, an element
    of a list; [None] stands for the [TypeError] of any other value. *)
Definition entry_has (k : string) (e : entry) : option bool :=
  match e with
  | EMap d => Some (dict_mem k d)
  | EStr s => Some (str_contains k s)
  | EList l => Some (list_has k l)
  | EOther => None
  end.

(** [str(v)] inside an f-string. *)
Definition py_str (v : option string) : string :=
  match v with Some s => s | None => "None" end.

Definition str_of_nat (n : nat) : string :=
  NilEmpty.string_of_uint (Nat.to_uint n).

(** The checks of [validate_config] on the entry at index [i], when the
    entry is a mapping. *)
Definition instance_errors (i : nat) (instance : instance_cfg) : list string :=
  let instance_num := str_of_nat (i + 1) in
  (if negb (dict_mem "name" instance)
   then [("Instance #" ++ instance_num ++ " is missing 'name' field")%string]
   else [])
  ++ (if negb (dict_mem "url" instance)
      then [("Instance #" ++ instance_num ++ " is missing 'url' field")%string]
      else [])
  ++ (if negb (dict_mem "api_key" instance)
         && (negb (dict_mem "username" instance)
             || negb (dict_mem "password" instance))
      then [("Instance #" ++ instance_num ++ " ("
             ++ py_str (match dict_get "name" instance with
                        | Some v => v
                        | None => Some "unnamed"
                        end)
             ++ ") is missing authentication details (either api_key or username/password)")%string]
      else []).

(** The same checks on a string or a list, where [has k] is [k in
    instance]: the third one calls [instance.get], which these values do
    not have ([None] stands for the [AttributeError]). *)
Definition container_errors (i : nat) (has : string -> bool)
  : option (list string) :=
  let instance_num := str_of_nat (i + 1) in
  if negb (has "api_key") && (negb (has "username") || negb (has "password"))
  then None
  else
    Some ((if negb (has "name")
           then [("Instance #" ++ instance_num ++ " is missing 'name' field")%string]
           else [])
          ++ (if negb (has "url")
              then [("Instance #" ++ instance_num ++ " is missing 'url' field")%string]
              else [])).

(** The body of the loop of [validate_config]; [None] is an exception. *)
Definition entry_errors (i : nat) (e : entry) : option (list string) :=
  match e with
  | EMap d => Some (instance_errors i d)
  | EStr s => container_errors i (fun k => str_contains k s)
  | EList l => container_errors i (fun k => list_has k l)
  | EOther => None
  end.

(** The loop [for i, instance in enumerate(...)] from index [i] on. *)
Fixpoint collect_errors (i : nat) (l : list entry) : option (list string) :=
  match l with
  | [] => Some []
  | e :: l' =>
      match entry_errors i e with
      | None => None
      | Some errs =>
          match collect_errors (S i) l' with
          | None => None
          | Some rest => Some (errs ++ rest)
          end
      end
  end.

(** [validate_config]; [None] stands for an exception raised on an entry
    that is not a mapping. *)
Definition validate_config (cfg : config) : option (list string) :=
  match dict_get "artifactory_instances" cfg with
  | None => Some ["Missing 'artifactory_instances' section in config"]
  | Some (CInstances l) => collect_errors 0 l
  | Some _ => Some ["'artifactory_instances' must be a list"]
  end.

Definition redacted : option string := Some "********".

(** The body of the loop of [redact_credentials] on a mapping. *)
Definition redact_instance (instance : instance_cfg) : instance_cfg :=
  let instance1 :=
    if dict_mem "api_key" instance then dict_set "api_key" redacted instance
    else instance in
  if dict_mem "password" instance1 then dict_set "password" redacted instance1
  else instance1.

(** The body of the loop of [redact_credentials]: a string or a list in
    which [api_key] or [password] occurs cannot be assigned to by key
    ([None] stands for the [TypeError]), any other string or list stays as
    it is. *)
Definition redact_entry (e : entry) : option entry :=
  match e with
  | EMap d => Some (EMap (redact_instance d))
  | EStr s =>
      if str_contains "api_key" s || str_contains "password" s then None
      else Some e
  | EList l =>
      if list_has "api_key" l || list_has "password" l then None else Some e
  | EOther => None
  end.

Fixpoint redact_entries (l : list entry) : option (list entry) :=
  match l with
  | [] => Some []
  | e :: l' =>
      match redact_entry e with
      | None => None
      | Some e' =>
          match redact_entries l' with
          | None => None
          | Some rest => Some (e' :: rest)
          end
      end
  end.

(** [redact_credentials]: the result is a deep copy; [None] stands for the
    [TypeError] raised when [artifactory_instances] is null or on an entry.
    The characters of a string value have no keys, so it is left as it
    is. *)
Definition redact_credentials (cfg : config) : option config :=
  match dict_get "artifactory_instances" cfg with
  | None => Some cfg
  | Some (CInstances l) =>
      match redact_entries l with
      | Some l' => Some (dict_set "artifactory_instances" (CInstances l') cfg)
      | None => None
      end
  | Some (CStr _) => Some cfg
  | Some CNull => None
  end.

End Util.

(* ================================================================== *)
(** ** Credentials: [ArtifactoryInstance] and [ArtifactoryApiClient] *)
(* ================================================================== *)

Module Base64.

Definition alphabet : string :=
  "ABCDEFGHIJKLMNOPQRSTUVWXYZabcdefghijklmnopqrstuvwxyz0123456789+/".

Definition digit (n : N) : ascii :=
  match String.get (N.to_nat (n mod 64)) alphabet with
  | Some c => c
  | None => "="%char
  end.

(** [base64.b64encode] on the bytes of a string. *)
Fixpoint b64encode (s : string) : string :=
  match s with
  | EmptyString => EmptyString
  | String a EmptyString =>
      let n := (N_of_ascii a * 65536)%N in
      String (digit (n / 262144)) (String (digit (n / 4096)) "==")
  | String a (String b EmptyString) =>
      let n := (N_of_ascii a * 65536 + N_of_ascii b * 256)%N in
      String (digit (n / 262144))
             (String (digit (n / 4096)) (String (digit (n / 64)) "="))
  | String a (String b (String c rest)) =>
      let n := (N_of_ascii a * 65536 + N_of_ascii b * 256 + N_of_ascii c)%N in
      String (digit (n / 262144))
             (String (digit (n / 4096))
                     (String (digit (n / 64)) (String (digit n) (b64encode rest))))
  end.

End Base64.

Module Auth.
Import Py Util.

(** The credentials kept by [ArtifactoryInstance.__init__] and by
    [ArtifactoryApiClient.__init__]; [None] is Python's [None]. *)
Record Credentials : Type := mkCredentials {
  api_key : option string;
  username : option string;
  password : option string
}.

(** Truth value of a string or [None]. *)
Definition truthy (v : option string) : bool :=
  match v with
  | Some s => negb (String.eqb s "")
  | None => false
  end.

(** [ArtifactoryInstance.get_basic_auth]. *)
Definition get_basic_auth (c : Credentials) : string :=
  Base64.b64encode (py_str (username c) ++ ":" ++ py_str (password c))%string.

(** [ArtifactoryInstance.get_auth_headers]. *)
Definition instance_auth_headers (c : Credentials) : dict string :=
  if truthy (api_key c) then [("X-JFrog-Art-Api", py_str (api_key c))]
  else if truthy (username c) && truthy (password c)
       then [("Authorization", ("Basic " ++ get_basic_auth c)%string)]
       else [].

(** [ArtifactoryApiClient.get_auth_headers]. *)
Definition client_auth_headers (c : Credentials) : dict string :=
  let headers := [("Content-Type", "application/json");
                  ("Accept", "application/json")] in
  if truthy (api_key c) then dict_set "X-JFrog-Art-Api" (py_str (api_key c)) headers
  else if truthy (username c) && truthy (password c)
       then dict_set "Authorization"
                     ("Basic " ++ Base64.b64encode
                                    (py_str (username c) ++ ":"
                                     ++ py_str (password c)))%string
                     headers
       else headers.

(** An [ArtifactoryInstance] as [load_config] creates it: its name, its
    base URL without trailing slashes, its credentials, no repository. *)
Record ConfiguredInstance : Type := mkConfigured {
  ci_name : option string;
  ci_url : string;
  ci_credentials : Credentials
}.

(** [instance.get(k)]: an absent key and a null value both give [None]. *)
Definition cfg_get (k : string) (instance : instance_cfg) : option string :=
  match dict_get k instance with Some v => v | None => None end.

(** The body of the loop of [JFrogAnalyser.load_config]. *)
Definition load_instance (loaded : list ConfiguredInstance)
           (instance : instance_cfg) : list ConfiguredInstance :=
  let url := cfg_get "url" instance in
  let c := mkCredentials (cfg_get "api_key" instance)
                         (cfg_get "username" instance)
                         (cfg_get "password" instance) in
  if negb (truthy url) then loaded
  else if negb (truthy (api_key c)) && negb (truthy (username c) && truthy (password c))
       then loaded
       else loaded ++ [mkConfigured (cfg_get "name" instance)
                                    (rstrip "/" (py_str url)) c].

(** The loop of [JFrogAnalyser.load_config]: [instance.get] exists on a
    mapping only ([None] stands for the [AttributeError], which
    [load_config] does not catch). *)
Fixpoint load_entries (l : list entry) (loaded : list ConfiguredInstance)
  : option (list ConfiguredInstance) :=
  match l with
  | [] => Some loaded
  | EMap d :: l' => load_entries l' (load_instance loaded d)
  | _ :: _ => None
  end.

(** [JFrogAnalyser.load_config] on the parsed configuration: the
    instances it keeps.  [None] stands for the exception raised when the
    value of [artifactory_instances] is null or a non-empty string, or on
    an entry that is not a mapping. *)
Definition load_config (cfg : config) : option (list ConfiguredInstance) :=
  match dict_get "artifactory_instances" cfg with
  | None => Some []
  | Some (CInstances l) => load_entries l []
  | Some (CStr s) => if String.eqb s "" then Some [] else None
  | Some CNull => None
  end.

End Auth.

(* ================================================================== *)
(** ** Rendering choices of [generate_report] and [visualize_graph] *)
(* ================================================================== *)

Module Rendering.
Import Py nx.

(** [remote_parts = remote.split(":")] and
    [f"{remote_parts[0]}/{remote_parts[1]}"] in [generate_report];
    [None] stands for the [IndexError] of [remote_parts[1]]. *)
Definition report_name (node : string) : option string :=
  match split ":" node with
  | p0 :: p1 :: _ => Some (p0 ++ "/" ++ p1)%string
  | _ => None
  end.

(** The node lists of [visualize_graph]. *)
Definition repos_of_type (ty : string) (G : DiGraph) : list string :=
  map fst (filter (fun nd => opt_is (dict_get "repo_type" (snd nd)) ty)
                  (nodes_data G)).

Definition local_repos (G : DiGraph) : list string := repos_of_type "local" G.
Definition remote_repos (G : DiGraph) : list string := repos_of_type "remote" G.
Definition virtual_repos (G : DiGraph) : list string := repos_of_type "virtual" G.

(** [x not in ['local', 'remote', 'virtual']] for [x] from [data.get]. *)
Definition not_listed (x : option string) (l : list string) : bool :=
  match x with Some s => negb (mem s l) | None => true end.

Definition other_repos (G : DiGraph) : list string :=
  map fst (filter (fun nd => not_listed (dict_get "repo_type" (snd nd))
                                         ["local"; "remote"; "virtual"])
                  (nodes_data G)).

(** The edge lists of [visualize_graph]. *)
Definition edges_of_type (ty : string) (G : DiGraph) : list (string * string) :=
  map (fun e => (fst (fst e), snd (fst e)))
      (filter (fun e => opt_is (dict_get "edge_type" (snd e)) ty) (edges G)).

Definition remote_edges (G : DiGraph) : list (string * string) :=
  edges_of_type "remote" G.
Definition include_edges (G : DiGraph) : list (string * string) :=
  edges_of_type "includes" G.

Definition other_edges (G : DiGraph) : list (string * string) :=
  map (fun e => (fst (fst e), snd (fst e)))
      (filter (fun e => not_listed (dict_get "edge_type" (snd e))
                                   ["remote"; "includes"])
              (edges G)).

End Rendering.

Import Util Auth Rendering.

(* ================================================================== *)
(** ** Vocabulary of the configuration properties *)
(* ================================================================== *)

(** A mapping entry with the keys that [validate_config] asks for. *)
Definition has_required_fields (instance : instance_cfg) : Prop :=
  dict_mem "name" instance = true
  /\ dict_mem "url" instance = true
  /\ (dict_mem "api_key" instance = true
      \/ (dict_mem "username" instance = true
          /\ dict_mem "password" instance = true)).

(** The text [sub] occurs in the string [s]. *)
Definition occurs_in (sub s : string) : Prop :=
  exists a b, s = (a ++ sub ++ b)%string.

(** An entry on which [validate_config] finds the three names it asks
    for: as keys of a mapping, as pieces of text of a string, as elements
    of a list. *)
Definition entry_accepted (e : entry) : Prop :=
  match e with
  | EMap d => has_required_fields d
  | EStr s =>
      occurs_in "name" s /\ occurs_in "url" s
      /\ (occurs_in "api_key" s
          \/ (occurs_in "username" s /\ occurs_in "password" s))
  | EList l =>
      In (Some "name") l /\ In (Some "url") l
      /\ (In (Some "api_key") l
          \/ (In (Some "username") l /\ In (Some "password") l))
  | EOther => False
  end.

(** How redaction relates an entry to its redacted copy: a mapping keeps
    its keys and every value other than [api_key] and [password], which
    where present become the mask; any other entry is unchanged. *)
Definition redacted_from (e e' : entry) : Prop :=
  match e with
  | EMap instance =>
      exists instance',
        e' = EMap instance'
        /\ keys instance' = keys instance
        /\ (forall k, k <> "api_key" -> k <> "password" ->
                      dict_get k instance' = dict_get k instance)
        /\ (forall v, dict_get "api_key" instance' = Some v -> v = redacted)
        /\ (forall v, dict_get "password" instance' = Some v -> v = redacted)
  | _ => e' = e
  end.

(** A mapping all of whose values are non-empty strings. *)
Definition values_truthy (instance : instance_cfg) : Prop :=
  forall k v, In (k, v) instance -> truthy v = true.

(** The [ArtifactoryInstance] that [load_config] creates from an entry. *)
Definition configured_of (instance : instance_cfg) : ConfiguredInstance :=
  mkConfigured (cfg_get "name" instance)
               (rstrip "/" (py_str (cfg_get "url" instance)))
               (mkCredentials (cfg_get "api_key" instance)
                              (cfg_get "username" instance)
                              (cfg_get "password" instance)).

(** Two instances whose remote repositories point at each other. *)
Definition loop_instances : list ArtifactoryInstance :=
  [new_instance "A" "http://a/art"
     [("r1", mkRepo (Some "remote") None (Some "http://b/art/r2") None)];
   new_instance "B" "http://b/art"
     [("r2", mkRepo (Some "remote") None (Some "http://a/art/r1") None)]].

(** A configuration with one complete instance entry. *)
Definition sample_entry : instance_cfg :=
  [("name", Some "A"); ("url", Some "http://a/art/");
   ("username", Some "user"); ("password", Some "pass")].

Definition sample_config : config :=
  [("artifactory_instances", CInstances [EMap sample_entry])].

(** A configuration whose only entry is a list of names, not a mapping. *)
Definition list_entry_config : config :=
  [("artifactory_instances",
    CInstances [EList [Some "name"; Some "url"; Some "api_key"]])].

(* ================================================================== *)
(** ** Facts about the built-ins *)
(* ================================================================== *)

Section Builtins.

Lemma NoDup_snoc {A} (l : list A) (x : A) :
  NoDup l -> ~ In x l -> NoDup (l ++ [x]).
Proof.
  intros ND Hn. induction l as [|a l IH]; simpl.
  - constructor; [tauto | constructor].
  - inversion ND; subst. constructor.
    + rewrite in_app_iff. simpl. intros [H | [H | []]]; [tauto|].
      apply Hn. now left.
    + apply IH; [assumption|]. intros H. apply Hn. now right.
Qed.

Lemma mem_In (x : string) (l : list string) : mem x l = true <-> In x l.
Proof.
  unfold mem. rewrite existsb_exists. split.
  - intros [y [Hy E]]. apply String.eqb_eq in E. now subst.
  - intros H. exists x. split; [assumption | apply String.eqb_refl].
Qed.

Lemma mem_not_In (x : string) (l : list string) : mem x l = false <-> ~ In x l.
Proof.
  rewrite <- mem_In. destruct (mem x l); split; congruence.
Qed.

Lemma opt_is_Some (x : option string) (lit : string) :
  opt_is x lit = true <-> x = Some lit.
Proof.
  destruct x as [s|]; simpl.
  - rewrite String.eqb_eq. split; congruence.
  - split; discriminate.
Qed.

Lemma dict_get_In {V} (k : string) (d : dict V) (v : V) :
  dict_get k d = Some v -> In (k, v) d.
Proof.
  induction d as [|[k' v'] d IH]; simpl; [discriminate|].
  destruct (String.eqb k' k) eqn:E.
  - apply String.eqb_eq in E. intros [= ->]. subst. now left.
  - intros H. right. now apply IH.
Qed.

Lemma dict_mem_keys {V} (k : string) (d : dict V) :
  dict_mem k d = true <-> In k (keys d).
Proof.
  unfold dict_mem, keys. induction d as [|[k' v'] d IH]; simpl.
  - split; [discriminate | tauto].
  - destruct (String.eqb k' k) eqn:E.
    + apply String.eqb_eq in E. tauto.
    + apply String.eqb_neq in E. rewrite IH. tauto.
Qed.

Lemma In_dict_get {V} (k : string) (d : dict V) (v : V) :
  NoDup (keys d) -> In (k, v) d -> dict_get k d = Some v.
Proof.
  unfold keys. induction d as [|[k' v'] d IH]; simpl; [tauto|].
  intros ND [E | H].
  - injection E as -> ->. now rewrite String.eqb_refl.
  - inversion ND as [|? ? Hn ND']; subst.
    destruct (String.eqb k' k) eqn:E.
    + apply String.eqb_eq in E. subst. exfalso. apply Hn.
      change k with (fst (k, v)). now apply in_map.
    + now apply IH.
Qed.

Lemma dict_get_set_same {V} (k : string) (v : V) (d : dict V) :
  dict_get k (dict_set k v d) = Some v.
Proof.
  induction d as [|[k' v'] d IH]; simpl.
  - now rewrite String.eqb_refl.
  - destruct (String.eqb k' k) eqn:E; simpl.
    + now rewrite String.eqb_refl.
    + now rewrite E.
Qed.

Lemma dict_get_set_other {V} (k k0 : string) (v : V) (d : dict V) :
  k0 <> k -> dict_get k0 (dict_set k v d) = dict_get k0 d.
Proof.
  intros Hne. induction d as [|[k' v'] d IH]; simpl.
  - destruct (String.eqb k k0) eqn:E; [|reflexivity].
    apply String.eqb_eq in E. congruence.
  - destruct (String.eqb k' k) eqn:E; simpl.
    + apply String.eqb_eq in E. subst k'.
      destruct (String.eqb k k0) eqn:E'; [|reflexivity].
      apply String.eqb_eq in E'. congruence.
    + now rewrite IH.
Qed.

Lemma keys_dict_set {V} (k : string) (v : V) (d : dict V) :
  keys (dict_set k v d) = if dict_mem k d then keys d else keys d ++ [k].
Proof.
  unfold dict_mem, keys. induction d as [|[k' v'] d IH]; simpl; [reflexivity|].
  destruct (String.eqb k' k) eqn:E; simpl.
  - apply String.eqb_eq in E. now subst.
  - rewrite IH. now destruct (dict_get k d).
Qed.

Lemma In_dict_set {V} (k : string) (v : V) (d : dict V) (k0 : string) (v0 : V) :
  In (k0, v0) (dict_set k v d) -> In (k0, v0) d \/ (k0 = k /\ v0 = v).
Proof.
  induction d as [|[k' v'] d IH]; simpl.
  - intros [[= <- <-] | []]. now right.
  - destruct (String.eqb k' k); simpl.
    + intros [[= <- <-] | H]; [now right | left; now right].
    + intros [H | H]; [left; now left|].
      destruct (IH H) as [H' | H']; [left; now right | now right].
Qed.

Lemma In_dict_set_same {V} (k : string) (v : V) (d : dict V) :
  In (k, v) (dict_set k v d).
Proof. apply dict_get_In, dict_get_set_same. Qed.

Lemma NoDup_keys_dict_set {V} (k : string) (v : V) (d : dict V) :
  NoDup (keys d) -> NoDup (keys (dict_set k v d)).
Proof.
  intros ND. rewrite keys_dict_set.
  destruct (dict_mem k d) eqn:E; [assumption|].
  apply NoDup_snoc; [assumption|].
  rewrite <- dict_mem_keys. congruence.
Qed.

(** The list that models a [set] has no duplicates and the same members. *)
Lemma set_add_In (x y : string) (s : list string) :
  In y (set_add x s) <-> y = x \/ In y s.
Proof.
  unfold set_add. destruct (existsb (String.eqb x) s) eqn:E.
  - apply (proj1 (mem_In x s)) in E. split; [tauto|].
    intros [-> | H]; assumption.
  - rewrite in_app_iff. simpl. split; intros H; intuition congruence.
Qed.

Lemma set_add_NoDup (x : string) (s : list string) :
  NoDup s -> NoDup (set_add x s).
Proof.
  intros ND. unfold set_add. destruct (existsb (String.eqb x) s) eqn:E.
  - assumption.
  - apply NoDup_snoc; [assumption|]. now apply mem_not_In.
Qed.

Lemma set_of_spec (l : list string) :
  NoDup (set_of l) /\ forall y, In y (set_of l) <-> In y l.
Proof.
  unfold set_of.
  assert (G : forall s, NoDup s ->
            NoDup (fold_left (fun s x => set_add x s) l s)
            /\ forall y, In y (fold_left (fun s x => set_add x s) l s)
                         <-> In y s \/ In y l).
  { induction l as [|a l IH]; intros s ND; simpl.
    - split; [assumption | tauto].
    - destruct (IH (set_add a s) (set_add_NoDup a s ND)) as [H1 H2].
      split; [assumption|]. intros y. rewrite H2, set_add_In.
      intuition congruence. }
  destruct (G [] (NoDup_nil _)) as [H1 H2]. split; [assumption|].
  intros y. rewrite H2. simpl. tauto.
Qed.

End Builtins.

(* ================================================================== *)
(** ** Facts about the graph model *)
(* ================================================================== *)

Section GraphFacts.

Lemma find_entry_Some (n : string) (G : DiGraph) (e : node_entry) :
  find_entry n G = Some e -> In e G /\ nid e = n.
Proof.
  induction G as [|e' G IH]; simpl; [discriminate|].
  destruct (String.eqb (nid e') n) eqn:E.
  - apply String.eqb_eq in E. intros [= <-]. split; [now left | assumption].
  - intros H. destruct (IH H). split; [now right | assumption].
Qed.

Lemma find_entry_None (n : string) (G : DiGraph) :
  find_entry n G = None <-> ~ In n (nodes G).
Proof.
  unfold nodes. induction G as [|e' G IH]; simpl; [tauto|].
  destruct (String.eqb (nid e') n) eqn:E.
  - apply String.eqb_eq in E. split; [discriminate | tauto].
  - apply String.eqb_neq in E. rewrite IH. tauto.
Qed.

Lemma has_node_In (n : string) (G : DiGraph) :
  has_node n G = true <-> In n (nodes G).
Proof.
  unfold has_node. destruct (find_entry n G) as [e|] eqn:E.
  - split; [intros _ | reflexivity].
    destruct (find_entry_Some _ _ _ E) as [H <-]. unfold nodes. now apply in_map.
  - apply find_entry_None in E. split; [discriminate | contradiction].
Qed.

Lemma In_find_entry (G : DiGraph) (e : node_entry) :
  NoDup (nodes G) -> In e G -> find_entry (nid e) G = Some e.
Proof.
  unfold nodes. induction G as [|e' G IH]; simpl; [tauto|].
  intros ND [-> | H].
  - now rewrite String.eqb_refl.
  - inversion ND as [|? ? Hn ND']; subst.
    destruct (String.eqb (nid e') (nid e)) eqn:E.
    + apply String.eqb_eq in E. exfalso. apply Hn. rewrite E. now apply in_map.
    + now apply IH.
Qed.

Lemma edge_source (G : DiGraph) (u v : string) :
  edge G u v -> In u (nodes G).
Proof.
  unfold edge, successors. intros H. apply has_node_In. unfold has_node.
  destruct (find_entry u G); [reflexivity | destruct H].
Qed.

Lemma In_edges (G : DiGraph) (u v : string) (d : attrs) :
  In (u, v, d) (edges G) <-> exists e, In e G /\ nid e = u /\ In (v, d) (nsucc e).
Proof.
  unfold edges. rewrite in_flat_map. split.
  - intros [e [He H]]. apply in_map_iff in H as [[v' d'] [[= <- <- <-] H]].
    exists e. auto.
  - intros [e [He [<- H]]]. exists e. split; [assumption|].
    apply in_map_iff. exists (v, d). auto.
Qed.

(** *** Walks *)

Lemma walk_cons2 (R : string -> string -> Prop) (x y : string) (t : list string) :
  walk R (x :: y :: t) <-> R x y /\ walk R (y :: t).
Proof. reflexivity. Qed.

Lemma walk_app (R : string -> string -> Prop) (l1 l2 : list string) (x : string) :
  walk R (l1 ++ x :: l2) <-> walk R (l1 ++ [x]) /\ walk R (x :: l2).
Proof.
  induction l1 as [|a l1 IH].
  - simpl. tauto.
  - destruct l1 as [|b l1].
    + change (walk R (a :: x :: l2) <-> walk R [a; x] /\ walk R (x :: l2)).
      rewrite !walk_cons2. simpl. tauto.
    + change (walk R (a :: b :: l1 ++ x :: l2)
              <-> walk R (a :: b :: l1 ++ [x]) /\ walk R (x :: l2)).
      rewrite !walk_cons2.
      change (b :: l1 ++ x :: l2) with ((b :: l1) ++ x :: l2).
      rewrite IH. simpl app. tauto.
Qed.

Lemma walk_mono (R R' : string -> string -> Prop) (p : list string) :
  (forall u v, R u v -> R' u v) -> walk R p -> walk R' p.
Proof.
  intros HR. induction p as [|a p IH]; [trivial|].
  destruct p as [|b p]; [trivial|].
  rewrite !walk_cons2. intros [H1 H2]. split; [now apply HR | now apply IH].
Qed.

Lemma walk_sources (G : DiGraph) (l : list string) (x : string) :
  walk (edge G) (l ++ [x]) -> incl l (nodes G).
Proof.
  induction l as [|a l IH]; intros H.
  - intros y [].
  - assert (Ha : In a (nodes G) /\ walk (edge G) (l ++ [x])).
    { destruct l as [|b l]; simpl in H.
      - split; [eapply edge_source; apply H | exact I].
      - split; [eapply edge_source; apply H | apply H]. }
    destruct Ha as [Ha Hw]. intros y [<- | Hy]; [assumption | now apply IH].
Qed.

(** *** The depth-first enumeration *)

Lemma extend_sound (G : DiGraph) (t : string) (fuel : nat) :
  forall vis cur q,
    In q (extend G t fuel vis cur) -> continuation G t fuel vis cur q.
Proof.
  induction fuel as [|fuel IH]; intros vis cur q H; simpl in H; [destruct H|].
  apply in_flat_map in H as [child [Hc Hq]].
  destruct (mem child vis) eqn:Em; [destruct Hq|].
  apply mem_not_In in Em.
  destruct (String.eqb child t) eqn:Et.
  - apply String.eqb_eq in Et. subst child. destruct Hq as [<- | []].
    exists []. split; [reflexivity|]. split; [simpl; lia|].
    split; [constructor|]. split; [simpl; tauto|].
    split; [intros x [<- | []]; assumption|].
    simpl. split; [assumption | exact I].
  - apply String.eqb_neq in Et.
    apply in_map_iff in Hq as [q' [<- Hq']].
    apply IH in Hq' as [body [-> [Hlen [ND [Hnt [Hvis Hw]]]]]].
    exists (child :: body). split; [reflexivity|]. split; [simpl; lia|].
    split.
    { constructor; [|assumption]. intros Hin.
      apply (Hvis child); [apply in_or_app; now left | now left]. }
    split.
    { intros [E | Hin]; [congruence | contradiction]. }
    split.
    { intros x [<- | Hx]; [assumption|].
      intros Hv. apply (Hvis x Hx). now right. }
    change (walk (edge G) (cur :: child :: body ++ [t])).
    apply walk_cons2. split; assumption.
Qed.

Lemma extend_complete (G : DiGraph) (t : string) (fuel : nat) :
  forall vis cur q,
    continuation G t fuel vis cur q -> In q (extend G t fuel vis cur).
Proof.
  induction fuel as [|fuel IH];
    intros vis cur q [body [-> [Hlen [ND [Hnt [Hvis Hw]]]]]]; [lia|].
  simpl. apply in_flat_map. destruct body as [|c body].
  - simpl in *. exists t. split; [apply Hw|].
    assert (Em : mem t vis = false).
    { apply mem_not_In. apply Hvis. now left. }
    rewrite Em, String.eqb_refl. now left.
  - change ((c :: body) ++ [t]) with (c :: body ++ [t]) in *.
    apply walk_cons2 in Hw as [He Hw].
    exists c. split; [exact He|].
    assert (Em : mem c vis = false).
    { apply mem_not_In. apply Hvis. now left. }
    assert (Et : String.eqb c t = false).
    { apply String.eqb_neq. intros ->. apply Hnt. now left. }
    rewrite Em, Et. apply in_map. apply IH.
    inversion ND as [|? ? Hc ND']; subst.
    exists body. split; [reflexivity|]. split; [simpl in Hlen; lia|].
    split; [assumption|]. split; [intros Hin; apply Hnt; now right|].
    split; [|assumption].
    intros x Hx [<- | Hv].
    + apply in_app_or in Hx as [Hx | [<- | []]]; [contradiction|].
      apply Hnt. now left.
    + apply (Hvis x); [now right | assumption].
Qed.

Lemma extend_spec (G : DiGraph) (t : string) (fuel : nat) vis cur q :
  In q (extend G t fuel vis cur) <-> continuation G t fuel vis cur q.
Proof. split; [apply extend_sound | apply extend_complete]. Qed.

(** [all_simple_paths] yields exactly the simple paths from [s] to [t]
    that have at most [cutoff] edges, that is at most [cutoff + 1] nodes. *)
Lemma all_simple_paths_spec (G : DiGraph) (s t : string) (cutoff : Z)
      (p : list string) :
  In p (all_simple_paths G s t cutoff)
  <-> simple_path (edge G) s t p /\ (Z.of_nat (List.length p) <= cutoff + 1)%Z.
Proof.
  unfold all_simple_paths, simple_path.
  destruct (String.eqb s t) eqn:Est.
  - apply String.eqb_eq in Est. subst t. split; [intros []|].
    intros [[body [-> [ND _]]] _]. inversion ND as [|? ? Hn _]; subst.
    apply Hn. apply in_or_app. right. now left.
  - apply String.eqb_neq in Est. rewrite in_map_iff. split.
    + intros [q [<- Hq]].
      apply extend_spec in Hq as [body [-> [Hlen [ND [Hnt [Hvis Hw]]]]]].
      split.
      * exists body. split; [reflexivity|]. split; [|assumption].
        constructor.
        -- intros Hin. apply (Hvis s Hin). now left.
        -- now apply NoDup_snoc.
      * simpl. rewrite length_app. simpl. lia.
    + intros [[body [-> [ND Hw]]] Hlen].
      exists (body ++ [t]). split; [reflexivity|].
      apply extend_spec. exists body.
      inversion ND as [|? ? Hs ND']; subst.
      simpl in Hlen. rewrite length_app in Hlen. simpl in Hlen.
      apply NoDup_remove in ND' as [ND' Hnt]. rewrite app_nil_r in *.
      split; [reflexivity|]. split; [lia|]. split; [assumption|].
      split; [assumption|]. split; [|assumption].
      intros x Hx [<- | []]. contradiction.
Qed.

End GraphFacts.

(* ================================================================== *)
(** ** Simple cycles: soundness and completeness of the enumeration *)
(* ================================================================== *)

Section Cycles.

Lemma rotation_In (c c' : list string) (x : string) :
  rotation c c' -> (In x c <-> In x c').
Proof.
  intros [l1 [l2 [-> ->]]]. rewrite !in_app_iff. tauto.
Qed.

Lemma rotation_sym (c c' : list string) : rotation c c' -> rotation c' c.
Proof. intros [l1 [l2 [-> ->]]]. now exists l2, l1. Qed.

Lemma rotation_length (c c' : list string) :
  rotation c c' -> List.length c = List.length c'.
Proof. intros [l1 [l2 [-> ->]]]. rewrite !length_app. lia. Qed.

(** Being a cycle does not depend on the node the list starts at. *)
Lemma is_cycle_rotation (R : string -> string -> Prop) (c c' : list string) :
  is_cycle R c -> rotation c c' -> is_cycle R c'.
Proof.
  intros Hc [l1 [l2 [-> ->]]].
  destruct l1 as [|a l1]; [now rewrite app_nil_r|].
  destruct l2 as [|b l2]; [now rewrite app_nil_r in Hc|].
  destruct Hc as [ND Hw]. split.
  - eapply Permutation_NoDup; [|exact ND].
    apply (Permutation_app_comm (a :: l1) (b :: l2)).
  - replace (a :: (l1 ++ b :: l2) ++ [a])
      with ((a :: l1) ++ b :: (l2 ++ [a])) in Hw
      by (simpl; now rewrite <- app_assoc).
    apply walk_app in Hw as [H1 H2].
    replace (b :: (l2 ++ a :: l1) ++ [b])
      with ((b :: l2) ++ a :: (l1 ++ [b]))
      by (simpl; now rewrite <- app_assoc).
    apply walk_app. split; assumption.
Qed.

Lemma is_cycle_nodes (G : DiGraph) (c : list string) :
  is_cycle (edge G) c -> incl c (nodes G).
Proof.
  destruct c as [|r body]; [intros []|]. intros [_ Hw].
  apply (walk_sources G (r :: body) r). exact Hw.
Qed.

Lemma is_cycle_mono (R R' : string -> string -> Prop) (c : list string) :
  (forall u v, R u v -> R' u v) -> is_cycle R c -> is_cycle R' c.
Proof.
  intros HR. destruct c as [|r body]; [trivial|].
  intros [ND Hw]. split; [assumption | now apply (walk_mono R R')].
Qed.

Lemma cycles_from_spec (G : DiGraph) (removed : list string) (r : string)
      (c : list string) :
  In c (cycles_from G removed r)
  <-> exists body, c = r :: body
                   /\ continuation G r (List.length G) removed r (body ++ [r]).
Proof.
  unfold cycles_from. rewrite in_map_iff. split.
  - intros [q [<- Hq]]. apply extend_spec in Hq.
    pose proof Hq as [body [-> _]].
    exists body. rewrite removelast_last. auto.
  - intros [body [-> Hq]]. exists (body ++ [r]).
    rewrite removelast_last. split; [reflexivity | now apply extend_spec].
Qed.

Lemma cycles_from_sound (G : DiGraph) (removed : list string) (r : string)
      (c : list string) :
  In c (cycles_from G removed r) -> is_cycle (edge G) c.
Proof.
  intros H. apply cycles_from_spec in H as [body [-> Hq]].
  destruct Hq as [body' [E [_ [ND [Hnt [_ Hw]]]]]].
  apply app_inj_tail in E as [<- _].
  split; [now constructor | exact Hw].
Qed.

Lemma cycles_over_sound (G : DiGraph) (roots removed : list string)
      (c : list string) :
  In c (cycles_over G roots removed) -> is_cycle (edge G) c.
Proof.
  revert removed. induction roots as [|r roots IH]; intros removed H; simpl in H.
  - destruct H.
  - apply in_app_or in H as [H | H].
    + eapply cycles_from_sound; exact H.
    + eapply IH; exact H.
Qed.

Lemma cycles_over_complete (G : DiGraph) :
  forall roots removed c,
    is_cycle (edge G) c ->
    incl c roots ->
    (forall x, In x c -> ~ In x removed) ->
    exists c', rotation c c' /\ In c' (cycles_over G roots removed).
Proof.
  induction roots as [|r roots IH]; intros removed c Hc Hin Hrem.
  - destruct c as [|x c]; [destruct Hc|]. destruct (Hin x). now left.
  - destruct (in_dec string_dec r c) as [Hr | Hr].
    + apply in_split in Hr as [l1 [l2 ->]].
      assert (Hrot : rotation (l1 ++ r :: l2) (r :: l2 ++ l1)).
      { exists l1, (r :: l2). split; reflexivity. }
      exists (r :: l2 ++ l1). split; [exact Hrot|].
      simpl. apply in_or_app. left.
      pose proof (is_cycle_rotation _ _ _ Hc Hrot) as Hc'.
      pose proof (is_cycle_nodes _ _ Hc') as Hn.
      destruct Hc' as [ND Hw].
      apply cycles_from_spec. exists (l2 ++ l1). split; [reflexivity|].
      exists (l2 ++ l1). split; [reflexivity|].
      inversion ND as [|? ? Hnr ND']; subst.
      split.
      { pose proof (NoDup_incl_length ND Hn) as Hl.
        unfold nodes in Hl. rewrite length_map in Hl. simpl in Hl. lia. }
      split; [assumption|]. split; [assumption|]. split; [|exact Hw].
      intros x Hx. apply Hrem. apply (rotation_In _ _ x Hrot).
      apply in_app_or in Hx as [Hx | [<- | []]]; [now right | now left].
    + destruct (IH (r :: removed) c Hc) as [c' [Hrot Hc']].
      * intros x Hx. destruct (Hin x Hx) as [<- | H]; [contradiction | assumption].
      * intros x Hx [<- | H]; [contradiction | now apply (Hrem x)].
      * exists c'. split; [assumption|]. simpl. apply in_or_app. now right.
Qed.

(** Every list returned by [simple_cycles] is a simple cycle of [G]. *)
Lemma simple_cycles_sound (G : DiGraph) (c : list string) :
  In c (simple_cycles G) -> is_cycle (edge G) c.
Proof. apply cycles_over_sound. Qed.

(** Every simple cycle of [G] is returned, from one of its nodes. *)
Lemma simple_cycles_complete (G : DiGraph) (c : list string) :
  is_cycle (edge G) c -> exists c', rotation c c' /\ In c' (simple_cycles G).
Proof.
  intros Hc. apply cycles_over_complete.
  - assumption.
  - now apply is_cycle_nodes.
  - intros x _ [].
Qed.

End Cycles.

(* ================================================================== *)
(** ** Effect of [add_node] and [add_edge] *)
(* ================================================================== *)

Section Construction.

Lemma nodes_app (G H : DiGraph) : nodes (G ++ H) = nodes G ++ nodes H.
Proof. apply map_app. Qed.

Lemma edges_app (G H : DiGraph) : edges (G ++ H) = edges G ++ edges H.
Proof. apply flat_map_app. Qed.

Lemma nodes_update_entry (n : string) (f : node_entry -> node_entry)
      (G : DiGraph) :
  (forall e, nid (f e) = nid e) -> nodes (update_entry n f G) = nodes G.
Proof.
  intros Hf. unfold nodes. induction G as [|e G IH]; simpl; [reflexivity|].
  destruct (String.eqb (nid e) n); simpl; [now rewrite Hf | now rewrite IH].
Qed.

Lemma In_update_entry (n : string) (f : node_entry -> node_entry)
      (G : DiGraph) (e' : node_entry) :
  In e' (update_entry n f G) ->
  In e' G \/ exists e, In e G /\ nid e = n /\ e' = f e.
Proof.
  induction G as [|e G IH]; simpl; [tauto|].
  destruct (String.eqb (nid e) n) eqn:E; simpl.
  - apply String.eqb_eq in E. intros [<- | H].
    + right. exists e. auto.
    + left. now right.
  - intros [<- | H]; [left; now left|].
    destruct (IH H) as [H' | [e0 [H1 H2]]]; [left; now right|].
    right. exists e0. split; [now right | assumption].
Qed.

Lemma find_entry_update (x n : string) (f : node_entry -> node_entry)
      (G : DiGraph) :
  (forall e, nid (f e) = nid e) ->
  find_entry x (update_entry n f G)
  = if String.eqb n x then option_map f (find_entry x G) else find_entry x G.
Proof.
  intros Hf. induction G as [|e G IH]; simpl.
  - now destruct (String.eqb n x).
  - destruct (String.eqb (nid e) n) eqn:E; simpl.
    + apply String.eqb_eq in E. subst n. rewrite Hf.
      destruct (String.eqb (nid e) x); reflexivity.
    + rewrite IH. destruct (String.eqb (nid e) x) eqn:E'; [|reflexivity].
      apply String.eqb_eq in E'. subst x. rewrite String.eqb_sym in E.
      now rewrite E.
Qed.

Lemma find_entry_snoc (x : string) (G : DiGraph) (e0 : node_entry) :
  find_entry x (G ++ [e0])
  = match find_entry x G with
    | Some e => Some e
    | None => if String.eqb (nid e0) x then Some e0 else None
    end.
Proof.
  induction G as [|e G IH]; simpl; [reflexivity|].
  destruct (String.eqb (nid e) x); [reflexivity | exact IH].
Qed.

Lemma nodes_ensure_node (G : DiGraph) (n x : string) :
  In x (nodes (ensure_node G n)) <-> In x (nodes G) \/ x = n.
Proof.
  unfold ensure_node. destruct (has_node n G) eqn:E.
  - apply has_node_In in E. split; [tauto | intros [H | ->]; assumption].
  - rewrite nodes_app, in_app_iff. simpl. intuition.
Qed.

Lemma ensure_node_id (G : DiGraph) (n : string) :
  In n (nodes G) -> ensure_node G n = G.
Proof.
  intros H. apply has_node_In in H. unfold ensure_node. now rewrite H.
Qed.

Lemma edges_ensure_node (G : DiGraph) (n : string) :
  edges (ensure_node G n) = edges G.
Proof.
  unfold ensure_node. destruct (has_node n G); [reflexivity|].
  rewrite edges_app. simpl. apply app_nil_r.
Qed.

Lemma successors_ensure_node (G : DiGraph) (n x : string) :
  successors (ensure_node G n) x = successors G x.
Proof.
  unfold ensure_node, successors. destruct (has_node n G); [reflexivity|].
  rewrite find_entry_snoc. destruct (find_entry x G); [reflexivity|].
  simpl. now destruct (String.eqb n x).
Qed.

Lemma NoDup_nodes_ensure_node (G : DiGraph) (n : string) :
  NoDup (nodes G) -> NoDup (nodes (ensure_node G n)).
Proof.
  intros ND. unfold ensure_node. destruct (has_node n G) eqn:E; [assumption|].
  rewrite nodes_app. apply NoDup_snoc; [assumption|].
  simpl. intros H. apply has_node_In in H. congruence.
Qed.

Lemma nid_set_succ (v : string) (a : attrs) (e : node_entry) :
  nid (set_succ v a e) = nid e.
Proof. reflexivity. Qed.

Lemma nid_set_attr (a : attrs) (e : node_entry) : nid (set_attr a e) = nid e.
Proof. reflexivity. Qed.

(** *** Nodes *)

Lemma nodes_add_edge (G : DiGraph) (u v : string) (a : attrs) (x : string) :
  In x (nodes (add_edge G u v a)) <-> In x (nodes G) \/ x = u \/ x = v.
Proof.
  unfold add_edge. rewrite nodes_update_entry by apply nid_set_succ.
  rewrite !nodes_ensure_node. tauto.
Qed.

Lemma nodes_add_edge_present (G : DiGraph) (u v : string) (a : attrs) :
  In u (nodes G) -> In v (nodes G) -> nodes (add_edge G u v a) = nodes G.
Proof.
  intros Hu Hv. unfold add_edge. rewrite nodes_update_entry by apply nid_set_succ.
  now rewrite (ensure_node_id G u Hu), (ensure_node_id G v Hv).
Qed.

Lemma nodes_add_node (G : DiGraph) (n : string) (a : attrs) (x : string) :
  In x (nodes (add_node G n a)) <-> In x (nodes G) \/ x = n.
Proof.
  unfold add_node. destruct (has_node n G) eqn:E.
  - rewrite nodes_update_entry by apply nid_set_attr.
    apply has_node_In in E. split; [tauto | intros [H | ->]; assumption].
  - rewrite nodes_app, in_app_iff. simpl. intuition.
Qed.

(** *** Successors *)

Lemma edge_add_edge (G : DiGraph) (u v : string) (a : attrs) (x y : string) :
  edge (add_edge G u v a) x y <-> edge G x y \/ (x = u /\ y = v).
Proof.
  unfold edge, add_edge, successors.
  rewrite find_entry_update by apply nid_set_succ.
  set (G2 := ensure_node (ensure_node G u) v).
  assert (Hs : successors G2 x = successors G x).
  { unfold G2. now rewrite !successors_ensure_node. }
  unfold successors in Hs.
  destruct (String.eqb u x) eqn:E.
  - apply String.eqb_eq in E. subst x.
    assert (Hu : In u (nodes G2)).
    { unfold G2. rewrite !nodes_ensure_node. tauto. }
    apply has_node_In in Hu. unfold has_node in Hu.
    destruct (find_entry u G2) as [e|] eqn:Ee; [|discriminate].
    simpl. rewrite <- Hs. rewrite keys_dict_set.
    destruct (dict_mem v (nsucc e)) eqn:Em.
    + apply dict_mem_keys in Em. split; [tauto|].
      intros [H | [_ ->]]; assumption.
    + rewrite in_app_iff. simpl. intuition.
  - apply String.eqb_neq in E. rewrite Hs. intuition congruence.
Qed.

(** *** Edge list *)

Lemma In_edges_add_edge (G : DiGraph) (u v : string) (a : attrs)
      (x y : string) (d : attrs) :
  In (x, y, d) (edges (add_edge G u v a)) ->
  In (x, y, d) (edges G) \/ (x = u /\ y = v /\ exists old, d = dict_update old a).
Proof.
  unfold add_edge. intros H. apply In_edges in H as [e' [He' [Hx Hy]]].
  apply In_update_entry in He' as [He' | [e [He [Hn ->]]]].
  - left. rewrite <- (edges_ensure_node G u), <- (edges_ensure_node _ v).
    apply In_edges. exists e'. auto.
  - simpl in Hx, Hy. apply In_dict_set in Hy as [Hy | [-> ->]].
    + left. rewrite <- (edges_ensure_node G u), <- (edges_ensure_node _ v).
      apply In_edges. exists e. auto.
    + right. split; [congruence|]. split; [reflexivity|]. eauto.
Qed.

Lemma edges_add_node (G : DiGraph) (n : string) (a : attrs) :
  edges (add_node G n a) = edges G.
Proof.
  unfold add_node. destruct (has_node n G).
  - unfold edges. induction G as [|e G IH]; simpl; [reflexivity|].
    destruct (String.eqb (nid e) n); simpl; [reflexivity | now rewrite IH].
  - rewrite edges_app. simpl. apply app_nil_r.
Qed.

(** *** Unique keys *)

Lemma wf_empty : wf_graph empty_graph.
Proof. split; [constructor | intros e []]. Qed.

Lemma wf_ensure_node (G : DiGraph) (n : string) :
  wf_graph G -> wf_graph (ensure_node G n).
Proof.
  intros [H1 H2]. split; [now apply NoDup_nodes_ensure_node|].
  unfold ensure_node. destruct (has_node n G); [assumption|].
  intros e He. apply in_app_or in He as [He | [<- | []]]; [now apply H2|].
  constructor.
Qed.

Lemma wf_add_edge (G : DiGraph) (u v : string) (a : attrs) :
  wf_graph G -> wf_graph (add_edge G u v a).
Proof.
  intros W. apply (wf_ensure_node _ u), (wf_ensure_node _ v) in W.
  destruct W as [H1 H2]. unfold add_edge. split.
  - now rewrite nodes_update_entry by apply nid_set_succ.
  - intros e' He'. apply In_update_entry in He' as [He' | [e [He [_ ->]]]].
    + now apply H2.
    + simpl. apply NoDup_keys_dict_set. now apply H2.
Qed.

Lemma wf_add_node (G : DiGraph) (n : string) (a : attrs) :
  wf_graph G -> wf_graph (add_node G n a).
Proof.
  intros [H1 H2]. unfold add_node. destruct (has_node n G) eqn:E; split.
  - now rewrite nodes_update_entry by apply nid_set_attr.
  - intros e' He'. apply In_update_entry in He' as [He' | [e [He [_ ->]]]];
      simpl; now apply H2.
  - rewrite nodes_app. apply NoDup_snoc; [assumption|].
    simpl. intros H. apply has_node_In in H. congruence.
  - intros e He. apply in_app_or in He as [He | [<- | []]]; [now apply H2|].
    constructor.
Qed.

(** In a graph with unique keys an ordered pair carries one edge. *)
Lemma wf_edge_unique (G : DiGraph) (u v : string) (d1 d2 : attrs) :
  wf_graph G -> In (u, v, d1) (edges G) -> In (u, v, d2) (edges G) -> d1 = d2.
Proof.
  intros [H1 H2] E1 E2.
  apply In_edges in E1 as [e1 [He1 [Hu1 Hv1]]].
  apply In_edges in E2 as [e2 [He2 [Hu2 Hv2]]].
  pose proof (In_find_entry G e1 H1 He1) as F1.
  pose proof (In_find_entry G e2 H1 He2) as F2.
  rewrite Hu1 in F1. rewrite Hu2 in F2. rewrite F1 in F2. injection F2 as <-.
  pose proof (In_dict_get v (nsucc e1) d1 (H2 e1 He1) Hv1) as D1.
  pose proof (In_dict_get v (nsucc e1) d2 (H2 e1 He1) Hv2) as D2.
  congruence.
Qed.

Lemma edge_iff_edges (G : DiGraph) (u v : string) :
  NoDup (nodes G) -> (edge G u v <-> exists d, In (u, v, d) (edges G)).
Proof.
  intros ND. unfold edge, successors, keys. split.
  - destruct (find_entry u G) as [e|] eqn:E; [|intros []].
    destruct (find_entry_Some _ _ _ E) as [He Hn].
    intros H. apply in_map_iff in H as [[v' d] [<- H]].
    exists d. apply In_edges. exists e. auto.
  - intros [d H]. apply In_edges in H as [e [He [<- Hv]]].
    rewrite (In_find_entry G e ND He).
    change v with (fst (v, d)). now apply in_map.
Qed.

End Construction.

(* ================================================================== *)
(** ** The edge-filtered graphs of the detectors *)
(* ================================================================== *)

Section TypedSubgraph.

Variable ty : string.

Lemma fold_step_edge (es : list (string * string * attrs)) :
  forall H x y,
    edge (fold_left (copy_typed_edge ty) es H) x y
    <-> edge H x y
        \/ exists d, In (x, y, d) es /\ opt_is (dict_get "edge_type" d) ty = true.
Proof.
  induction es as [|[[u v] d] es IH]; intros H x y; simpl.
  - split; [tauto | intros [A | [d [[] _]]]; assumption].
  - rewrite IH. destruct (opt_is (dict_get "edge_type" d) ty) eqn:E.
    + rewrite edge_add_edge. split.
      * intros [[A | [-> ->]] | [d' [A B]]]; eauto.
      * intros [A | [d' [[[= -> -> ->] | A] B]]]; eauto.
    + split.
      * intros [A | [d' [A B]]]; eauto.
      * intros [A | [d' [[[= -> -> ->] | A] B]]]; [tauto | congruence | eauto].
Qed.

Lemma fold_step_nodes (es : list (string * string * attrs)) :
  forall H x,
    (In x (nodes H)
     \/ exists u v d, In (u, v, d) es
                      /\ opt_is (dict_get "edge_type" d) ty = true
                      /\ (x = u \/ x = v)) ->
    In x (nodes (fold_left (copy_typed_edge ty) es H)).
Proof.
  induction es as [|[[u v] d] es IH]; intros H x; simpl.
  - intros [A | [u [v [d [[] _]]]]]. assumption.
  - intros A. apply IH.
    destruct A as [A | [u' [v' [d' [[[= -> -> ->] | A] [B C]]]]]].
    + left. destruct (opt_is (dict_get "edge_type" d) ty); [|assumption].
      apply nodes_add_edge. tauto.
    + left. rewrite B. apply nodes_add_edge. tauto.
    + right. eauto 8.
Qed.

(** The fresh graph has an edge exactly where [graph] has one of type
    [ty], and its endpoints are nodes of the fresh graph. *)
Lemma typed_subgraph_edge (graph : DiGraph) (x y : string) :
  edge (typed_subgraph ty graph) x y <-> typed_edge ty graph x y.
Proof.
  unfold typed_subgraph, typed_edge.
  rewrite fold_step_edge. unfold edge, successors. simpl. tauto.
Qed.

Lemma typed_subgraph_nodes (graph : DiGraph) (x y : string) :
  typed_edge ty graph x y ->
  In x (nodes (typed_subgraph ty graph)) /\ In y (nodes (typed_subgraph ty graph)).
Proof.
  intros [d [A B]].
  split; apply (fold_step_nodes (edges graph) empty_graph);
    right; exists x, y, d; tauto.
Qed.

End TypedSubgraph.

Lemma simple_path_mono (R R' : string -> string -> Prop) (s t : string)
      (p : list string) :
  (forall u v, R u v -> R' u v) -> simple_path R s t p -> simple_path R' s t p.
Proof.
  intros HR [body [E [ND Hw]]]. exists body.
  split; [assumption|]. split; [assumption | now apply (walk_mono R R')].
Qed.

Lemma simple_path_length (R : string -> string -> Prop) (s t : string)
      (p : list string) :
  simple_path R s t p -> 2 <= List.length p /\ s <> t.
Proof.
  intros [body [-> [ND _]]]. split.
  - simpl. rewrite length_app. simpl. lia.
  - intros ->. inversion ND as [|? ? Hn _]; subst. apply Hn.
    apply in_or_app. right. now left.
Qed.

(* ================================================================== *)
(** ** Remote chains *)
(* ================================================================== *)

(** A single remote edge between two distinct nodes is reported. *)
Lemma remote_chains_single_edge (graph : DiGraph) (u v : string) :
  typed_edge "remote" graph u v -> u <> v ->
  In [u; v] (find_remote_chains graph).
Proof.
  intros He Hne. unfold find_remote_chains.
  destruct (typed_subgraph_nodes "remote" graph u v He) as [Hu Hv].
  apply (typed_subgraph_edge "remote") in He. fold (remote_graph graph) in *.
  apply in_flat_map. exists u. split; [assumption|].
  assert (Hd : (0 <? out_degree (remote_graph graph) u)%nat = true).
  { apply Nat.ltb_lt. unfold out_degree. unfold edge in He.
    destruct (successors (remote_graph graph) u); [destruct He | simpl; lia]. }
  rewrite Hd. apply in_flat_map. exists v. split; [assumption|].
  apply String.eqb_neq in Hne. rewrite Hne. simpl.
  apply filter_In. split; [|reflexivity].
  apply all_simple_paths_spec. split; [|simpl; lia].
  exists []. split; [reflexivity|]. split.
  - constructor; [|constructor; [tauto | constructor]].
    apply String.eqb_neq in Hne. intros [E | []]. congruence.
  - simpl. tauto.
Qed.

(** C1, as stated, fails: the detector keeps every path of more than one
    node, so a direct remote edge (a path of exactly two nodes) is
    reported as a chain. *)
Lemma remote_chains_reports_direct_edge :
  ~ (forall graph p,
        In p (find_remote_chains graph) ->
        (exists s t, simple_path (typed_edge "remote" graph) s t p)
        /\ 3 <= List.length p).
Proof.
  intros H.
  destruct (H (chain_graph "remote" ["a"; "b"]) ["a"; "b"]) as [_ Hl].
  - vm_compute. now left.
  - simpl in Hl. lia.
Qed.

(** C1 (amended): every path returned by the remote-chains detector is a
    simple path between two distinct nodes that uses only remote-typed
    edges, with at least one edge (two nodes) and at most ten edges (eleven
    nodes); and a direct remote edge between distinct nodes is itself
    reported. *)
Theorem remote_chains_are_remote_simple_paths (graph : DiGraph) :
  (forall p,
      In p (find_remote_chains graph) ->
      exists s t,
        s <> t
        /\ simple_path (typed_edge "remote" graph) s t p
        /\ 2 <= List.length p <= 11)
  /\ (forall u v,
         typed_edge "remote" graph u v -> u <> v ->
         In [u; v] (find_remote_chains graph)).
Proof.
  split; [|apply remote_chains_single_edge].
  intros p H. unfold find_remote_chains in H.
  apply in_flat_map in H as [s [_ H]].
  destruct (0 <? out_degree (remote_graph graph) s)%nat; [|destruct H].
  apply in_flat_map in H as [t [_ H]].
  destruct (negb (String.eqb s t)); [|destruct H].
  apply filter_In in H as [H _].
  apply all_simple_paths_spec in H as [Hp Hl].
  destruct (simple_path_length _ _ _ _ Hp) as [H2 Hne].
  exists s, t. split; [assumption|]. split; [|lia].
  apply (simple_path_mono (edge (remote_graph graph))); [|assumption].
  intros u v. apply typed_subgraph_edge.
Qed.

Lemma remote_chains_are_remote_simple_paths_witness :
  exists s t,
    s <> t
    /\ simple_path (typed_edge "remote" (chain_graph "remote" ["a"; "b"; "c"]))
                   s t ["a"; "b"; "c"]
    /\ 2 <= List.length ["a"; "b"; "c"] <= 11.
Proof.
  apply (proj1 (remote_chains_are_remote_simple_paths
                  (chain_graph "remote" ["a"; "b"; "c"]))).
  vm_compute. right. now left.
Defined.

(* ================================================================== *)
(** ** Long dependency chains *)
(* ================================================================== *)

(** C3, as stated, fails in its bound: the cutoff [max_length + 1] counts
    edges, so a path of [max_length + 2] nodes is explored and reported. *)
Lemma long_chains_exceed_claimed_bound :
  ~ (forall graph max_length p,
        In p (detect_long_dependency_chains graph max_length) ->
        (Z.of_nat (List.length p) <= max_length + 1)%Z).
Proof.
  intros H.
  specialize (H (chain_graph "includes" ["a"; "b"; "c"; "d"; "e"; "f"; "g"])
                5%Z ["a"; "b"; "c"; "d"; "e"; "f"; "g"]).
  assert (Hl : (Z.of_nat 7 <= 5 + 1)%Z).
  { apply H. vm_compute. right. now left. }
  lia.
Qed.

(** C3 (amended): for every graph and every [max_length], the detector
    reports exactly the simple paths between two distinct nodes of the
    graph whose node count exceeds [max_length] and is at most
    [max_length + 2] (at most [max_length + 1] edges). *)
Theorem long_dependency_chains_exact (graph : DiGraph) (max_length : Z)
        (p : list string) :
  In p (detect_long_dependency_chains graph max_length)
  <-> exists s t,
        In s (nodes graph) /\ In t (nodes graph) /\ s <> t
        /\ simple_path (edge graph) s t p
        /\ (max_length < Z.of_nat (List.length p) <= max_length + 2)%Z.
Proof.
  unfold detect_long_dependency_chains. rewrite in_flat_map. split.
  - intros [s [Hs H]]. apply in_flat_map in H as [t [Ht H]].
    destruct (String.eqb s t) eqn:E; simpl in H; [destruct H|].
    apply String.eqb_neq in E.
    apply filter_In in H as [H Hf]. apply Z.ltb_lt in Hf.
    apply all_simple_paths_spec in H as [Hp Hl].
    exists s, t. repeat (split; try assumption). lia.
  - intros [s [t [Hs [Ht [Hne [Hp [Hl1 Hl2]]]]]]].
    exists s. split; [assumption|]. apply in_flat_map.
    exists t. split; [assumption|].
    apply String.eqb_neq in Hne. rewrite Hne. simpl.
    apply filter_In. split; [|now apply Z.ltb_lt].
    apply all_simple_paths_spec. split; [assumption | lia].
Qed.

Lemma long_dependency_chains_exact_witness :
  In ["a"; "b"; "c"]
     (detect_long_dependency_chains (chain_graph "includes" ["a"; "b"; "c"]) 2).
Proof.
  apply (proj2 (long_dependency_chains_exact
                  (chain_graph "includes" ["a"; "b"; "c"]) 2 ["a"; "b"; "c"])).
  exists "a", "c".
  split; [vm_compute; tauto|]. split; [vm_compute; tauto|].
  split; [discriminate|]. split.
  - exists ["b"]. split; [reflexivity|]. split.
    + repeat constructor; simpl; intuition discriminate.
    + vm_compute. tauto.
  - simpl. lia.
Defined.

(* ================================================================== *)
(** ** Isolated repositories *)
(* ================================================================== *)

(** [in_degree] is zero exactly when no edge enters the node. *)
Lemma in_degree_zero (graph : DiGraph) (n : string) :
  NoDup (nodes graph) ->
  (in_degree graph n = 0 <-> forall u, ~ edge graph u n).
Proof.
  intros ND. unfold in_degree. split.
  - intros H u He. unfold edge, successors in He.
    destruct (find_entry u graph) as [e|] eqn:E; [|destruct He].
    apply find_entry_Some in E as [Hin _].
    apply dict_mem_keys in He.
    assert (Hf : In e (filter (fun e => dict_mem n (nsucc e)) graph)).
    { apply filter_In. auto. }
    destruct (filter (fun e => dict_mem n (nsucc e)) graph);
      [destruct Hf | discriminate].
  - intros H.
    destruct (filter (fun e => dict_mem n (nsucc e)) graph) as [|e l] eqn:E;
      [reflexivity|].
    assert (Hf : In e (filter (fun e => dict_mem n (nsucc e)) graph)).
    { rewrite E. now left. }
    apply filter_In in Hf as [Hin Hm]. exfalso. apply (H (nid e)).
    unfold edge, successors. rewrite (In_find_entry graph e ND Hin).
    now apply dict_mem_keys.
Qed.

(** C4: on a graph (node identifiers pairwise distinct) the
    isolated-repositories detector returns exactly the nodes of the graph
    that no edge enters and whose [repo_type] attribute is [local]; a node
    of any other type is never reported, whatever its in-degree. *)
Theorem isolated_repositories_exact (graph : DiGraph) (n : string) :
  NoDup (nodes graph) ->
  (In n (detect_isolated_repositories graph)
   <-> In n (nodes graph)
       /\ (forall u, ~ edge graph u n)
       /\ dict_get "repo_type" (node_data graph n) = Some "local").
Proof.
  intros ND. unfold detect_isolated_repositories.
  rewrite filter_In, andb_true_iff, Nat.eqb_eq, opt_is_Some.
  rewrite (in_degree_zero graph n ND). tauto.
Qed.

Lemma isolated_repositories_exact_witness :
  In "A:shared" (nodes (build_repository_graph shared_instances))
  /\ (forall u, ~ edge (build_repository_graph shared_instances) u "A:shared")
  /\ dict_get "repo_type"
              (node_data (build_repository_graph shared_instances) "A:shared")
     = Some "local".
Proof.
  assert (ND : NoDup (nodes (build_repository_graph shared_instances))).
  { vm_compute. repeat constructor; simpl; intuition discriminate. }
  apply (proj1 (isolated_repositories_exact
                  (build_repository_graph shared_instances) "A:shared" ND)).
  vm_compute. now left.
Defined.

(* ================================================================== *)
(** ** Cross-instance loops *)
(* ================================================================== *)

Lemma first_split_cons (sep c : ascii) (s : string) :
  c <> sep ->
  first (split sep (String c s)) = String c (first (split sep s)).
Proof.
  intros Hc. apply Ascii.eqb_neq in Hc. simpl. rewrite Hc.
  now destruct (split sep s).
Qed.

(** What the detectors compute with [node.split(':')[0]] is the instance
    prefix: the text before the first colon. *)
Lemma instance_of_is_prefix (node : string) :
  instance_prefix node (instance_of node).
Proof.
  unfold instance_prefix, instance_of.
  induction node as [|c s [IH1 IH2]].
  - simpl. tauto.
  - destruct (ascii_dec c ":") as [-> | Hc].
    + simpl. split; [exact I|]. right. now exists s.
    + rewrite (first_split_cons ":" c s Hc). split; [simpl; tauto|].
      destruct IH2 as [E | [rest E]].
      * left. f_equal. exact E.
      * right. exists rest.
        change (String c s
                = String c (first (split ":" s) ++ ":" ++ rest)%string).
        f_equal. exact E.
Qed.

Lemma instance_prefix_unique (node p : string) :
  instance_prefix node p -> instance_of node = p.
Proof.
  unfold instance_prefix, instance_of. revert node.
  induction p as [|c p IH]; intros node [Hl H].
  - destruct H as [-> | [rest ->]]; reflexivity.
  - destruct Hl as [Hc Hl].
    destruct H as [-> | [rest ->]].
    + rewrite (first_split_cons ":" c p Hc). f_equal. apply IH. tauto.
    + change ((String c p ++ ":" ++ rest)%string)
        with (String c (p ++ ":" ++ rest)%string).
      rewrite (first_split_cons ":" c _ Hc). f_equal. apply IH.
      split; [assumption|]. right. now exists rest.
Qed.

(** A list of nodes whose [set] of computed prefixes has more than one
    element holds two nodes with different instance prefixes. *)
Lemma two_prefixes (c : list string) :
  1 < List.length (set_of (map instance_of c)) ->
  exists x y p q,
    In x c /\ In y c /\ instance_prefix x p /\ instance_prefix y q /\ p <> q.
Proof.
  intros Hl. destruct (set_of_spec (map instance_of c)) as [ND Hin].
  destruct (set_of (map instance_of c)) as [|a [|b l]]; simpl in Hl; try lia.
  assert (Ha : In a (map instance_of c)) by (apply Hin; now left).
  assert (Hb : In b (map instance_of c)) by (apply Hin; right; now left).
  apply in_map_iff in Ha as [x [Hx Hxc]].
  apply in_map_iff in Hb as [y [Hy Hyc]].
  exists x, y, (instance_of x), (instance_of y).
  split; [assumption|]. split; [assumption|].
  split; [apply instance_of_is_prefix|]. split; [apply instance_of_is_prefix|].
  rewrite Hx, Hy. inversion ND as [|? ? Hn _]; subst.
  intros E. apply Hn. left. congruence.
Qed.

(** C7: every cycle returned by the cross-instance-loops detector is one
    of the cycles returned by the simple-cycle enumeration of the same
    graph, is a simple cycle of the graph, and holds two nodes whose
    instance prefixes (the text of the identifier before its first colon)
    are different. *)
Theorem cross_instance_loops_are_cycles (graph : DiGraph) (c : list string) :
  In c (find_cross_instance_loops graph) ->
  In c (simple_cycles graph)
  /\ is_cycle (edge graph) c
  /\ 2 <= List.length (set_of (map instance_of c))
  /\ (exists x y, In x c /\ In y c /\ instance_of x <> instance_of y)
  /\ (exists x y p q,
         In x c /\ In y c
         /\ instance_prefix x p /\ instance_prefix y q /\ p <> q).
Proof.
  unfold find_cross_instance_loops. intros H.
  apply filter_In in H as [Hc Hl]. apply Nat.ltb_lt in Hl.
  split; [assumption|]. split; [now apply simple_cycles_sound|].
  split; [lia|].
  destruct (two_prefixes c Hl) as [x [y [p [q [Hx [Hy [Hp [Hq Hne]]]]]]]].
  split; [|exists x, y, p, q; tauto].
  exists x, y. split; [assumption|]. split; [assumption|].
  now rewrite (instance_prefix_unique x p Hp), (instance_prefix_unique y q Hq).
Qed.

Lemma cross_instance_loops_are_cycles_witness :
  In ["A:r1"; "B:r2"] (simple_cycles (chain_graph "remote" ["A:r1"; "B:r2"; "A:r1"]))
  /\ is_cycle (edge (chain_graph "remote" ["A:r1"; "B:r2"; "A:r1"])) ["A:r1"; "B:r2"]
  /\ 2 <= List.length (set_of (map instance_of ["A:r1"; "B:r2"]))
  /\ (exists x y, In x ["A:r1"; "B:r2"] /\ In y ["A:r1"; "B:r2"]
                  /\ instance_of x <> instance_of y)
  /\ (exists x y p q,
         In x ["A:r1"; "B:r2"] /\ In y ["A:r1"; "B:r2"]
         /\ instance_prefix x p /\ instance_prefix y q /\ p <> q).
Proof.
  apply (cross_instance_loops_are_cycles
           (chain_graph "remote" ["A:r1"; "B:r2"; "A:r1"]) ["A:r1"; "B:r2"]).
  vm_compute. now left.
Defined.

(* ================================================================== *)
(** ** The empty graph and the combined report *)
(* ================================================================== *)

(** The report always has the six keys of the detectors, in this order. *)
Lemma detect_all_issues_keys (graph : DiGraph) :
  keys (detect_all_issues graph) = detector_keys.
Proof. reflexivity. Qed.

(** C2, as stated, fails: the combined report has no entry for [cycles]
    (nor for [remote_to_virtual]), also on the empty graph. *)
Lemma empty_report_lacks_cycles_key :
  ~ (forall k, In k report_keys ->
               dict_get k (detect_all_issues empty_graph) = Some []).
Proof.
  intros H. specialize (H "cycles" (or_introl eq_refl)).
  vm_compute in H. discriminate.
Qed.

(** C2 (amended): an empty instance set builds the empty graph; on the
    empty graph every detector, the loop detector and the
    remote-to-virtual check return an empty list; and the combined report
    of any graph has exactly the six keys [include_cycles],
    [remote_chains], [cross_instance_loops], [shadowed_repositories],
    [long_dependency_chains] and [isolated_repositories], each mapped to an
    empty list on the empty graph.  The keys [cycles] and
    [remote_to_virtual] are not part of the combined report. *)
Theorem empty_graph_report :
  build_repository_graph [] = empty_graph
  /\ detect_loops empty_graph = []
  /\ find_include_cycles empty_graph = []
  /\ find_remote_chains empty_graph = []
  /\ find_cross_instance_loops empty_graph = []
  /\ detect_repository_shadowing empty_graph = []
  /\ (forall max_length, detect_long_dependency_chains empty_graph max_length = [])
  /\ detect_isolated_repositories empty_graph = []
  /\ detect_remote_to_virtual_issues empty_graph = []
  /\ (forall graph, keys (detect_all_issues graph) = detector_keys)
  /\ detect_all_issues empty_graph = map (fun k => (k, [])) detector_keys
  /\ dict_get "cycles" (detect_all_issues empty_graph) = None
  /\ dict_get "remote_to_virtual" (detect_all_issues empty_graph) = None.
Proof.
  repeat split; reflexivity.
Qed.

(* ================================================================== *)
(** ** The two-instance scenario *)
(* ================================================================== *)

(** C5: with instance [A] (base [http://a/art]) holding virtual [v1] that
    includes local [l1], and instance [B] (base [http://b/art]) holding
    remote [r1] with URL [http://a/art/v1], the builder produces exactly
    the edges [A:v1 -> A:l1] of type [includes] and [B:r1 -> A:v1] of type
    [remote]; the remote-to-virtual check reports [(B:r1, A:v1)] and the
    loop detector reports nothing.  This holds for every package type of
    the three repositories and for either order of the instances and of
    [A]'s repositories. *)
Theorem two_instance_scenario (pv pl pr : option string) (v_first a_first : bool) :
  let G := build_repository_graph (two_instances pv pl pr v_first a_first) in
  (forall e, In e (edges G)
             <-> e = ("A:v1", "A:l1", [("edge_type", "includes")])
                 \/ e = ("B:r1", "A:v1", [("edge_type", "remote")]))
  /\ List.length (edges G) = 2
  /\ (forall n, In n (nodes G) <-> n = "A:v1" \/ n = "A:l1" \/ n = "B:r1")
  /\ detect_remote_to_virtual_issues G = [("B:r1", "A:v1")]
  /\ detect_loops G = [].
Proof.
  destruct v_first, a_first; vm_compute;
    (split; [intros e; intuition congruence|]);
    (split; [reflexivity|]);
    (split; [intros n; intuition congruence|]);
    split; reflexivity.
Qed.

(* ================================================================== *)
(** ** Invariants of the builder *)
(* ================================================================== *)

Section Builder.

Lemma fold_left_inv {A B} (P : A -> Prop) (f : A -> B -> A) (l : list B) :
  forall a0,
    P a0 -> (forall a x, In x l -> P a -> P (f a x)) -> P (fold_left f l a0).
Proof.
  induction l as [|x l IH]; intros a0 H0 Hstep; simpl; [assumption|].
  apply IH.
  - apply Hstep; [now left | assumption].
  - intros a y Hy. apply Hstep. now right.
Qed.

(** The nodes after the first pass: those of the start graph and one
    per repository of each instance. *)
Lemma add_nodes_In (instances : list ArtifactoryInstance) :
  forall G x,
    In x (nodes (add_nodes instances G))
    <-> In x (nodes G)
        \/ exists inst k, In inst instances
                          /\ In k (keys (repositories inst))
                          /\ x = node_id inst k.
Proof.
  assert (Hin : forall inst repos G x,
             In x (nodes (fold_left (add_repo_node inst) repos G))
             <-> In x (nodes G) \/ exists k, In k (keys repos) /\ x = node_id inst k).
  { intros inst. induction repos as [|[k d] repos IH]; intros G x; simpl.
    - split; [tauto | intros [H | [k [[] _]]]; assumption].
    - rewrite IH. rewrite nodes_add_node. split.
      + intros [[H | ->] | [k' [H1 H2]]].
        * now left.
        * right. exists k. split; [now left | reflexivity].
        * right. exists k'. split; [now right | assumption].
      + intros [H | [k' [[<- | H1] H2]]].
        * left. now left.
        * left. now right.
        * right. exists k'. split; assumption. }
  unfold add_nodes. induction instances as [|inst instances IH]; intros G x; simpl.
  - split; [tauto | intros [H | [i [k [[] _]]]]; assumption].
  - rewrite IH, Hin. split.
    + intros [[H | [k [H1 H2]]] | [i [k [H1 [H2 H3]]]]].
      * now left.
      * right. exists inst, k. split; [now left | split; assumption].
      * right. exists i, k. split; [now right | split; assumption].
    + intros [H | [i [k [[<- | H1] [H2 H3]]]]].
      * left. now left.
      * left. right. exists k. split; assumption.
      * right. exists i, k. split; [assumption | split; assumption].
Qed.

Lemma add_nodes_edges (instances : list ArtifactoryInstance) (G : DiGraph) :
  edges (add_nodes instances G) = edges G.
Proof.
  unfold add_nodes. apply (fold_left_inv (fun H => edges H = edges G)); [reflexivity|].
  intros H inst _ HH.
  apply (fold_left_inv (fun H => edges H = edges G)); [assumption|].
  intros H' [k d] _ HH'. unfold add_repo_node. now rewrite edges_add_node.
Qed.

Lemma add_nodes_wf (instances : list ArtifactoryInstance) (G : DiGraph) :
  wf_graph G -> wf_graph (add_nodes instances G).
Proof.
  intros W. unfold add_nodes. apply (fold_left_inv wf_graph); [assumption|].
  intros H inst _ HH. apply (fold_left_inv wf_graph); [assumption|].
  intros H' [k d] _ HH'. unfold add_repo_node. now apply wf_add_node.
Qed.

Variable instances : list ArtifactoryInstance.

Lemma node_id_in_N (inst : ArtifactoryInstance) (k : string) :
  In inst instances -> In k (keys (repositories inst)) ->
  In (node_id inst k) (first_pass_nodes instances).
Proof.
  intros H1 H2. unfold first_pass_nodes. apply add_nodes_In. right. eauto.
Qed.

Lemma builder_inv_add_edge (G : DiGraph) (u v ty : string) :
  builder_inv instances G ->
  In u (first_pass_nodes instances) -> In v (first_pass_nodes instances) ->
  ty = "remote" \/ ty = "includes" ->
  builder_inv instances (add_edge G u v [("edge_type", ty)]).
Proof.
  intros [H1 [H2 H3]] Hu Hv Hty. split; [|split].
  - rewrite nodes_add_edge_present;
      [assumption | rewrite H1; assumption | rewrite H1; assumption].
  - now apply wf_add_edge.
  - intros x y d H. apply In_edges_add_edge in H as [H | [-> [-> [old ->]]]].
    + now apply H3.
    + split; [assumption|]. split; [assumption|].
      unfold edge_type_ok. unfold dict_update. simpl.
      rewrite dict_get_set_same. destruct Hty as [-> | ->]; tauto.
Qed.

Lemma builder_inv_remote_step (source_node remote_url : string) (G : DiGraph)
      (target_instance : ArtifactoryInstance) :
  In source_node (first_pass_nodes instances) -> In target_instance instances ->
  builder_inv instances G ->
  builder_inv instances (remote_step source_node remote_url G target_instance).
Proof.
  intros Hs Ht HG. unfold remote_step.
  destruct (startswith remote_url (url target_instance)); [|assumption].
  destruct (startswith _ "api/"); [assumption|].
  destruct (1 <=? _)%nat; [|assumption].
  destruct (dict_mem _ (repositories target_instance)) eqn:E; [|assumption].
  apply dict_mem_keys in E.
  apply builder_inv_add_edge; try assumption; [|tauto].
  now apply node_id_in_N.
Qed.

Lemma builder_inv_include_step (inst : ArtifactoryInstance) (source_node : string)
      (G : DiGraph) (included_repo : string) :
  In source_node (first_pass_nodes instances) -> In inst instances ->
  builder_inv instances G ->
  builder_inv instances (include_step inst source_node G included_repo).
Proof.
  intros Hs Hi HG. unfold include_step.
  destruct (dict_mem included_repo (repositories inst)) eqn:E; [|assumption].
  apply dict_mem_keys in E.
  apply builder_inv_add_edge; try assumption; [|tauto].
  now apply node_id_in_N.
Qed.

Lemma builder_inv_add_repo_edges (inst : ArtifactoryInstance) (G : DiGraph)
      (kv : string * RepoData) :
  In inst instances -> In kv (repositories inst) ->
  builder_inv instances G ->
  builder_inv instances (add_repo_edges instances inst G kv).
Proof.
  intros Hi Hkv HG. destruct kv as [k d]. unfold add_repo_edges.
  assert (Hs : In (node_id inst k) (first_pass_nodes instances)).
  { apply node_id_in_N; [assumption|].
    change k with (fst (k, d)). now apply in_map. }
  assert (H1 : builder_inv instances
                 (if opt_is (r_type d) "remote"
                  then fold_left (remote_step (node_id inst k) (or_default (r_url d) ""))
                                 instances G
                  else G)).
  { destruct (opt_is (r_type d) "remote"); [|assumption].
    apply (fold_left_inv (builder_inv instances)); [assumption|].
    intros H t Ht HH. now apply builder_inv_remote_step. }
  destruct (opt_is (r_type d) "virtual"); [|assumption].
  apply (fold_left_inv (builder_inv instances)); [assumption|].
  intros H r _ HH. now apply builder_inv_include_step.
Qed.

Lemma builder_inv_build :
  builder_inv instances (build_repository_graph instances).
Proof.
  unfold build_repository_graph, add_edges.
  apply (fold_left_inv (builder_inv instances)).
  - split; [reflexivity|]. split.
    + apply add_nodes_wf, wf_empty.
    + intros x y d H. rewrite add_nodes_edges in H. destruct H.
  - intros G inst Hi HG. apply (fold_left_inv (builder_inv instances)); [assumption|].
    intros H kv Hkv HH. now apply builder_inv_add_repo_edges.
Qed.

End Builder.

(** A built graph has unique node identifiers and successor keys. *)
Lemma build_repository_graph_wf (instances : list ArtifactoryInstance) :
  wf_graph (build_repository_graph instances).
Proof. apply builder_inv_build. Qed.

(** C9: in the graph produced by the builder, both endpoints of every
    edge are nodes that the node-insertion pass added: each is the
    identifier of a repository of one of the instances, and the edge pass
    adds no node of its own.  (This needs no assumption on the instance
    names.) *)
Theorem built_edges_join_inserted_nodes
        (instances : list ArtifactoryInstance) (u v : string) (d : attrs) :
  In (u, v, d) (edges (build_repository_graph instances)) ->
  nodes (build_repository_graph instances) = first_pass_nodes instances
  /\ In u (first_pass_nodes instances)
  /\ In v (first_pass_nodes instances)
  /\ (exists inst k, In inst instances /\ In k (keys (repositories inst))
                     /\ u = node_id inst k)
  /\ (exists inst k, In inst instances /\ In k (keys (repositories inst))
                     /\ v = node_id inst k).
Proof.
  intros H. destruct (builder_inv_build instances) as [H1 [_ H3]].
  destruct (H3 u v d H) as [Hu [Hv _]].
  split; [assumption|]. split; [assumption|]. split; [assumption|].
  unfold first_pass_nodes in Hu, Hv.
  apply add_nodes_In in Hu as [[] | Hu]. apply add_nodes_In in Hv as [[] | Hv].
  split; assumption.
Qed.

Lemma built_edges_join_inserted_nodes_witness :
  nodes (build_repository_graph (two_instances None None None true true))
  = first_pass_nodes (two_instances None None None true true)
  /\ In "B:r1" (first_pass_nodes (two_instances None None None true true))
  /\ In "A:v1" (first_pass_nodes (two_instances None None None true true))
  /\ (exists inst k, In inst (two_instances None None None true true)
                     /\ In k (keys (repositories inst))
                     /\ "B:r1" = node_id inst k)
  /\ (exists inst k, In inst (two_instances None None None true true)
                     /\ In k (keys (repositories inst))
                     /\ "A:v1" = node_id inst k).
Proof.
  apply (built_edges_join_inserted_nodes
           (two_instances None None None true true)
           "B:r1" "A:v1" [("edge_type", "remote")]).
  vm_compute. right. now left.
Defined.

(** C10: every edge of a graph produced by the builder carries an
    [edge_type] that is exactly [remote] or [includes]; it is an edge of
    the remote-only or of the includes-only graph that the detectors
    build, and never of both. *)
Theorem built_edges_are_remote_or_includes
        (instances : list ArtifactoryInstance) (u v : string) (d : attrs) :
  let G := build_repository_graph instances in
  In (u, v, d) (edges G) ->
  (dict_get "edge_type" d = Some "remote"
   \/ dict_get "edge_type" d = Some "includes")
  /\ (edge (remote_graph G) u v \/ edge (include_graph G) u v)
  /\ ~ (edge (remote_graph G) u v /\ edge (include_graph G) u v).
Proof.
  intros G H. destruct (builder_inv_build instances) as [_ [W H3]].
  fold G in W, H3. destruct (H3 u v d H) as [_ [_ Ht]].
  split; [exact Ht|]. unfold remote_graph, include_graph.
  rewrite !typed_subgraph_edge. split.
  - destruct Ht as [Ht | Ht]; [left | right]; exists d;
      (split; [assumption | now apply opt_is_Some]).
  - intros [[d1 [E1 T1]] [d2 [E2 T2]]].
    pose proof (wf_edge_unique G u v d1 d2 W E1 E2) as <-.
    apply opt_is_Some in T1, T2. congruence.
Qed.

Lemma built_edges_are_remote_or_includes_witness :
  let G := build_repository_graph (two_instances None None None true true) in
  (dict_get "edge_type" [("edge_type", "remote")] = Some "remote"
   \/ dict_get "edge_type" [("edge_type", "remote")] = Some "includes")
  /\ (edge (remote_graph G) "B:r1" "A:v1" \/ edge (include_graph G) "B:r1" "A:v1")
  /\ ~ (edge (remote_graph G) "B:r1" "A:v1" /\ edge (include_graph G) "B:r1" "A:v1").
Proof.
  apply (built_edges_are_remote_or_includes
           (two_instances None None None true true)
           "B:r1" "A:v1" [("edge_type", "remote")]).
  vm_compute. right. now left.
Defined.

(* ================================================================== *)
(** ** Include-only cycles *)
(* ================================================================== *)

Lemma find_entry_drop (G : DiGraph) (u : string) :
  find_entry u (drop_non_includes G)
  = option_map
      (fun e =>
         mkEntry (nid e) (nattr e)
                 (filter (fun vd => opt_is (dict_get "edge_type" (snd vd)) "includes")
                         (nsucc e)))
      (find_entry u G).
Proof.
  unfold drop_non_includes. induction G as [|e G IH]; simpl; [reflexivity|].
  destruct (String.eqb (nid e) u); [reflexivity | exact IH].
Qed.

(** Dropping the other edges leaves exactly the [includes] edges. *)
Lemma edge_drop_non_includes (G : DiGraph) (u v : string) :
  NoDup (nodes G) ->
  (edge (drop_non_includes G) u v <-> typed_edge "includes" G u v).
Proof.
  intros ND. unfold edge, successors, typed_edge, keys.
  rewrite find_entry_drop. split.
  - destruct (find_entry u G) as [e|] eqn:E; simpl; [|intros []].
    destruct (find_entry_Some _ _ _ E) as [He Hn].
    intros H. apply in_map_iff in H as [[v' d] [<- H]].
    apply filter_In in H as [H1 H2]. exists d. split; [|exact H2].
    apply In_edges. exists e. auto.
  - intros [d [H1 H2]]. apply In_edges in H1 as [e [He [<- Hv]]].
    rewrite (In_find_entry G e ND He). simpl.
    change v with (fst (v, d)). apply in_map. apply filter_In. auto.
Qed.

(** C6: the cycles found by the include-cycles detector (computed on a
    fresh graph holding only the [includes] edges) and the simple cycles of
    the graph obtained from [G] by dropping every edge that is not of type
    [includes] are the same cycles: each cycle of one list occurs in the
    other, possibly written from another of its nodes; and they are the
    simple cycles along [includes] edges of [G]. *)
Theorem include_cycles_refine_filtered_graph (G : DiGraph) :
  NoDup (nodes G) ->
  (forall c, In c (find_include_cycles G) ->
             exists c', rotation c c' /\ In c' (simple_cycles (drop_non_includes G)))
  /\ (forall c, In c (simple_cycles (drop_non_includes G)) ->
                exists c', rotation c c' /\ In c' (find_include_cycles G))
  /\ (forall c, In c (find_include_cycles G) ->
                is_cycle (typed_edge "includes" G) c).
Proof.
  intros ND. unfold find_include_cycles, include_graph.
  split; [|split]; intros c H; apply simple_cycles_sound in H.
  - apply simple_cycles_complete.
    apply (is_cycle_mono (edge (typed_subgraph "includes" G))); [|assumption].
    intros u v Hu. apply edge_drop_non_includes; [assumption|].
    now apply typed_subgraph_edge.
  - apply simple_cycles_complete.
    apply (is_cycle_mono (edge (drop_non_includes G))); [|assumption].
    intros u v Hu. apply typed_subgraph_edge.
    now apply edge_drop_non_includes.
  - apply (is_cycle_mono (edge (typed_subgraph "includes" G))); [|assumption].
    intros u v. apply typed_subgraph_edge.
Qed.

Lemma include_cycles_refine_filtered_graph_witness :
  exists c', rotation ["c"; "b"] c'
             /\ In c' (simple_cycles (drop_non_includes rotated_example)).
Proof.
  assert (ND : NoDup (nodes rotated_example)).
  { vm_compute. repeat constructor; simpl; intuition discriminate. }
  apply (proj1 (include_cycles_refine_filtered_graph rotated_example ND)).
  vm_compute. now left.
Defined.

(* ================================================================== *)
(** ** Repository shadowing *)
(* ================================================================== *)

Section Shadowing.

Lemma index_pairs_In (l : list string) (a b : string) :
  In (a, b) (index_pairs l)
  <-> exists i j, i < j /\ j < List.length l
                  /\ nth i l "" = a /\ nth j l "" = b.
Proof.
  unfold index_pairs. rewrite in_flat_map. split.
  - intros [i [Hi H]]. apply in_seq in Hi.
    apply in_map_iff in H as [j [E Hj]]. apply in_seq in Hj.
    injection E as E1 E2. exists i, j. repeat split; try assumption; lia.
  - intros [i [j [Hij [Hj [Ha Hb]]]]]. exists i. split; [apply in_seq; lia|].
    apply in_map_iff. exists j. split; [congruence | apply in_seq; lia].
Qed.

Lemma NoDup_flat_map {A B} (f : A -> list B) (l : list A) :
  NoDup l ->
  (forall x, In x l -> NoDup (f x)) ->
  (forall x y z, In x l -> In y l -> In z (f x) -> In z (f y) -> x = y) ->
  NoDup (flat_map f l).
Proof.
  induction l as [|a l IH]; intros ND Hf Hd; simpl; [constructor|].
  inversion ND as [|? ? Hn ND']; subst. apply NoDup_app.
  - apply Hf. now left.
  - apply IH; [assumption | |].
    + intros x Hx. apply Hf. now right.
    + intros x y z Hx Hy. apply Hd; now right.
  - intros z Hz Hz'. apply in_flat_map in Hz' as [y [Hy Hzy]].
    apply Hn. rewrite (Hd a y z); auto; [now left | now right].
Qed.

Lemma index_pairs_NoDup (l : list string) : NoDup l -> NoDup (index_pairs l).
Proof.
  intros ND. pose proof (proj1 (NoDup_nth l "") ND) as Hnth.
  unfold index_pairs. apply NoDup_flat_map.
  - apply seq_NoDup.
  - intros i Hi. apply in_seq in Hi.
    apply NoDup_map_NoDup_ForallPairs; [|apply seq_NoDup].
    intros x y Hx Hy E. apply in_seq in Hx, Hy. injection E as E.
    apply Hnth; [lia | lia | assumption].
  - intros i i' z Hi Hi' Hz Hz'. apply in_seq in Hi, Hi'.
    apply in_map_iff in Hz as [j [<- Hj]].
    apply in_map_iff in Hz' as [j' [E Hj']].
    injection E as E1 E2. apply Hnth; [lia | lia | congruence].
Qed.

Lemma filter_none {A} (f : A -> bool) (l : list A) :
  (forall y, In y l -> f y = false) -> filter f l = [].
Proof.
  induction l as [|a l IH]; intros H; simpl; [reflexivity|].
  rewrite (H a (or_introl eq_refl)). apply IH. intros y Hy. apply H. now right.
Qed.

Lemma grouped_step (processed : list string) (M : dict (list string))
      (x : string) :
  grouped processed M -> grouped (processed ++ [x]) (group_node M x).
Proof.
  intros [H1 [H2 H3]]. unfold group_node.
  set (k0 := repo_key_of x).
  set (M1 := if dict_mem k0 M then M else dict_set k0 [] M).
  assert (HM1 : NoDup (keys M1)
                /\ (exists l0, dict_get k0 M1 = Some l0
                               /\ l0 = filter (fun y => String.eqb (repo_key_of y) k0)
                                              processed)
                /\ forall k, k <> k0 -> dict_get k M1 = dict_get k M).
  { unfold M1. destruct (dict_mem k0 M) eqn:E.
    - split; [assumption|]. split; [|reflexivity].
      unfold dict_mem in E. destruct (dict_get k0 M) as [l0|] eqn:E0; [|discriminate].
      exists l0. split; [reflexivity | now apply H2].
    - split; [now apply NoDup_keys_dict_set|]. split.
      + exists []. split; [apply dict_get_set_same|].
        symmetry. apply filter_none. intros y Hy.
        apply String.eqb_neq. intros Ek. apply H3 in Hy. congruence.
      + intros k Hk. now apply dict_get_set_other. }
  destruct HM1 as [N1 [[l0 [G0 F0]] O1]]. rewrite G0.
  split; [now apply NoDup_keys_dict_set|]. split.
  - intros k l Hg. rewrite filter_app. simpl.
    destruct (String.eqb (repo_key_of x) k) eqn:E.
    + apply String.eqb_eq in E. fold k0 in E. subst k.
      rewrite dict_get_set_same in Hg. injection Hg as <-. now rewrite F0.
    + apply String.eqb_neq in E. fold k0 in E.
      rewrite dict_get_set_other in Hg by congruence.
      rewrite O1 in Hg by congruence. rewrite app_nil_r. now apply H2.
  - intros y Hy. unfold dict_mem.
    destruct (string_dec (repo_key_of y) k0) as [E | E].
    + rewrite E. now rewrite dict_get_set_same.
    + rewrite dict_get_set_other by assumption. rewrite O1 by assumption.
      apply in_app_or in Hy as [Hy | [<- | []]]; [|contradiction].
      apply H3 in Hy. exact Hy.
Qed.

Lemma grouped_fold (ns : list string) :
  forall processed M,
    grouped processed M -> grouped (processed ++ ns) (fold_left group_node ns M).
Proof.
  induction ns as [|x ns IH]; intros processed M H; simpl.
  - now rewrite app_nil_r.
  - replace (processed ++ x :: ns) with ((processed ++ [x]) ++ ns)
      by (now rewrite <- app_assoc).
    apply IH. now apply grouped_step.
Qed.

Lemma grouped_nodes (ns : list string) : grouped ns (fold_left group_node ns []).
Proof.
  apply (grouped_fold ns [] []). split; [constructor|].
  split; [intros k l [=] | intros y []].
Qed.

Variable graph : DiGraph.
Hypothesis nodes_unique : NoDup (nodes graph).

(** A reported pair comes from two positions, in order, of the group of
    its common key. *)
Lemma shadowing_pair_positions (a b : string) :
  In (a, b) (detect_repository_shadowing graph) ->
  exists l i j,
    dict_get (repo_key_of a) (fold_left group_node (nodes graph) []) = Some l
    /\ NoDup l /\ i < j /\ j < List.length l
    /\ nth i l "" = a /\ nth j l "" = b
    /\ repo_key_of b = repo_key_of a.
Proof.
  destruct (grouped_nodes (nodes graph)) as [H1 [H2 _]].
  unfold detect_repository_shadowing. intros H.
  apply in_flat_map in H as [[k l] [Hkl H]]. simpl in H.
  destruct (1 <? List.length l)%nat; [|destruct H].
  destruct (1 <? List.length (set_of (map instance_of l)))%nat; [|destruct H].
  apply index_pairs_In in H as [i [j [Hij [Hj [Ha Hb]]]]].
  pose proof (In_dict_get k _ l H1 Hkl) as Hg.
  pose proof (H2 k l Hg) as Hl.
  assert (Hk : forall y, In y l -> repo_key_of y = k).
  { intros y Hy. rewrite Hl in Hy. apply filter_In in Hy as [_ Hy].
    now apply String.eqb_eq. }
  assert (Hai : In a l) by (rewrite <- Ha; apply nth_In; lia).
  assert (Hbi : In b l) by (rewrite <- Hb; apply nth_In; lia).
  exists l, i, j. rewrite (Hk a Hai), (Hk b Hbi).
  repeat split; try assumption.
  rewrite Hl. now apply NoDup_filter.
Qed.

Lemma shadowing_asymmetric (a b : string) :
  In (a, b) (detect_repository_shadowing graph) ->
  a <> b /\ ~ In (b, a) (detect_repository_shadowing graph).
Proof.
  intros H.
  destruct (shadowing_pair_positions a b H)
    as [l [i [j [Hg [ND [Hij [Hj [Ha [Hb Hk]]]]]]]]].
  pose proof (proj1 (NoDup_nth l "") ND) as Hnth.
  split.
  - intros E. assert (i = j); [|lia].
    apply Hnth; [lia | lia | congruence].
  - intros H'.
    destruct (shadowing_pair_positions b a H')
      as [l' [i' [j' [Hg' [_ [Hij' [Hj' [Hb' [Ha' _]]]]]]]]].
    rewrite Hk, Hg in Hg'. injection Hg' as <-.
    assert (i = j') by (apply Hnth; [lia | lia | congruence]).
    assert (j = i') by (apply Hnth; [lia | lia | congruence]).
    lia.
Qed.

Lemma shadowing_NoDup : NoDup (detect_repository_shadowing graph).
Proof.
  destruct (grouped_nodes (nodes graph)) as [H1 [H2 _]].
  unfold detect_repository_shadowing.
  set (M := fold_left group_node (nodes graph) []) in *.
  assert (Hl : forall kv, In kv M -> NoDup (snd kv)
               /\ forall y, In y (snd kv) -> repo_key_of y = fst kv).
  { intros [k l] Hkl. simpl.
    pose proof (H2 k l (In_dict_get k _ l H1 Hkl)) as ->. split.
    - now apply NoDup_filter.
    - intros y Hy. apply filter_In in Hy as [_ Hy]. now apply String.eqb_eq. }
  apply NoDup_flat_map.
  - apply (NoDup_map_inv fst). exact H1.
  - intros kv Hkv. destruct (Hl kv Hkv) as [ND _].
    destruct (1 <? _)%nat; [|constructor].
    destruct (1 <? _)%nat; [|constructor].
    now apply index_pairs_NoDup.
  - intros [k l] [k' l'] [a b] Hkv Hkv' Hz Hz'. simpl in Hz, Hz'.
    destruct (Hl _ Hkv) as [_ Hk]. destruct (Hl _ Hkv') as [_ Hk'].
    simpl in Hk, Hk'.
    destruct (1 <? List.length l)%nat; [|destruct Hz].
    destruct (1 <? List.length (set_of (map instance_of l)))%nat; [|destruct Hz].
    destruct (1 <? List.length l')%nat; [|destruct Hz'].
    destruct (1 <? List.length (set_of (map instance_of l')))%nat; [|destruct Hz'].
    apply index_pairs_In in Hz as [i [j [Hij [Hj [Ha Hb]]]]].
    apply index_pairs_In in Hz' as [i' [j' [Hij' [Hj' [Ha' Hb']]]]].
    assert (Hai : In a l) by (rewrite <- Ha; apply nth_In; lia).
    assert (Hai' : In a l') by (rewrite <- Ha'; apply nth_In; lia).
    assert (E : k = k') by (rewrite <- (Hk a Hai); now apply Hk').
    subst k'. f_equal.
    pose proof (In_dict_get k _ l H1 Hkv). pose proof (In_dict_get k _ l' H1 Hkv').
    congruence.
Qed.

End Shadowing.

(** C8: on a graph (node identifiers pairwise distinct) the shadowing
    detector lists no pair twice, never pairs a node with itself, and never
    lists both [(a, b)] and [(b, a)]; the two nodes of a reported pair have
    the same repository key.  When instances [A] and [B] each define a
    local repository keyed [shared], the result is the single pair
    [(A:shared, B:shared)]. *)
Theorem shadowing_reports_each_pair_once :
  (forall graph,
      NoDup (nodes graph) ->
      NoDup (detect_repository_shadowing graph)
      /\ forall a b,
          In (a, b) (detect_repository_shadowing graph) ->
          a <> b
          /\ repo_key_of a = repo_key_of b
          /\ ~ In (b, a) (detect_repository_shadowing graph))
  /\ detect_repository_shadowing (build_repository_graph shared_instances)
     = [("A:shared", "B:shared")].
Proof.
  split; [|reflexivity].
  intros graph ND. split; [now apply shadowing_NoDup|].
  intros a b H. destruct (shadowing_asymmetric graph ND a b H) as [H1 H2].
  split; [assumption|]. split; [|assumption].
  destruct (shadowing_pair_positions graph ND a b H)
    as [l [i [j [_ [_ [_ [_ [_ [_ Hk]]]]]]]]].
  now symmetry.
Qed.

Lemma shadowing_reports_each_pair_once_witness :
  "A:shared" <> "B:shared"
  /\ repo_key_of "A:shared" = repo_key_of "B:shared"
  /\ ~ In ("B:shared", "A:shared")
          (detect_repository_shadowing (build_repository_graph shared_instances)).
Proof.
  assert (ND : NoDup (nodes (build_repository_graph shared_instances))).
  { vm_compute. repeat constructor; simpl; intuition discriminate. }
  apply (proj2 (proj1 shadowing_reports_each_pair_once
                      (build_repository_graph shared_instances) ND)).
  vm_compute. now left.
Defined.

(* ================================================================== *)
(** ** The builder's contract: which edges are built *)
(* ================================================================== *)

Section BuilderContract.

Lemma split_length (sep : ascii) (s : string) : 1 <= List.length (split sep s).
Proof.
  induction s as [|c s IH]; simpl; [lia|].
  destruct (Ascii.eqb c sep); simpl; [lia|].
  destruct (split sep s); simpl; lia.
Qed.

Lemma fold_left_establish {A B} (P : A -> Prop) (f : A -> B -> A)
      (l : list B) (x : B) :
  In x l ->
  (forall a y, P a -> P (f a y)) ->
  (forall a, P (f a x)) ->
  forall a0, P (fold_left f l a0).
Proof.
  intros Hx Hkeep Hset. induction l as [|y l IH]; intros a0; [destruct Hx|].
  simpl. destruct Hx as [-> | Hx].
  - apply fold_left_inv; [apply Hset | intros a z _; apply Hkeep].
  - now apply IH.
Qed.

Variable instances : list ArtifactoryInstance.

Lemma remote_resolves_nodes (u v : string) :
  remote_resolves instances u v ->
  In u (first_pass_nodes instances) /\ In v (first_pass_nodes instances).
Proof.
  intros [inst [k [rd [tinst [Hi [Hk [_ [-> [Ht [_ [_ [Hm ->]]]]]]]]]]]].
  split; apply node_id_in_N; try assumption.
  - change k with (fst (k, rd)). now apply in_map.
  - now apply dict_mem_keys.
Qed.

Lemma include_resolves_nodes (u v : string) :
  include_resolves instances u v ->
  In u (first_pass_nodes instances) /\ In v (first_pass_nodes instances).
Proof.
  intros [inst [k [rd [incl [Hi [Hk [_ [_ [Hm [-> ->]]]]]]]]]].
  split; apply node_id_in_N; try assumption.
  - change k with (fst (k, rd)). now apply in_map.
  - now apply dict_mem_keys.
Qed.

(** Induction over the edge pass: a property of the graph after the node
    pass that survives the addition of every resolved remote edge and of
    every resolved include holds of the built graph. *)
Lemma edge_pass_inv (P : DiGraph -> Prop) :
  P (add_nodes instances empty_graph) ->
  (forall G u v,
      builder_inv instances G -> P G -> remote_resolves instances u v ->
      P (add_edge G u v [("edge_type", "remote")])) ->
  (forall G u v,
      builder_inv instances G -> P G -> include_resolves instances u v ->
      P (add_edge G u v [("edge_type", "includes")])) ->
  P (build_repository_graph instances).
Proof.
  intros H0 Hr Hi.
  assert (Q : builder_inv instances (build_repository_graph instances)
              /\ P (build_repository_graph instances)); [|apply Q].
  unfold build_repository_graph, add_edges.
  apply (fold_left_inv (fun G => builder_inv instances G /\ P G)).
  { split; [|assumption]. split; [reflexivity|]. split.
    - apply add_nodes_wf, wf_empty.
    - intros x y d H. rewrite add_nodes_edges in H. destruct H. }
  intros G inst Hinst HG.
  apply (fold_left_inv (fun G => builder_inv instances G /\ P G)); [assumption|].
  clear G HG. intros G [k rd] Hkv [HG HP]. unfold add_repo_edges.
  assert (Hs : In (node_id inst k) (first_pass_nodes instances)).
  { apply node_id_in_N; [assumption|].
    change k with (fst (k, rd)). now apply in_map. }
  assert (H1 : builder_inv instances
                 (if opt_is (r_type rd) "remote"
                  then fold_left (remote_step (node_id inst k) (or_default (r_url rd) ""))
                                 instances G
                  else G)
               /\ P (if opt_is (r_type rd) "remote"
                     then fold_left (remote_step (node_id inst k)
                                                 (or_default (r_url rd) ""))
                                    instances G
                     else G)).
  { destruct (opt_is (r_type rd) "remote") eqn:Ety; [|now split].
    apply (fold_left_inv (fun G => builder_inv instances G /\ P G)); [now split|].
    intros G' tinst Ht [HG' HP'].
    split; [now apply builder_inv_remote_step|].
    unfold remote_step.
    destruct (startswith (or_default (r_url rd) "") (url tinst)) eqn:E1;
      [|assumption].
    destruct (startswith _ "api/") eqn:E2; [assumption|].
    destruct (1 <=? _)%nat; [|assumption].
    destruct (dict_mem _ (repositories tinst)) eqn:E3; [|assumption].
    apply Hr; try assumption.
    exists inst, k, rd, tinst. unfold url_path_below. tauto. }
  destruct H1 as [HG1 HP1].
  destruct (opt_is (r_type rd) "virtual") eqn:Ety; [|now split].
  apply (fold_left_inv (fun G => builder_inv instances G /\ P G)); [now split|].
  intros G' incl Hincl [HG' HP'].
  split; [now apply builder_inv_include_step|].
  unfold include_step.
  destruct (dict_mem incl (repositories inst)) eqn:E3; [|assumption].
  apply Hi; try assumption.
  exists inst, k, rd, incl. tauto.
Qed.

Lemma built_edge_provenance (u v : string) (d : attrs) :
  In (u, v, d) (edges (build_repository_graph instances)) ->
  (dict_get "edge_type" d = Some "remote" /\ remote_resolves instances u v)
  \/ (dict_get "edge_type" d = Some "includes" /\ include_resolves instances u v).
Proof.
  revert u v d.
  apply (edge_pass_inv
           (fun G => forall u v d,
                In (u, v, d) (edges G) ->
                (dict_get "edge_type" d = Some "remote"
                 /\ remote_resolves instances u v)
                \/ (dict_get "edge_type" d = Some "includes"
                    /\ include_resolves instances u v))).
  - intros u v d H. rewrite add_nodes_edges in H. destruct H.
  - intros G u v _ HP Hr x y d H.
    apply In_edges_add_edge in H as [H | [-> [-> [old ->]]]]; [now apply HP|].
    left. split; [|assumption].
    unfold dict_update. simpl. apply dict_get_set_same.
  - intros G u v _ HP Hr x y d H.
    apply In_edges_add_edge in H as [H | [-> [-> [old ->]]]]; [now apply HP|].
    right. split; [|assumption].
    unfold dict_update. simpl. apply dict_get_set_same.
Qed.

Lemma edge_remote_step (s r : string) (G : DiGraph) (t : ArtifactoryInstance)
      (u v : string) :
  edge G u v -> edge (remote_step s r G t) u v.
Proof.
  intros H. unfold remote_step.
  destruct (startswith r (url t)); [|assumption].
  destruct (startswith _ "api/"); [assumption|].
  destruct (1 <=? _)%nat; [|assumption].
  destruct (dict_mem _ (repositories t)); [|assumption].
  apply edge_add_edge. now left.
Qed.

Lemma edge_include_step (inst : ArtifactoryInstance) (s : string) (G : DiGraph)
      (incl u v : string) :
  edge G u v -> edge (include_step inst s G incl) u v.
Proof.
  intros H. unfold include_step.
  destruct (dict_mem incl (repositories inst)); [|assumption].
  apply edge_add_edge. now left.
Qed.

Lemma edge_add_repo_edges (inst : ArtifactoryInstance) (G : DiGraph)
      (kv : string * RepoData) (u v : string) :
  edge G u v -> edge (add_repo_edges instances inst G kv) u v.
Proof.
  intros H. destruct kv as [k rd]. unfold add_repo_edges.
  assert (H1 : edge (if opt_is (r_type rd) "remote"
                     then fold_left (remote_step (node_id inst k)
                                                 (or_default (r_url rd) ""))
                                    instances G
                     else G) u v).
  { destruct (opt_is (r_type rd) "remote"); [|assumption].
    apply (fold_left_inv (fun G => edge G u v)); [assumption|].
    intros G' t _. apply edge_remote_step. }
  destruct (opt_is (r_type rd) "virtual"); [|assumption].
  apply (fold_left_inv (fun G => edge G u v)); [assumption|].
  intros G' t _. apply edge_include_step.
Qed.

(** Once a repository's relationships are processed its edge is in the
    graph, and the rest of the pass keeps it. *)
Lemma edge_established (inst : ArtifactoryInstance) (kv : string * RepoData)
      (u v : string) :
  In inst instances -> In kv (repositories inst) ->
  (forall G, edge (add_repo_edges instances inst G kv) u v) ->
  edge (build_repository_graph instances) u v.
Proof.
  intros Hi Hkv Hset. unfold build_repository_graph, add_edges.
  apply (fold_left_establish (fun G => edge G u v) _ instances inst Hi).
  - intros G i H. apply (fold_left_inv (fun G => edge G u v)); [assumption|].
    intros G' kv' _. apply edge_add_repo_edges.
  - intros G.
    apply (fold_left_establish (fun G => edge G u v) _ (repositories inst) kv Hkv).
    + intros G' kv'. apply edge_add_repo_edges.
    + exact Hset.
Qed.

Lemma remote_resolves_edge (u v : string) :
  remote_resolves instances u v -> edge (build_repository_graph instances) u v.
Proof.
  intros [inst [k [rd [tinst [Hi [Hk [Ety [-> [Ht [E1 [E2 [E3 ->]]]]]]]]]]]].
  apply (edge_established inst (k, rd)); try assumption.
  intros G. unfold add_repo_edges. rewrite Ety.
  assert (H1 : edge (fold_left (remote_step (node_id inst k) (or_default (r_url rd) ""))
                               instances G)
                    (node_id inst k)
                    (node_id tinst
                       (last (split "/" (url_path_below tinst
                                           (or_default (r_url rd) "")))))).
  { apply (fold_left_establish
             (fun G => edge G (node_id inst k) _) _ instances tinst Ht).
    - intros G' t. apply edge_remote_step.
    - intros G'. unfold remote_step. unfold url_path_below in *.
      rewrite E1, E2, E3.
      pose proof (split_length "/"
                    (strip "/" (slice_from (String.length (url tinst))
                                           (or_default (r_url rd) "")))) as Hl.
      apply Nat.leb_le in Hl. rewrite Hl.
      apply edge_add_edge. now right. }
  destruct (opt_is (r_type rd) "virtual"); [|assumption].
  apply (fold_left_inv (fun G => edge G _ _)); [assumption|].
  intros G' t _. apply edge_include_step.
Qed.

Lemma include_resolves_edge (u v : string) :
  include_resolves instances u v -> edge (build_repository_graph instances) u v.
Proof.
  intros [inst [k [rd [incl [Hi [Hk [Ety [Hin [Hm [-> ->]]]]]]]]]].
  apply (edge_established inst (k, rd)); try assumption.
  intros G. unfold add_repo_edges. rewrite Ety.
  apply (fold_left_establish (fun G => edge G (node_id inst k) (node_id inst incl))
                             _ _ incl Hin).
  - intros G' t. apply edge_include_step.
  - intros G'. unfold include_step. rewrite Hm. apply edge_add_edge. now right.
Qed.

End BuilderContract.

(** The edges of the built graph are exactly the resolved relationships:
    there is an edge from [u] to [v] if and only if [u -> v] is a remote
    relationship or an include that the builder resolves. *)
Theorem built_edges_exact (instances : list ArtifactoryInstance) (u v : string) :
  edge (build_repository_graph instances) u v
  <-> remote_resolves instances u v \/ include_resolves instances u v.
Proof.
  split.
  - intros H.
    apply (edge_iff_edges _ u v (proj1 (build_repository_graph_wf instances))) in H.
    destruct H as [d H].
    destruct (built_edge_provenance instances u v d H) as [[_ A] | [_ A]]; tauto.
  - intros [H | H];
      [now apply remote_resolves_edge | now apply include_resolves_edge].
Qed.

Lemma built_edges_exact_witness :
  edge (build_repository_graph (two_instances None None None true true))
       "B:r1" "A:v1".
Proof.
  apply (proj2 (built_edges_exact (two_instances None None None true true)
                                  "B:r1" "A:v1")).
  left. exists (instance_B None), "r1", (repo_r1 None), (instance_A None None true).
  vm_compute. intuition.
Defined.

(** The tag of a built edge tells how it was derived: an edge tagged
    [remote] comes from a repository of type [remote] whose URL lies below
    the base URL of a configured instance, does not start with [api/]
    there, and ends in a key of that instance; an edge tagged [includes]
    comes from a repository of type [virtual] and leads to a repository of
    the same instance that it lists. *)
Theorem built_edge_tag_provenance
        (instances : list ArtifactoryInstance) (u v : string) (d : attrs) :
  In (u, v, d) (edges (build_repository_graph instances)) ->
  (dict_get "edge_type" d = Some "remote" /\ remote_resolves instances u v)
  \/ (dict_get "edge_type" d = Some "includes" /\ include_resolves instances u v).
Proof. apply built_edge_provenance. Qed.

Lemma built_edge_tag_provenance_witness :
  (dict_get "edge_type" [("edge_type", "includes")] = Some "remote"
   /\ remote_resolves (two_instances None None None true true) "A:v1" "A:l1")
  \/ (dict_get "edge_type" [("edge_type", "includes")] = Some "includes"
      /\ include_resolves (two_instances None None None true true) "A:v1" "A:l1").
Proof.
  apply (built_edge_tag_provenance (two_instances None None None true true)
                                   "A:v1" "A:l1" [("edge_type", "includes")]).
  vm_compute. now left.
Defined.

(* ================================================================== *)
(** ** The builder's contract: nodes and their attributes *)
(* ================================================================== *)

Section BuilderNodes.

Lemma In_repository_ids (instances : list ArtifactoryInstance) (x : string) :
  In x (repository_ids instances)
  <-> exists inst k, In inst instances /\ In k (keys (repositories inst))
                     /\ x = node_id inst k.
Proof.
  unfold repository_ids. rewrite in_flat_map. split.
  - intros [inst [Hi H]]. apply in_map_iff in H as [k [<- Hk]]. eauto.
  - intros [inst [k [Hi [Hk ->]]]]. exists inst. split; [assumption|].
    now apply in_map.
Qed.

Lemma nodes_add_node_fresh (G : DiGraph) (n : string) (a : attrs) :
  ~ In n (nodes G) -> nodes (add_node G n a) = nodes G ++ [n].
Proof.
  intros H. unfold add_node.
  destruct (has_node n G) eqn:E; [apply has_node_In in E; contradiction|].
  now rewrite nodes_app.
Qed.

Lemma node_data_add_node_other (G : DiGraph) (n x : string) (a : attrs) :
  x <> n -> node_data (add_node G n a) x = node_data G x.
Proof.
  intros Hne. unfold node_data, add_node. destruct (has_node n G).
  - rewrite find_entry_update by apply nid_set_attr.
    destruct (String.eqb n x) eqn:E; [|reflexivity].
    apply String.eqb_eq in E. congruence.
  - rewrite find_entry_snoc. destruct (find_entry x G); [reflexivity|].
    simpl. destruct (String.eqb n x) eqn:E; [|reflexivity].
    apply String.eqb_eq in E. congruence.
Qed.

Lemma node_data_add_node_fresh (G : DiGraph) (n : string) (a : attrs) :
  ~ In n (nodes G) -> node_data (add_node G n a) n = dict_update [] a.
Proof.
  intros H. unfold node_data, add_node.
  destruct (has_node n G) eqn:E; [apply has_node_In in E; contradiction|].
  rewrite find_entry_snoc. apply find_entry_None in H. rewrite H. simpl.
  now rewrite String.eqb_refl.
Qed.

Lemma node_data_ensure_node (G : DiGraph) (n x : string) :
  node_data (ensure_node G n) x = node_data G x.
Proof.
  unfold node_data, ensure_node. destruct (has_node n G); [reflexivity|].
  rewrite find_entry_snoc. destruct (find_entry x G); [reflexivity|].
  simpl. now destruct (String.eqb n x).
Qed.

(** Adding an edge changes the attributes of no node. *)
Lemma node_data_add_edge (G : DiGraph) (u v : string) (a : attrs) (x : string) :
  node_data (add_edge G u v a) x = node_data G x.
Proof.
  unfold add_edge.
  rewrite <- (node_data_ensure_node G u x).
  rewrite <- (node_data_ensure_node (ensure_node G u) v x).
  unfold node_data at 1. rewrite find_entry_update by apply nid_set_succ.
  unfold node_data.
  destruct (String.eqb u x); [|reflexivity].
  now destruct (find_entry x (ensure_node (ensure_node G u) v)).
Qed.

Lemma node_data_add_edges (instances : list ArtifactoryInstance) (G : DiGraph)
      (x : string) :
  node_data (add_edges instances G) x = node_data G x.
Proof.
  unfold add_edges.
  apply (fold_left_inv (fun H => node_data H x = node_data G x)); [reflexivity|].
  intros H inst _ HH.
  apply (fold_left_inv (fun H => node_data H x = node_data G x)); [assumption|].
  clear H HH. intros H [k rd] _ HH. unfold add_repo_edges.
  assert (H1 : node_data
                 (if opt_is (r_type rd) "remote"
                  then fold_left (remote_step (node_id inst k) (or_default (r_url rd) ""))
                                 instances H
                  else H) x = node_data G x).
  { destruct (opt_is (r_type rd) "remote"); [|assumption].
    apply (fold_left_inv (fun H => node_data H x = node_data G x)); [assumption|].
    intros H' t _ HH'. unfold remote_step.
    destruct (startswith _ (url t)); [|assumption].
    destruct (startswith _ "api/"); [assumption|].
    destruct (1 <=? _)%nat; [|assumption].
    destruct (dict_mem _ (repositories t)); [|assumption].
    now rewrite node_data_add_edge. }
  destruct (opt_is (r_type rd) "virtual"); [|assumption].
  apply (fold_left_inv (fun H => node_data H x = node_data G x)); [assumption|].
  intros H' t _ HH'. unfold include_step.
  destruct (dict_mem t (repositories inst)); [|assumption].
  now rewrite node_data_add_edge.
Qed.

Lemma dict_update_repo_node_attrs (inst : ArtifactoryInstance) (k : string)
      (rd : RepoData) :
  dict_update [] (repo_node_attrs inst k rd) = repo_node_attrs inst k rd.
Proof. reflexivity. Qed.

(** With pairwise distinct identifiers, the repositories of one instance
    are appended in order and each keeps the attributes it was given. *)
Lemma add_repo_nodes_fresh (inst : ArtifactoryInstance) :
  forall repos G,
    NoDup (nodes G ++ map (node_id inst) (keys repos)) ->
    nodes (fold_left (add_repo_node inst) repos G)
    = nodes G ++ map (node_id inst) (keys repos)
    /\ (forall x, In x (nodes G) ->
                  node_data (fold_left (add_repo_node inst) repos G) x
                  = node_data G x)
    /\ (forall k rd, In (k, rd) repos ->
                     node_data (fold_left (add_repo_node inst) repos G)
                               (node_id inst k)
                     = repo_node_attrs inst k rd).
Proof.
  induction repos as [|[k rd] repos IH]; intros G ND.
  - simpl. rewrite app_nil_r.
    split; [reflexivity|]. split; [reflexivity | intros k rd []].
  - change (fold_left (add_repo_node inst) ((k, rd) :: repos) G)
      with (fold_left (add_repo_node inst) repos (add_repo_node inst G (k, rd))).
    change (map (node_id inst) (keys ((k, rd) :: repos)))
      with (node_id inst k :: map (node_id inst) (keys repos)) in *.
    assert (Hfresh : ~ In (node_id inst k) (nodes G)).
    { apply NoDup_remove_2 in ND. intros H. apply ND. apply in_or_app. now left. }
    assert (Hn : nodes (add_repo_node inst G (k, rd)) = nodes G ++ [node_id inst k]).
    { unfold add_repo_node. now apply nodes_add_node_fresh. }
    assert (ND' : NoDup (nodes (add_repo_node inst G (k, rd))
                         ++ map (node_id inst) (keys repos))).
    { rewrite Hn, <- app_assoc. exact ND. }
    destruct (IH _ ND') as [I1 [I2 I3]].
    split; [|split].
    + rewrite I1, Hn, <- app_assoc. reflexivity.
    + intros x Hx. rewrite I2 by (rewrite Hn; apply in_or_app; now left).
      unfold add_repo_node. apply node_data_add_node_other.
      intros ->. contradiction.
    + intros k' rd' [[= <- <-] | H]; [|now apply I3].
      rewrite I2 by (rewrite Hn; apply in_or_app; right; now left).
      unfold add_repo_node. fold (repo_node_attrs inst k rd).
      rewrite node_data_add_node_fresh by assumption.
      apply dict_update_repo_node_attrs.
Qed.

Lemma add_nodes_fresh :
  forall instances G,
    NoDup (nodes G ++ repository_ids instances) ->
    nodes (add_nodes instances G) = nodes G ++ repository_ids instances
    /\ (forall x, In x (nodes G) ->
                  node_data (add_nodes instances G) x = node_data G x)
    /\ (forall inst k rd,
           In inst instances -> In (k, rd) (repositories inst) ->
           node_data (add_nodes instances G) (node_id inst k)
           = repo_node_attrs inst k rd).
Proof.
  induction instances as [|inst instances IH]; intros G ND.
  - simpl. rewrite app_nil_r. split; [reflexivity|].
    split; [reflexivity | intros inst k rd []].
  - change (repository_ids (inst :: instances))
      with (map (node_id inst) (keys (repositories inst)) ++ repository_ids instances)
      in *.
    change (add_nodes (inst :: instances) G)
      with (add_nodes instances (fold_left (add_repo_node inst) (repositories inst) G)).
    assert (ND1 : NoDup (nodes G ++ map (node_id inst) (keys (repositories inst)))).
    { rewrite app_assoc in ND. now apply NoDup_app_remove_r in ND. }
    destruct (add_repo_nodes_fresh inst (repositories inst) G ND1) as [J1 [J2 J3]].
    assert (ND2 : NoDup (nodes (fold_left (add_repo_node inst) (repositories inst) G)
                         ++ repository_ids instances)).
    { rewrite J1, <- app_assoc. exact ND. }
    destruct (IH _ ND2) as [I1 [I2 I3]].
    split; [|split].
    + rewrite I1, J1, <- app_assoc. reflexivity.
    + intros x Hx. rewrite I2 by (rewrite J1; apply in_or_app; now left).
      now apply J2.
    + intros i k rd [<- | Hi] Hk; [|now apply I3].
      rewrite I2.
      * now apply J3.
      * rewrite J1. apply in_or_app. right. apply in_map.
        change k with (fst (k, rd)). now apply in_map.
Qed.

Lemma add_repo_node_attrs_ok (inst : ArtifactoryInstance) (G : DiGraph)
      (kv : string * RepoData) :
  (forall e, In e G -> node_attrs_ok e) ->
  forall e, In e (add_repo_node inst G kv) -> node_attrs_ok e.
Proof.
  intros HG e He. destruct kv as [k rd]. unfold add_repo_node, add_node in He.
  destruct (has_node (node_id inst k) G).
  - apply In_update_entry in He as [He | [e0 [He0 [Hn ->]]]]; [now apply HG|].
    exists (name inst), k, (or_default (r_type rd) "unknown"),
      (or_default (r_packageType rd) "unknown").
    unfold set_attr, dict_update. simpl.
    repeat (rewrite ?dict_get_set_same;
            try rewrite dict_get_set_other by discriminate).
    repeat split; try reflexivity. exact Hn.
  - apply in_app_or in He as [He | [<- | []]]; [now apply HG|].
    exists (name inst), k, (or_default (r_type rd) "unknown"),
      (or_default (r_packageType rd) "unknown").
    repeat split; reflexivity.
Qed.

Lemma add_nodes_attrs_ok (instances : list ArtifactoryInstance) :
  forall e, In e (add_nodes instances empty_graph) -> node_attrs_ok e.
Proof.
  unfold add_nodes.
  apply (fold_left_inv (fun G => forall e, In e G -> node_attrs_ok e)).
  - intros e [].
  - intros G inst _ HG.
    apply (fold_left_inv (fun G => forall e, In e G -> node_attrs_ok e));
      [assumption|].
    intros G' kv _. apply add_repo_node_attrs_ok.
Qed.

End BuilderNodes.

(** The nodes of the built graph are exactly the identifiers
    [instance:key] of the repository records, without repetition; when
    these identifiers are pairwise distinct the nodes are the records in
    the order of the instances and of their repositories, so that the node
    count is the number of records. *)
Theorem built_nodes_are_repositories (instances : list ArtifactoryInstance) :
  (forall x, In x (nodes (build_repository_graph instances))
             <-> In x (repository_ids instances))
  /\ NoDup (nodes (build_repository_graph instances))
  /\ (NoDup (repository_ids instances) ->
      nodes (build_repository_graph instances) = repository_ids instances).
Proof.
  destruct (builder_inv_build instances) as [H1 [[H2 _] _]].
  split; [|split].
  - intros x. rewrite H1. unfold first_pass_nodes.
    rewrite add_nodes_In, In_repository_ids. simpl. tauto.
  - exact H2.
  - intros ND. rewrite H1. unfold first_pass_nodes.
    apply (add_nodes_fresh instances empty_graph ND).
Qed.

Lemma built_nodes_are_repositories_witness :
  nodes (build_repository_graph (two_instances None None None true true))
  = repository_ids (two_instances None None None true true).
Proof.
  apply (proj2 (proj2 (built_nodes_are_repositories
                         (two_instances None None None true true)))).
  vm_compute. repeat constructor; simpl; intuition discriminate.
Defined.

(** Every node of the built graph carries the attributes [instance],
    [repo_key], [repo_type] and [package_type], and its identifier is its
    [instance] attribute, a colon and its [repo_key] attribute. *)
Theorem built_nodes_have_attributes
        (instances : list ArtifactoryInstance) (n : string) :
  In n (nodes (build_repository_graph instances)) ->
  exists i k t p,
    dict_get "instance" (node_data (build_repository_graph instances) n) = Some i
    /\ dict_get "repo_key" (node_data (build_repository_graph instances) n) = Some k
    /\ dict_get "repo_type" (node_data (build_repository_graph instances) n) = Some t
    /\ dict_get "package_type" (node_data (build_repository_graph instances) n)
       = Some p
    /\ n = (i ++ ":" ++ k)%string.
Proof.
  intros Hn. destruct (builder_inv_build instances) as [H1 _].
  rewrite H1 in Hn. unfold first_pass_nodes in Hn.
  unfold build_repository_graph. setoid_rewrite node_data_add_edges.
  apply has_node_In in Hn. unfold has_node in Hn. unfold node_data.
  destruct (find_entry n (add_nodes instances empty_graph)) as [e|] eqn:E;
    [|discriminate].
  apply find_entry_Some in E as [He <-].
  exact (add_nodes_attrs_ok instances e He).
Qed.

Lemma built_nodes_have_attributes_witness :
  exists i k t p,
    dict_get "instance"
             (node_data (build_repository_graph shared_instances) "B:shared") = Some i
    /\ dict_get "repo_key"
                (node_data (build_repository_graph shared_instances) "B:shared") = Some k
    /\ dict_get "repo_type"
                (node_data (build_repository_graph shared_instances) "B:shared") = Some t
    /\ dict_get "package_type"
                (node_data (build_repository_graph shared_instances) "B:shared") = Some p
    /\ "B:shared" = (i ++ ":" ++ k)%string.
Proof.
  apply (built_nodes_have_attributes shared_instances "B:shared").
  vm_compute. tauto.
Defined.

(** When the identifiers of the records are pairwise distinct, the node of
    a repository carries that record's instance name, key, type and
    package type, the last two replaced by [unknown] when the record lacks
    them. *)
Theorem built_node_attributes_of_record
        (instances : list ArtifactoryInstance) (inst : ArtifactoryInstance)
        (k : string) (rd : RepoData) :
  NoDup (repository_ids instances) ->
  In inst instances -> In (k, rd) (repositories inst) ->
  node_data (build_repository_graph instances) (node_id inst k)
  = [("instance", name inst);
     ("repo_key", k);
     ("repo_type", or_default (r_type rd) "unknown");
     ("package_type", or_default (r_packageType rd) "unknown")].
Proof.
  intros ND Hi Hk. unfold build_repository_graph. rewrite node_data_add_edges.
  apply (add_nodes_fresh instances empty_graph ND); assumption.
Qed.

Lemma built_node_attributes_of_record_witness :
  node_data (build_repository_graph shared_instances)
            (node_id (new_instance "B" "http://b/art" [("shared", repo_l1 None)])
                     "shared")
  = [("instance", "B"); ("repo_key", "shared"); ("repo_type", "local");
     ("package_type", "unknown")].
Proof.
  apply (built_node_attributes_of_record
           shared_instances
           (new_instance "B" "http://b/art" [("shared", repo_l1 None)])
           "shared" (repo_l1 None)).
  - vm_compute. repeat constructor; simpl; intuition discriminate.
  - right. now left.
  - now left.
Defined.

(* ================================================================== *)
(** ** Exact results of the detectors *)
(* ================================================================== *)

Section DetectorResults.

Lemma node_data_entry (G : DiGraph) (e : node_entry) :
  NoDup (nodes G) -> In e G -> node_data G (nid e) = nattr e.
Proof.
  intros ND He. unfold node_data. now rewrite (In_find_entry G e ND He).
Qed.

Lemma walk_last_edge (R : string -> string -> Prop) (s t : string)
      (body : list string) :
  walk R (s :: body ++ [t]) -> exists y, R y t /\ In y (s :: body).
Proof.
  intros H. destruct (exists_last (l := s :: body)) as [l' [y E]]; [discriminate|].
  change (s :: body ++ [t]) with ((s :: body) ++ [t]) in H.
  rewrite E in H |- *. rewrite <- app_assoc in H. simpl in H.
  apply walk_app in H as [_ H]. simpl in H. exists y.
  split; [apply H | apply in_or_app; right; now left].
Qed.

Lemma walk_first_edge (R : string -> string -> Prop) (s t : string)
      (body : list string) :
  walk R (s :: body ++ [t]) -> exists x, R s x.
Proof.
  destruct body as [|x body]; simpl; intros [H _]; eauto.
Qed.

Lemma two_members_length {A} (l : list A) (a b : A) :
  In a l -> In b l -> a <> b -> 2 <= List.length l.
Proof.
  destruct l as [|x [|y l]]; simpl; intros Ha Hb Hne; [destruct Ha | | lia].
  destruct Ha as [<- | []], Hb as [<- | []]. congruence.
Qed.

End DetectorResults.

(** On a graph (node identifiers pairwise distinct) the remote-to-virtual
    check reports exactly the pairs [(a, b)] where [a] is a node of type
    [remote], [b] is a direct successor of [a], and [b] is of type
    [virtual]. *)
Theorem remote_to_virtual_exact (G : DiGraph) (a b : string) :
  NoDup (nodes G) ->
  (In (a, b) (detect_remote_to_virtual_issues G)
   <-> In a (nodes G)
       /\ dict_get "repo_type" (node_data G a) = Some "remote"
       /\ edge G a b
       /\ dict_get "repo_type" (node_data G b) = Some "virtual").
Proof.
  intros ND. unfold detect_remote_to_virtual_issues, nodes_data, edge.
  rewrite in_flat_map. split.
  - intros [[n nd] [Hn H]]. apply in_map_iff in Hn as [e [[= <- <-] He]].
    destruct (opt_is (dict_get "repo_type" (nattr e)) "remote") eqn:Et;
      [|destruct H].
    apply in_map_iff in H as [s [[= <- <-] Hs]].
    apply filter_In in Hs as [Hs Hv].
    rewrite (node_data_entry G e ND He).
    apply opt_is_Some in Et, Hv.
    split; [unfold nodes; now apply in_map|]. tauto.
  - intros [Ha [Ht [He Hv]]].
    apply has_node_In in Ha. unfold has_node in Ha.
    destruct (find_entry a G) as [e|] eqn:E; [|discriminate].
    destruct (find_entry_Some _ _ _ E) as [Hin <-].
    exists (nid e, nattr e). split; [apply in_map_iff; eauto|].
    rewrite (node_data_entry G e ND Hin) in Ht.
    apply opt_is_Some in Ht. rewrite Ht.
    apply in_map. apply filter_In. split; [assumption | now apply opt_is_Some].
Qed.

Lemma remote_to_virtual_exact_witness :
  In ("B:r1", "A:v1")
     (detect_remote_to_virtual_issues
        (build_repository_graph (two_instances None None None true true))).
Proof.
  assert (ND : NoDup (nodes (build_repository_graph
                               (two_instances None None None true true)))).
  { vm_compute. repeat constructor; simpl; intuition discriminate. }
  apply (proj2 (remote_to_virtual_exact _ "B:r1" "A:v1" ND)).
  vm_compute. intuition.
Defined.

(** The remote-chains detector reports exactly the simple paths along
    remote-typed edges that have at most eleven nodes. *)
Theorem remote_chains_exact (graph : DiGraph) (p : list string) :
  In p (find_remote_chains graph)
  <-> exists s t, simple_path (typed_edge "remote" graph) s t p
                  /\ List.length p <= 11.
Proof.
  unfold find_remote_chains. fold (remote_graph graph). split.
  - intros H. apply in_flat_map in H as [s [_ H]].
    destruct (0 <? out_degree (remote_graph graph) s)%nat; [|destruct H].
    apply in_flat_map in H as [t [_ H]].
    destruct (negb (String.eqb s t)); [|destruct H].
    apply filter_In in H as [H _].
    apply all_simple_paths_spec in H as [Hp Hl].
    exists s, t. split; [|lia].
    apply (simple_path_mono (edge (remote_graph graph))); [|assumption].
    intros u v. apply typed_subgraph_edge.
  - intros [s [t [Hp Hl]]].
    destruct (simple_path_length _ _ _ _ Hp) as [H2 Hne].
    pose proof Hp as [body [-> [_ Hw]]].
    destruct (walk_first_edge _ _ _ _ Hw) as [x Hx].
    destruct (walk_last_edge _ _ _ _ Hw) as [y [Hy _]].
    destruct (typed_subgraph_nodes "remote" graph s x Hx) as [Hs _].
    destruct (typed_subgraph_nodes "remote" graph y t Hy) as [_ Ht].
    apply (typed_subgraph_edge "remote") in Hx.
    fold (remote_graph graph) in Hs, Ht, Hx.
    apply in_flat_map. exists s. split; [assumption|].
    assert (Hd : (0 <? out_degree (remote_graph graph) s)%nat = true).
    { apply Nat.ltb_lt. unfold out_degree. unfold edge in Hx.
      destruct (successors (remote_graph graph) s); [destruct Hx | simpl; lia]. }
    rewrite Hd. apply in_flat_map. exists t. split; [assumption|].
    apply String.eqb_neq in Hne. rewrite Hne. simpl.
    apply filter_In. split; [|apply Nat.ltb_lt; lia].
    apply all_simple_paths_spec. split; [|lia].
    apply (simple_path_mono (typed_edge "remote" graph)); [|assumption].
    intros u v. apply typed_subgraph_edge.
Qed.

Lemma remote_chains_exact_witness :
  In ["a"; "b"; "c"] (find_remote_chains (chain_graph "remote" ["a"; "b"; "c"])).
Proof.
  apply (proj2 (remote_chains_exact (chain_graph "remote" ["a"; "b"; "c"])
                                    ["a"; "b"; "c"])).
  exists "a", "c". split; [|simpl; lia].
  exists ["b"]. split; [reflexivity|]. split.
  - repeat constructor; simpl; intuition discriminate.
  - split; [|split; [|exact I]].
    + exists [("edge_type", "remote")]. vm_compute. intuition.
    + exists [("edge_type", "remote")]. vm_compute. intuition.
Defined.

(** The include-cycles detector is sound and complete for the simple
    cycles along [includes]-typed edges: every cycle it returns is one, and
    every such cycle is returned, written from one of its nodes. *)
Theorem include_cycles_exact (graph : DiGraph) :
  (forall c, In c (find_include_cycles graph) ->
             is_cycle (typed_edge "includes" graph) c)
  /\ (forall c, is_cycle (typed_edge "includes" graph) c ->
                exists c', rotation c c' /\ In c' (find_include_cycles graph)).
Proof.
  unfold find_include_cycles, include_graph. split; intros c H.
  - apply simple_cycles_sound in H.
    apply (is_cycle_mono (edge (typed_subgraph "includes" graph))); [|assumption].
    intros u v. apply typed_subgraph_edge.
  - apply simple_cycles_complete.
    apply (is_cycle_mono (typed_edge "includes" graph)); [|assumption].
    intros u v. apply typed_subgraph_edge.
Qed.

Lemma include_cycles_exact_witness :
  exists c', rotation ["b"; "c"] c' /\ In c' (find_include_cycles rotated_example).
Proof.
  apply (proj2 (include_cycles_exact rotated_example) ["b"; "c"]).
  split.
  - repeat constructor; simpl; intuition discriminate.
  - split; [|split; [|exact I]].
    + exists [("edge_type", "includes")]. vm_compute. intuition.
    + exists [("edge_type", "includes")]. vm_compute. intuition.
Defined.

(** The cross-instance-loops detector is sound and complete for the
    simple cycles of the graph that hold two nodes with different instance
    prefixes (the text before the first colon): every list it returns is
    such a cycle, and every such cycle is returned, written from one of its
    nodes. *)
Theorem cross_instance_loops_exact (graph : DiGraph) :
  (forall c,
      In c (find_cross_instance_loops graph) ->
      is_cycle (edge graph) c
      /\ exists x y p q,
          In x c /\ In y c
          /\ instance_prefix x p /\ instance_prefix y q /\ p <> q)
  /\ (forall c x y p q,
         is_cycle (edge graph) c ->
         In x c -> In y c ->
         instance_prefix x p -> instance_prefix y q -> p <> q ->
         exists c', rotation c c' /\ In c' (find_cross_instance_loops graph)).
Proof.
  unfold find_cross_instance_loops. split.
  - intros c H. apply filter_In in H as [Hc Hl]. apply Nat.ltb_lt in Hl.
    split; [now apply simple_cycles_sound | now apply two_prefixes].
  - intros c x y p q Hc Hx Hy Hp Hq Hne.
    destruct (simple_cycles_complete graph c Hc) as [c' [Hrot Hin]].
    exists c'. split; [assumption|]. apply filter_In. split; [assumption|].
    apply Nat.ltb_lt.
    destruct (set_of_spec (map instance_of c')) as [_ Hset].
    apply (two_members_length _ (instance_of x) (instance_of y)).
    + apply Hset. apply in_map. now apply (rotation_In c c' x Hrot).
    + apply Hset. apply in_map. now apply (rotation_In c c' y Hrot).
    + now rewrite (instance_prefix_unique x p Hp), (instance_prefix_unique y q Hq).
Qed.

Lemma cross_instance_loops_exact_witness :
  exists c',
    rotation ["B:r2"; "A:r1"] c'
    /\ In c' (find_cross_instance_loops
                (chain_graph "remote" ["A:r1"; "B:r2"; "A:r1"])).
Proof.
  apply (proj2 (cross_instance_loops_exact
                  (chain_graph "remote" ["A:r1"; "B:r2"; "A:r1"]))
               ["B:r2"; "A:r1"] "B:r2" "A:r1" "B" "A").
  - split.
    + repeat constructor; simpl; intuition discriminate.
    + vm_compute. tauto.
  - now left.
  - right. now left.
  - split; [simpl; intuition discriminate|]. right. now exists "r2".
  - split; [simpl; intuition discriminate|]. right. now exists "r1".
  - discriminate.
Defined.

(** On a graph (node identifiers pairwise distinct), every cycle found by
    the include-cycles detector is among the loops of the loop detector,
    possibly written from another of its nodes. *)
Theorem include_cycles_are_loops (G : DiGraph) (c : list string) :
  NoDup (nodes G) ->
  In c (find_include_cycles G) ->
  exists c', rotation c c' /\ In c' (detect_loops G).
Proof.
  intros ND H. unfold find_include_cycles, include_graph in H.
  apply simple_cycles_sound in H. unfold detect_loops.
  apply simple_cycles_complete.
  apply (is_cycle_mono (edge (typed_subgraph "includes" G))); [|assumption].
  intros u v Hu. apply typed_subgraph_edge in Hu as [d [Hd _]].
  apply (edge_iff_edges G u v ND). eauto.
Qed.

Lemma include_cycles_are_loops_witness :
  exists c', rotation ["c"; "b"] c' /\ In c' (detect_loops rotated_example).
Proof.
  assert (ND : NoDup (nodes rotated_example)).
  { vm_compute. repeat constructor; simpl; intuition discriminate. }
  apply (include_cycles_are_loops rotated_example ["c"; "b"] ND).
  vm_compute. now left.
Defined.

(** On a graph (node identifiers pairwise distinct), two nodes with the
    same repository key and different instance prefixes are reported as a
    shadowing pair, in one order or the other. *)
Theorem shadowing_complete (graph : DiGraph) (a b : string) :
  NoDup (nodes graph) ->
  In a (nodes graph) -> In b (nodes graph) ->
  repo_key_of a = repo_key_of b ->
  instance_of a <> instance_of b ->
  In (a, b) (detect_repository_shadowing graph)
  \/ In (b, a) (detect_repository_shadowing graph).
Proof.
  intros ND Ha Hb Hk Hi.
  destruct (grouped_nodes (nodes graph)) as [H1 [H2 H3]].
  unfold detect_repository_shadowing.
  set (M := fold_left group_node (nodes graph) []) in *.
  pose proof (H3 a Ha) as Hm. unfold dict_mem in Hm.
  destruct (dict_get (repo_key_of a) M) as [l|] eqn:Hg; [|discriminate].
  pose proof (H2 _ _ Hg) as Hl.
  assert (Hal : In a l).
  { rewrite Hl. apply filter_In. split; [assumption | apply String.eqb_refl]. }
  assert (Hbl : In b l).
  { rewrite Hl. apply filter_In. split; [assumption|].
    rewrite Hk. apply String.eqb_refl. }
  assert (Hne : a <> b) by (intros ->; now apply Hi).
  assert (G1 : (1 <? List.length l)%nat = true).
  { apply Nat.ltb_lt. apply (two_members_length l a b); assumption. }
  assert (G2 : (1 <? List.length (set_of (map instance_of l)))%nat = true).
  { apply Nat.ltb_lt. destruct (set_of_spec (map instance_of l)) as [_ Hin].
    apply (two_members_length _ (instance_of a) (instance_of b));
      [apply Hin; now apply in_map | apply Hin; now apply in_map | assumption]. }
  destruct (In_nth l a "" Hal) as [i [Hi1 Hi2]].
  destruct (In_nth l b "" Hbl) as [j [Hj1 Hj2]].
  assert (Hij : i <> j) by (intros ->; congruence).
  assert (Hkl : In (repo_key_of a, l) M) by now apply dict_get_In.
  destruct (Nat.lt_ge_cases i j) as [Hlt | Hge].
  - left. apply in_flat_map. exists (repo_key_of a, l). split; [assumption|].
    simpl. rewrite G1, G2. apply index_pairs_In. exists i, j. tauto.
  - right. apply in_flat_map. exists (repo_key_of a, l). split; [assumption|].
    simpl. rewrite G1, G2. apply index_pairs_In. exists j, i.
    repeat split; try assumption. lia.
Qed.

Lemma shadowing_complete_witness :
  In ("A:shared", "B:shared")
     (detect_repository_shadowing (build_repository_graph shared_instances))
  \/ In ("B:shared", "A:shared")
        (detect_repository_shadowing (build_repository_graph shared_instances)).
Proof.
  apply (shadowing_complete (build_repository_graph shared_instances)
                            "A:shared" "B:shared").
  - vm_compute. repeat constructor; simpl; intuition discriminate.
  - vm_compute. tauto.
  - vm_compute. tauto.
  - reflexivity.
  - vm_compute. discriminate.
Defined.

(* ================================================================== *)
(** ** Facts about splitting and stripping *)
(* ================================================================== *)

Section Strings.

Variable sep : ascii.

Lemma split_app_sep (a b : string) :
  split sep (a ++ String sep b) = split sep a ++ split sep b.
Proof.
  induction a as [|c a IH]; simpl.
  - now rewrite Ascii.eqb_refl.
  - destruct (Ascii.eqb c sep); [now rewrite IH|].
    rewrite IH. pose proof (split_length sep a) as Hl.
    destruct (split sep a); [simpl in Hl; lia | reflexivity].
Qed.

Lemma split_lacks (s : string) : lacks sep s -> split sep s = [s].
Proof.
  induction s as [|c s IH]; simpl; [reflexivity|].
  intros [Hc Hs]. apply Ascii.eqb_neq in Hc. rewrite Hc, (IH Hs). reflexivity.
Qed.

Lemma split_parts_lack (s p : string) : In p (split sep s) -> lacks sep p.
Proof.
  revert p. induction s as [|c s IH]; simpl; intros p.
  - intros [<- | []]. exact I.
  - destruct (Ascii.eqb c sep) eqn:E.
    + intros [<- | H]; [exact I | now apply IH].
    + apply Ascii.eqb_neq in E. destruct (split sep s) as [|h t] eqn:Es.
      * intros [<- | []]. simpl. tauto.
      * intros [<- | H].
        -- simpl. split; [assumption | apply IH; now left].
        -- apply IH. now right.
Qed.

Lemma lstrip_lacks (s : string) : lacks sep s -> lstrip sep s = s.
Proof.
  destruct s as [|c s]; simpl; [reflexivity|].
  intros [Hc _]. apply Ascii.eqb_neq in Hc. now rewrite Hc.
Qed.

Lemma rstrip_lacks (s : string) : lacks sep s -> rstrip sep s = s.
Proof.
  induction s as [|c s IH]; simpl; [reflexivity|].
  intros [Hc Hs]. rewrite (IH Hs). apply Ascii.eqb_neq in Hc.
  destruct s; [now rewrite Hc | reflexivity].
Qed.

Lemma strip_lacks (s : string) : lacks sep s -> strip sep s = s.
Proof.
  intros H. unfold strip. rewrite (lstrip_lacks s H). now apply rstrip_lacks.
Qed.

Lemma rstrip_idempotent (s : string) : rstrip sep (rstrip sep s) = rstrip sep s.
Proof.
  induction s as [|c s IH]; simpl; [reflexivity|].
  destruct (rstrip sep s) as [|x r] eqn:E.
  - destruct (Ascii.eqb c sep) eqn:Ec; simpl; [reflexivity|]. now rewrite Ec.
  - change (rstrip sep (String c (String x r)) = String c (String x r)).
    simpl in IH |- *. now rewrite IH.
Qed.

End Strings.

Lemma startswith_app (b x : string) : startswith (b ++ x) b = true.
Proof.
  unfold startswith. induction b as [|c b IH]; simpl; [now destruct x|].
  destruct (ascii_dec c c); [assumption | congruence].
Qed.

Lemma slice_from_app (b x : string) : slice_from (String.length b) (b ++ x) = x.
Proof.
  induction b as [|c b IH]; simpl; [now destruct x | assumption].
Qed.

Lemma startswith_true (s p : string) :
  startswith s p = true -> exists r, s = (p ++ r)%string.
Proof.
  unfold startswith. revert s. induction p as [|c p IH]; intros s H.
  - now exists s.
  - destruct s as [|a s]; [discriminate|].
    cbn [String.prefix] in H. destruct (ascii_dec c a) as [<- | _]; [|discriminate].
    destruct (IH s H) as [r ->]. now exists r.
Qed.

Lemma not_api_endpoint (s : string) : lacks "/" s -> startswith s "api/" = false.
Proof.
  intros H. destruct (startswith s "api/") eqn:E; [|reflexivity].
  apply startswith_true in E as [r ->]. simpl in H.
  destruct H as [_ [_ [_ [H _]]]]. congruence.
Qed.

(** The identifier [instance:key] splits back into the parts of the
    instance name followed by the parts of the key. *)
Lemma split_node_id (inst : ArtifactoryInstance) (k : string) :
  split ":" (node_id inst k) = split ":" (name inst) ++ split ":" k.
Proof. unfold node_id. apply split_app_sep. Qed.

(* ================================================================== *)
(** ** Identifiers, URLs and what they resolve to *)
(* ================================================================== *)

Lemma node_id_prefix (inst : ArtifactoryInstance) (k : string) :
  lacks ":" (name inst) -> instance_of (node_id inst k) = name inst.
Proof.
  intros H. unfold instance_of. rewrite split_node_id.
  now rewrite (split_lacks ":" _ H).
Qed.

(** Splitting a node identifier recovers its parts: the instance prefix
    when the instance name has no colon, the repository key when the key
    has no colon, and with both the name shown in the report is
    [instance/key]. *)
Theorem node_id_round_trip (inst : ArtifactoryInstance) (k : string) :
  (lacks ":" (name inst) -> instance_of (node_id inst k) = name inst)
  /\ (lacks ":" k -> repo_key_of (node_id inst k) = k)
  /\ (lacks ":" (name inst) -> lacks ":" k ->
      report_name (node_id inst k) = Some (format_repository_path (name inst) k)).
Proof.
  unfold instance_of, repo_key_of, report_name. rewrite split_node_id.
  split; [|split].
  - intros H. now rewrite (split_lacks ":" _ H).
  - intros H. rewrite (split_lacks ":" _ H). unfold last. apply last_last.
  - intros H1 H2. now rewrite (split_lacks ":" _ H1), (split_lacks ":" _ H2).
Qed.

Lemma node_id_round_trip_witness :
  instance_of (node_id (instance_B None) "r1") = name (instance_B None).
Proof.
  apply (proj1 (node_id_round_trip (instance_B None) "r1")).
  vm_compute. intuition discriminate.
Defined.

(** The report can name every node of a built graph: its identifier has
    at least two colon-separated parts. *)
Theorem report_names_built_nodes
        (instances : list ArtifactoryInstance) (n : string) :
  In n (nodes (build_repository_graph instances)) ->
  exists s, report_name n = Some s.
Proof.
  intros H. destruct (builder_inv_build instances) as [H1 _].
  rewrite H1 in H. unfold first_pass_nodes in H.
  apply add_nodes_In in H as [[] | [inst [k [_ [_ ->]]]]].
  unfold report_name. rewrite split_node_id.
  pose proof (split_length ":" (name inst)) as L1.
  pose proof (split_length ":" k) as L2.
  destruct (split ":" (name inst)) as [|a [|b l]]; [simpl in L1; lia | |].
  - destruct (split ":" k) as [|c l']; [simpl in L2; lia|]. simpl. eauto.
  - simpl. eauto.
Qed.

Lemma report_names_built_nodes_witness :
  exists s, report_name "A:shared" = Some s.
Proof.
  apply (report_names_built_nodes shared_instances "A:shared").
  vm_compute. tauto.
Defined.

Lemma url_path_below_key (tinst : ArtifactoryInstance) (key : string) :
  lacks "/" key ->
  url_path_below tinst (url tinst ++ "/" ++ key) = key.
Proof.
  intros H. unfold url_path_below, strip. rewrite slice_from_app.
  change (lstrip "/" ("/" ++ key)) with (lstrip "/" key).
  rewrite (lstrip_lacks "/" key H). now apply rstrip_lacks.
Qed.

(** A remote repository whose URL is the base URL of a configured
    instance, a slash and the key of one of that instance's repositories
    gets an edge to that repository. *)
Theorem remote_url_resolves
        (instances : list ArtifactoryInstance)
        (inst tinst : ArtifactoryInstance) (k key : string) (rd : RepoData) :
  In inst instances -> In (k, rd) (repositories inst) ->
  r_type rd = Some "remote" ->
  r_url rd = Some (url tinst ++ "/" ++ key)%string ->
  In tinst instances ->
  lacks "/" key ->
  In key (keys (repositories tinst)) ->
  edge (build_repository_graph instances) (node_id inst k) (node_id tinst key).
Proof.
  intros Hi Hk Hty Hurl Ht Hkey Hin.
  apply remote_resolves_edge. exists inst, k, rd, tinst.
  rewrite Hurl. unfold or_default. rewrite (url_path_below_key tinst key Hkey).
  rewrite (split_lacks "/" key Hkey). unfold last. simpl List.last.
  repeat split; try assumption.
  - now apply opt_is_Some.
  - apply startswith_app.
  - now apply not_api_endpoint.
  - now apply dict_mem_keys.
Qed.

Lemma remote_url_resolves_witness :
  edge (build_repository_graph (two_instances None None None true true))
       (node_id (instance_B None) "r1")
       (node_id (instance_A None None true) "v1").
Proof.
  apply (remote_url_resolves (two_instances None None None true true)
                             (instance_B None) (instance_A None None true)
                             "r1" "v1" (repo_r1 None)).
  - right. now left.
  - now left.
  - reflexivity.
  - reflexivity.
  - now left.
  - vm_compute. intuition discriminate.
  - vm_compute. tauto.
Defined.

Lemma include_resolves_same_instance (instances : list ArtifactoryInstance)
      (u v : string) :
  (forall inst, In inst instances -> lacks ":" (name inst)) ->
  include_resolves instances u v -> instance_of u = instance_of v.
Proof.
  intros Hc [inst [k [rd [incl [Hi [_ [_ [_ [_ [-> ->]]]]]]]]]].
  rewrite (node_id_prefix inst k (Hc inst Hi)).
  now rewrite (node_id_prefix inst incl (Hc inst Hi)).
Qed.

Lemma built_edge_resolved (instances : list ArtifactoryInstance) (u v : string) :
  edge (build_repository_graph instances) u v ->
  remote_resolves instances u v \/ include_resolves instances u v.
Proof.
  intros H.
  apply (edge_iff_edges _ u v (proj1 (build_repository_graph_wf instances))) in H.
  destruct H as [d H].
  destruct (built_edge_provenance instances u v d H) as [[_ A] | [_ A]]; tauto.
Qed.

Lemma built_edge_tagged (instances : list ArtifactoryInstance) (u v : string) :
  edge (build_repository_graph instances) u v ->
  (typed_edge "remote" (build_repository_graph instances) u v
   /\ remote_resolves instances u v)
  \/ include_resolves instances u v.
Proof.
  intros H.
  apply (edge_iff_edges _ u v (proj1 (build_repository_graph_wf instances))) in H.
  destruct H as [d H].
  destruct (built_edge_provenance instances u v d H) as [[T A] | [_ A]];
    [left | now right].
  split; [|assumption]. exists d. split; [assumption | now apply opt_is_Some].
Qed.

(** Along a walk of the built graph either some step is an edge tagged
    [remote] that a remote URL resolves to, or all nodes have the instance
    prefix of the first. *)
Lemma walk_remote_or_one_instance (instances : list ArtifactoryInstance)
      (p : list string) :
  (forall inst, In inst instances -> lacks ":" (name inst)) ->
  walk (edge (build_repository_graph instances)) p ->
  (exists l1 l2 u v,
      p = l1 ++ u :: v :: l2
      /\ typed_edge "remote" (build_repository_graph instances) u v
      /\ remote_resolves instances u v)
  \/ (forall x, In x p -> instance_of x = instance_of (hd "" p)).
Proof.
  intros Hc. induction p as [|a p IH]; intros Hw.
  - right. intros x [].
  - destruct p as [|b p].
    + right. intros x [<- | []]. reflexivity.
    + apply walk_cons2 in Hw as [Hab Hw].
      destruct (built_edge_tagged instances a b Hab) as [[Ht Hr] | Hi].
      * left. exists [], p, a, b. tauto.
      * destruct (IH Hw) as [[l1 [l2 [u [v [E [Ht Hr]]]]]] | Hsame].
        -- left. exists (a :: l1), l2, u, v. rewrite E. tauto.
        -- right. pose proof (include_resolves_same_instance _ _ _ Hc Hi) as E.
           intros x [<- | Hx]; [reflexivity|].
           simpl. rewrite E. now apply Hsame.
Qed.

(** In a graph built from instances whose names have no colon, every
    cross-instance loop has a step (a node and the node that follows it on
    the loop) that is an edge tagged [remote], derived from a resolved
    remote URL: includes alone never leave an instance. *)
Theorem cross_instance_loops_use_a_remote
        (instances : list ArtifactoryInstance) (c : list string) :
  (forall inst, In inst instances -> lacks ":" (name inst)) ->
  In c (find_cross_instance_loops (build_repository_graph instances)) ->
  exists u v,
    cycle_step c u v
    /\ In u c /\ In v c
    /\ typed_edge "remote" (build_repository_graph instances) u v
    /\ remote_resolves instances u v.
Proof.
  intros Hc H. unfold find_cross_instance_loops in H.
  apply filter_In in H as [Hcyc Hl]. apply Nat.ltb_lt in Hl.
  pose proof (simple_cycles_sound _ _ Hcyc) as Hic.
  destruct c as [|r body]; [destruct Hic|]. destruct Hic as [_ Hw].
  assert (Hmem : forall x, In x (r :: body ++ [r]) -> In x (r :: body)).
  { intros x [<- | Hx]; [now left|].
    apply in_app_or in Hx as [Hx | [<- | []]]; [now right | now left]. }
  destruct (walk_remote_or_one_instance instances _ Hc Hw)
    as [[l1 [l2 [u [v [E [Ht Hr]]]]]] | Hsame].
  - exists u, v. split; [now exists l1, l2|].
    split; [apply Hmem; rewrite E; apply in_or_app; right; now left|].
    split; [apply Hmem; rewrite E; apply in_or_app; right; right; now left|].
    tauto.
  - exfalso. destruct (set_of_spec (map instance_of (r :: body))) as [ND Hin].
    destruct (set_of (map instance_of (r :: body))) as [|a [|b l]];
      simpl in Hl; try lia.
    assert (Ha : In a (map instance_of (r :: body))) by (apply Hin; now left).
    assert (Hb : In b (map instance_of (r :: body))) by (apply Hin; right; now left).
    apply in_map_iff in Ha as [x [Hx Hxc]].
    apply in_map_iff in Hb as [y [Hy Hyc]].
    inversion ND as [|? ? Hn _]; subst. apply Hn. left.
    rewrite (Hsame x), (Hsame y); [reflexivity | |].
    + destruct Hyc as [<- | Hyc]; [now left | right; apply in_or_app; now left].
    + destruct Hxc as [<- | Hxc]; [now left | right; apply in_or_app; now left].
Qed.

Lemma cross_instance_loops_use_a_remote_witness :
  exists u v,
    cycle_step ["A:r1"; "B:r2"] u v
    /\ In u ["A:r1"; "B:r2"] /\ In v ["A:r1"; "B:r2"]
    /\ typed_edge "remote" (build_repository_graph loop_instances) u v
    /\ remote_resolves loop_instances u v.
Proof.
  apply (cross_instance_loops_use_a_remote loop_instances ["A:r1"; "B:r2"]).
  - intros inst [<- | [<- | []]]; vm_compute; intuition discriminate.
  - vm_compute. now left.
Defined.

(* ================================================================== *)
(** ** [util.py]: URLs and labels *)
(* ================================================================== *)

(** A URL made of the base URL, a slash and a key without slash, other
    than [artifactory], gives back the key. *)
Theorem extract_repo_round_trip (base_url key : string) :
  lacks "/" key -> key <> "artifactory" ->
  extract_repo_from_url (base_url ++ "/" ++ key) base_url = Some key.
Proof.
  intros Hk Hne. unfold extract_repo_from_url.
  rewrite startswith_app, slice_from_app. cbn [negb].
  unfold strip. change (lstrip "/" ("/" ++ key)) with (lstrip "/" key).
  rewrite (lstrip_lacks "/" key Hk), (rstrip_lacks "/" key Hk).
  rewrite (split_lacks "/" key Hk).
  assert (E : mem "artifactory" [key] = false).
  { apply mem_not_In. intros [E | []]. congruence. }
  rewrite E. reflexivity.
Qed.

Lemma extract_repo_round_trip_witness :
  extract_repo_from_url ("http://a/art" ++ "/" ++ "libs-release") "http://a/art"
  = Some "libs-release".
Proof.
  apply (extract_repo_round_trip "http://a/art" "libs-release").
  - vm_compute. intuition discriminate.
  - discriminate.
Defined.

(** A repository key extracted from a URL never contains a slash. *)
Theorem extract_repo_has_no_slash (url base_url r : string) :
  extract_repo_from_url url base_url = Some r -> lacks "/" r.
Proof.
  unfold extract_repo_from_url.
  destruct (negb (startswith url base_url)); [discriminate|].
  set (parts := split "/" (strip "/" (slice_from (String.length base_url) url))).
  assert (Hp : forall i, i < List.length parts -> lacks "/" (nth i parts "")).
  { intros i Hi. apply (split_parts_lack "/" _ _ (nth_In parts "" Hi)). }
  destruct (mem "artifactory" parts).
  - destruct (_ <? _)%nat eqn:E; [|discriminate].
    apply Nat.ltb_lt in E. intros [= <-]. now apply Hp.
  - destruct (0 <? _)%nat eqn:E; [|discriminate].
    apply Nat.ltb_lt in E. intros [= <-]. now apply Hp.
Qed.

Lemma extract_repo_has_no_slash_witness : lacks "/" "r".
Proof.
  apply (extract_repo_has_no_slash "http://a/artifactory/r/x" "http://a" "r").
  reflexivity.
Defined.

(** Below the base URL of an instance, when the path is a single segment
    other than [artifactory], [extract_repo_from_url] finds the key that
    the graph builder takes as the target repository. *)
Theorem extract_repo_agrees_with_builder
        (tinst : ArtifactoryInstance) (remote_url : string) :
  startswith remote_url (url tinst) = true ->
  lacks "/" (url_path_below tinst remote_url) ->
  url_path_below tinst remote_url <> "artifactory" ->
  extract_repo_from_url remote_url (url tinst)
  = Some (last (split "/" (url_path_below tinst remote_url))).
Proof.
  intros Hs Hl Hne. unfold extract_repo_from_url. rewrite Hs. cbn [negb].
  fold (url_path_below tinst remote_url).
  rewrite (split_lacks "/" _ Hl).
  assert (E : mem "artifactory" [url_path_below tinst remote_url] = false).
  { apply mem_not_In. intros [E | []]. congruence. }
  rewrite E. reflexivity.
Qed.

Lemma extract_repo_agrees_with_builder_witness :
  extract_repo_from_url "http://a/art/v1/" (url (instance_A None None true))
  = Some (last (split "/" (url_path_below (instance_A None None true)
                                          "http://a/art/v1/"))).
Proof.
  apply (extract_repo_agrees_with_builder (instance_A None None true)
                                          "http://a/art/v1/").
  - reflexivity.
  - vm_compute. intuition discriminate.
  - vm_compute. discriminate.
Defined.

(* ================================================================== *)
(** ** [util.py]: validation and redaction of a configuration *)
(* ================================================================== *)

Section Configuration.

Lemma dict_mem_set_present {V} (k k0 : string) (v : V) (d : dict V) :
  dict_mem k d = true -> dict_mem k0 (dict_set k v d) = dict_mem k0 d.
Proof.
  intros H. unfold dict_mem in *. destruct (string_dec k0 k) as [-> | Hne].
  - rewrite dict_get_set_same. now destruct (dict_get k d).
  - now rewrite dict_get_set_other.
Qed.

Lemma dict_set_twice {V} (k : string) (v : V) (d : dict V) :
  dict_set k v (dict_set k v d) = dict_set k v d.
Proof.
  induction d as [|[k' v'] d IH]; simpl.
  - now rewrite String.eqb_refl.
  - destruct (String.eqb k' k) eqn:Ek; simpl.
    + now rewrite String.eqb_refl.
    + now rewrite Ek, IH.
Qed.

Lemma keys_set_present {V} (k : string) (v : V) (d : dict V) :
  dict_mem k d = true -> keys (dict_set k v d) = keys d.
Proof. intros H. rewrite keys_dict_set. now rewrite H. Qed.

Lemma dict_mem_redact (k : string) (instance : instance_cfg) :
  dict_mem k (redact_instance instance) = dict_mem k instance.
Proof.
  unfold redact_instance.
  destruct (dict_mem "api_key" instance) eqn:E1.
  - destruct (dict_mem "password" (dict_set "api_key" redacted instance)) eqn:E2.
    + rewrite dict_mem_set_present by assumption.
      now apply dict_mem_set_present.
    + now apply dict_mem_set_present.
  - destruct (dict_mem "password" instance) eqn:E2; [|reflexivity].
    now apply dict_mem_set_present.
Qed.

Lemma keys_redact (instance : instance_cfg) :
  keys (redact_instance instance) = keys instance.
Proof.
  unfold redact_instance.
  destruct (dict_mem "api_key" instance) eqn:E1.
  - destruct (dict_mem "password" (dict_set "api_key" redacted instance)) eqn:E2.
    + rewrite keys_set_present by assumption. now apply keys_set_present.
    + now apply keys_set_present.
  - destruct (dict_mem "password" instance) eqn:E2; [|reflexivity].
    now apply keys_set_present.
Qed.

Lemma dict_get_redact_other (k : string) (instance : instance_cfg) :
  k <> "api_key" -> k <> "password" ->
  dict_get k (redact_instance instance) = dict_get k instance.
Proof.
  intros H1 H2. unfold redact_instance.
  destruct (dict_mem "api_key" instance);
    destruct (dict_mem "password" _);
    rewrite ?dict_get_set_other by assumption; reflexivity.
Qed.

Lemma dict_get_redact_secret (k : string) (instance : instance_cfg)
      (v : option string) :
  k = "api_key" \/ k = "password" ->
  dict_get k (redact_instance instance) = Some v -> v = redacted.
Proof.
  unfold redact_instance. intros [-> | ->] H.
  - destruct (dict_mem "api_key" instance) eqn:E1.
    + destruct (dict_mem "password" _);
        rewrite ?dict_get_set_other in H by discriminate;
        rewrite dict_get_set_same in H; congruence.
    + unfold dict_mem in E1.
      destruct (dict_mem "password" instance);
        rewrite ?dict_get_set_other in H by discriminate;
        rewrite H in E1; discriminate.
  - set (instance1 := if dict_mem "api_key" instance
                      then dict_set "api_key" redacted instance else instance) in *.
    destruct (dict_mem "password" instance1) eqn:E2.
    + rewrite dict_get_set_same in H. congruence.
    + unfold dict_mem in E2. rewrite H in E2. discriminate.
Qed.

Lemma instance_errors_redact (i : nat) (instance : instance_cfg) :
  instance_errors i (redact_instance instance) = instance_errors i instance.
Proof.
  unfold instance_errors. rewrite !dict_mem_redact.
  now rewrite (dict_get_redact_other "name") by discriminate.
Qed.

Lemma instance_errors_nil (i : nat) (instance : instance_cfg) :
  instance_errors i instance = [] <-> has_required_fields instance.
Proof.
  unfold instance_errors, has_required_fields.
  destruct (dict_mem "name" instance), (dict_mem "url" instance),
    (dict_mem "api_key" instance), (dict_mem "username" instance),
    (dict_mem "password" instance); simpl;
    split; try discriminate; try tauto;
    intros H; exfalso; intuition discriminate.
Qed.

Lemma str_contains_eq (sub s : string) :
  str_contains sub s
  = if startswith s sub then true
    else match s with
         | EmptyString => false
         | String _ s' => str_contains sub s'
         end.
Proof. destruct s; reflexivity. Qed.

(** [sub in s] holds exactly when the text [sub] occurs in [s]. *)
Lemma str_contains_spec (sub s : string) :
  str_contains sub s = true <-> occurs_in sub s.
Proof.
  unfold occurs_in. split.
  - induction s as [|c s IH]; rewrite str_contains_eq.
    + destruct (startswith "" sub) eqn:E; [|discriminate]. intros _.
      apply startswith_true in E as [r E]. exists "", r. exact E.
    + destruct (startswith (String c s) sub) eqn:E.
      * intros _. apply startswith_true in E as [r E]. exists "", r. exact E.
      * intros H. destruct (IH H) as [a [b ->]]. now exists (String c a), b.
  - intros [a [b ->]]. induction a as [|c a IH]; rewrite str_contains_eq.
    + change ("" ++ sub ++ b)%string with (sub ++ b)%string.
      now rewrite startswith_app.
    + destruct (startswith (String c a ++ sub ++ b) sub); [reflexivity|].
      exact IH.
Qed.

Lemma list_has_spec (x : string) (l : list (option string)) :
  list_has x l = true <-> In (Some x) l.
Proof.
  unfold list_has. rewrite existsb_exists. split.
  - intros [v [Hv E]]. apply opt_is_Some in E. now subst.
  - intros H. exists (Some x). split; [assumption | now apply opt_is_Some].
Qed.

Lemma container_errors_nil (i : nat) (has : string -> bool) :
  container_errors i has = Some []
  <-> has "name" = true /\ has "url" = true
      /\ (has "api_key" = true
          \/ (has "username" = true /\ has "password" = true)).
Proof.
  unfold container_errors.
  destruct (has "name"), (has "url"), (has "api_key"), (has "username"),
    (has "password"); simpl;
    split; try discriminate; try tauto;
    intros H; exfalso; intuition discriminate.
Qed.

Lemma entry_errors_nil (i : nat) (e : entry) :
  entry_errors i e = Some [] <-> entry_accepted e.
Proof.
  destruct e as [d | s | l |]; simpl.
  - rewrite <- (instance_errors_nil i d). split; [now intros [= ->] | now intros ->].
  - rewrite container_errors_nil, !str_contains_spec. tauto.
  - rewrite container_errors_nil, !list_has_spec. tauto.
  - split; [discriminate | intros []].
Qed.

Lemma collect_errors_nil (l : list entry) :
  forall i, collect_errors i l = Some [] <-> Forall entry_accepted l.
Proof.
  induction l as [|e l IH]; intros i; simpl.
  - split; [constructor | reflexivity].
  - split.
    + destruct (entry_errors i e) as [errs|] eqn:E1; [|discriminate].
      destruct (collect_errors (S i) l) as [rest|] eqn:E2; [|discriminate].
      intros [= H]. apply app_eq_nil in H as [-> ->]. constructor.
      * now apply (entry_errors_nil i).
      * now apply (IH (S i)).
    + intros H. inversion H as [|? ? He Hl]; subst.
      apply (entry_errors_nil i) in He. apply (IH (S i)) in Hl.
      now rewrite He, Hl.
Qed.

Lemma redact_instance_twice (x : instance_cfg) :
  redact_instance (redact_instance x) = redact_instance x.
Proof.
  unfold redact_instance at 1. rewrite !dict_mem_redact.
  assert (Hset : forall k (d : instance_cfg),
             dict_get k d = Some redacted -> dict_set k redacted d = d).
  { intros k d. induction d as [|[k' v'] d IH]; simpl; [discriminate|].
    destruct (String.eqb k' k) eqn:Ek.
    - apply String.eqb_eq in Ek. intros [= ->]. now subst.
    - intros H. now rewrite IH. }
  assert (Hsecret : forall k, k = "api_key" \/ k = "password" ->
                              dict_mem k x = true ->
                              dict_get k (redact_instance x) = Some redacted).
  { intros k Hk Hmem. rewrite <- (dict_mem_redact k x) in Hmem.
    unfold dict_mem in Hmem.
    destruct (dict_get k (redact_instance x)) as [v|] eqn:Ev; [|discriminate].
    now rewrite (dict_get_redact_secret k x v Hk Ev). }
  destruct (dict_mem "api_key" x) eqn:E1.
  - rewrite (Hset _ _ (Hsecret "api_key" (or_introl eq_refl) E1)).
    rewrite dict_mem_redact.
    destruct (dict_mem "password" x) eqn:E2; [|reflexivity].
    apply Hset. apply Hsecret; tauto.
  - rewrite dict_mem_redact.
    destruct (dict_mem "password" x) eqn:E2; [|reflexivity].
    apply Hset. apply Hsecret; tauto.
Qed.

Lemma redact_entry_errors (i : nat) (e e' : entry) :
  redact_entry e = Some e' -> entry_errors i e' = entry_errors i e.
Proof.
  destruct e as [d | s | l |]; simpl.
  - intros [= <-]. simpl. now rewrite instance_errors_redact.
  - destruct (_ || _); [discriminate | now intros [= <-]].
  - destruct (_ || _); [discriminate | now intros [= <-]].
  - discriminate.
Qed.

Lemma redact_entry_twice (e e' : entry) :
  redact_entry e = Some e' -> redact_entry e' = Some e'.
Proof.
  destruct e as [d | s | l |]; simpl.
  - intros [= <-]. simpl. now rewrite redact_instance_twice.
  - destruct (_ || _) eqn:E; [discriminate|]. intros [= <-]. simpl. now rewrite E.
  - destruct (_ || _) eqn:E; [discriminate|]. intros [= <-]. simpl. now rewrite E.
  - discriminate.
Qed.

Lemma redact_entry_related (e e' : entry) :
  redact_entry e = Some e' -> redacted_from e e'.
Proof.
  destruct e as [d | s | l |]; simpl.
  - intros [= <-]. exists (redact_instance d). split; [reflexivity|].
    split; [apply keys_redact|].
    split; [intros k; apply dict_get_redact_other|].
    split; intros v; apply dict_get_redact_secret; tauto.
  - destruct (_ || _); [discriminate | now intros [= <-]].
  - destruct (_ || _); [discriminate | now intros [= <-]].
  - discriminate.
Qed.

Lemma redact_entries_facts (l : list entry) :
  forall l',
    redact_entries l = Some l' ->
    Forall2 redacted_from l l'
    /\ redact_entries l' = Some l'
    /\ forall i, collect_errors i l' = collect_errors i l.
Proof.
  induction l as [|e l IH]; simpl; intros l'.
  - intros [= <-]. split; [constructor|]. split; reflexivity.
  - destruct (redact_entry e) as [e'|] eqn:E1; [|discriminate].
    destruct (redact_entries l) as [rest|] eqn:E2; [|discriminate].
    intros [= <-]. destruct (IH rest eq_refl) as [H1 [H2 H3]].
    split; [|split].
    + constructor; [now apply redact_entry_related | assumption].
    + simpl. now rewrite (redact_entry_twice e e' E1), H2.
    + intros i. simpl. now rewrite (redact_entry_errors i e e' E1), H3.
Qed.

End Configuration.



(** Redaction hides every secret and nothing else: when it succeeds the
    redacted configuration has the same top-level keys and values except
    the instance list, which has the same length; each mapping entry keeps
    its keys and every value other than [api_key] and [password], and these
    two, where present, are the mask; an entry that is not a mapping is
    unchanged. *)
Theorem redact_credentials_hides_secrets (cfg cfg' : config)
        (l : list entry) :
  redact_credentials cfg = Some cfg' ->
  dict_get "artifactory_instances" cfg = Some (CInstances l) ->
  keys cfg' = keys cfg
  /\ (forall k, k <> "artifactory_instances" -> dict_get k cfg' = dict_get k cfg)
  /\ exists l',
      dict_get "artifactory_instances" cfg' = Some (CInstances l')
      /\ Forall2 redacted_from l l'.
Proof.
  unfold redact_credentials. intros H Hl. rewrite Hl in H.
  destruct (redact_entries l) as [l'|] eqn:E; [|discriminate].
  injection H as <-. split; [|split].
  - apply keys_set_present. unfold dict_mem. now rewrite Hl.
  - intros k Hk. now apply dict_get_set_other.
  - exists l'. split; [apply dict_get_set_same|].
    now apply redact_entries_facts.
Qed.

Lemma redact_credentials_hides_secrets_witness :
  keys (match redact_credentials sample_config with Some c => c | None => [] end)
  = keys sample_config.
Proof.
  apply (proj1 (redact_credentials_hides_secrets
                  sample_config
                  (match redact_credentials sample_config with
                   | Some c => c
                   | None => []
                   end)
                  [EMap sample_entry]
                  eq_refl eq_refl)).
Defined.

(** Redaction does not change what [validate_config] reports, and
    redacting twice is redacting once. *)
Theorem redact_credentials_keeps_validation (cfg cfg' : config) :
  redact_credentials cfg = Some cfg' ->
  validate_config cfg' = validate_config cfg
  /\ redact_credentials cfg' = Some cfg'.
Proof.
  unfold redact_credentials.
  destruct (dict_get "artifactory_instances" cfg) as [[l | s |]|] eqn:E.
  - destruct (redact_entries l) as [l'|] eqn:El; [|discriminate].
    intros [= <-]. destruct (redact_entries_facts l l' El) as [_ [H2 H3]].
    split.
    + unfold validate_config. rewrite dict_get_set_same, E. apply H3.
    + rewrite dict_get_set_same, H2. f_equal. apply dict_set_twice.
  - intros [= <-]. split; [reflexivity | now rewrite E].
  - discriminate.
  - intros [= <-]. split; [reflexivity | now rewrite E].
Qed.

Lemma redact_credentials_keeps_validation_witness :
  validate_config
    (match redact_credentials sample_config with Some c => c | None => [] end)
  = validate_config sample_config.
Proof.
  apply (proj1 (redact_credentials_keeps_validation
                  sample_config
                  (match redact_credentials sample_config with
                   | Some c => c
                   | None => []
                   end)
                  eq_refl)).
Defined.

(* ================================================================== *)
(** ** Credentials and the loading of a configuration *)
(* ================================================================== *)

(** The API client sends the two JSON headers followed by exactly the
    credential header that [ArtifactoryInstance.get_auth_headers] builds:
    at most one, the API key taking precedence, and never both
    [X-JFrog-Art-Api] and [Authorization]. *)
Theorem client_headers_extend_instance_headers (c : Credentials) :
  client_auth_headers c
  = [("Content-Type", "application/json"); ("Accept", "application/json")]
      ++ instance_auth_headers c
  /\ List.length (instance_auth_headers c) <= 1
  /\ (dict_mem "X-JFrog-Art-Api" (client_auth_headers c)
      && dict_mem "Authorization" (client_auth_headers c) = false)
  /\ (truthy (api_key c) = true ->
      dict_get "X-JFrog-Art-Api" (client_auth_headers c) = Some (py_str (api_key c))).
Proof.
  unfold client_auth_headers, instance_auth_headers, get_basic_auth.
  destruct (truthy (api_key c)); [|destruct (truthy (username c) && truthy (password c))];
    (split; [reflexivity|]); (split; [simpl; lia|]);
    (split; [reflexivity|]); intros H; try discriminate; reflexivity.
Qed.

Lemma client_headers_extend_instance_headers_witness :
  dict_get "X-JFrog-Art-Api"
           (client_auth_headers (mkCredentials (Some "k") (Some "u") (Some "p")))
  = Some (py_str (Some "k")).
Proof.
  apply (proj2 (proj2 (proj2 (client_headers_extend_instance_headers
                                (mkCredentials (Some "k") (Some "u") (Some "p")))))).
  reflexivity.
Defined.

Section Loading.

Lemma auth_headers_nonempty (c : Credentials) :
  truthy (api_key c) = true
  \/ (truthy (username c) = true /\ truthy (password c) = true) ->
  instance_auth_headers c <> [].
Proof.
  unfold instance_auth_headers. intros [H | [H1 H2]].
  - rewrite H. discriminate.
  - rewrite H1, H2. destruct (truthy (api_key c)); discriminate.
Qed.

Lemma load_instance_keeps (loaded : list ConfiguredInstance)
      (instance : instance_cfg) (ci : ConfiguredInstance) :
  In ci (load_instance loaded instance) ->
  In ci loaded
  \/ (ci = configured_of instance
      /\ truthy (cfg_get "url" instance) = true
      /\ (truthy (cfg_get "api_key" instance) = true
          \/ (truthy (cfg_get "username" instance) = true
              /\ truthy (cfg_get "password" instance) = true))).
Proof.
  unfold load_instance. simpl.
  destruct (truthy (cfg_get "url" instance)); simpl; [|now left].
  destruct (truthy (cfg_get "api_key" instance)); simpl.
  - intros H. apply in_app_or in H as [H | [<- | []]]; [now left | right].
    split; [reflexivity|]. tauto.
  - destruct (truthy (cfg_get "username" instance)); simpl; [|now left].
    destruct (truthy (cfg_get "password" instance)); simpl; [|now left].
    intros H. apply in_app_or in H as [H | [<- | []]]; [now left | right].
    split; [reflexivity|]. tauto.
Qed.

Lemma load_instances_all (l : list instance_cfg) :
  Forall (fun instance =>
            truthy (cfg_get "url" instance) = true
            /\ (truthy (cfg_get "api_key" instance) = true
                \/ (truthy (cfg_get "username" instance) = true
                    /\ truthy (cfg_get "password" instance) = true))) l ->
  forall acc,
    load_entries (map EMap l) acc = Some (acc ++ map configured_of l).
Proof.
  induction 1 as [|x l [Hu Ha] _ IH]; intros acc; simpl.
  - now rewrite app_nil_r.
  - rewrite IH. unfold load_instance at 1. simpl. rewrite Hu. simpl.
    assert (E : negb (truthy (cfg_get "api_key" x))
                && negb (truthy (cfg_get "username" x)
                         && truthy (cfg_get "password" x)) = false).
    { destruct Ha as [-> | [-> ->]]; [reflexivity|]. apply andb_false_r. }
    rewrite E. fold (configured_of x). now rewrite <- app_assoc.
Qed.

Lemma load_entries_keeps (l : list entry) :
  forall acc loaded ci,
    load_entries l acc = Some loaded -> In ci loaded ->
    In ci acc
    \/ exists instance,
        In (EMap instance) l /\ ci = configured_of instance
        /\ truthy (cfg_get "url" instance) = true
        /\ (truthy (cfg_get "api_key" instance) = true
            \/ (truthy (cfg_get "username" instance) = true
                /\ truthy (cfg_get "password" instance) = true)).
Proof.
  induction l as [|e l IH]; intros acc loaded ci; simpl.
  - intros [= <-] H. now left.
  - destruct e as [d | | |]; try discriminate.
    intros H Hci. destruct (IH _ _ _ H Hci) as [A | [instance [A B]]].
    + apply load_instance_keeps in A as [A | A]; [now left|].
      right. exists d. split; [now left | assumption].
    + right. exists instance. split; [now right | assumption].
Qed.

Lemma load_entries_raises (l : list entry) (e : entry) :
  In e l -> (forall d, e <> EMap d) ->
  forall acc, load_entries l acc = None.
Proof.
  intros Hin Hne. induction l as [|x l IH]; intros acc; [destruct Hin|].
  simpl. destruct Hin as [-> | Hin].
  - destruct e as [d | | |]; [now destruct (Hne d) | reflexivity..].
  - destruct x as [d | | |]; [now apply IH | reflexivity..].
Qed.

Lemma truthy_field (instance : instance_cfg) (k : string) :
  values_truthy instance -> dict_mem k instance = true ->
  truthy (cfg_get k instance) = true.
Proof.
  intros Hv Hm. unfold dict_mem in Hm. unfold cfg_get.
  destruct (dict_get k instance) as [v|] eqn:E; [|discriminate].
  apply (Hv k v). now apply dict_get_In.
Qed.

End Loading.

(** Every instance that [load_config] keeps comes from a mapping entry of
    the instance list with a non-empty URL, has a base URL without trailing
    slash, and has credentials for which the authentication headers are
    not empty. *)
Theorem load_config_keeps_usable_instances
        (cfg : config) (loaded : list ConfiguredInstance)
        (ci : ConfiguredInstance) :
  load_config cfg = Some loaded -> In ci loaded ->
  (exists l instance,
      dict_get "artifactory_instances" cfg = Some (CInstances l)
      /\ In (EMap instance) l
      /\ ci = configured_of instance
      /\ truthy (cfg_get "url" instance) = true)
  /\ rstrip "/" (ci_url ci) = ci_url ci
  /\ instance_auth_headers (ci_credentials ci) <> [].
Proof.
  unfold load_config.
  destruct (dict_get "artifactory_instances" cfg) as [[l | s |]|] eqn:E.
  - intros H Hin.
    destruct (load_entries_keeps l [] loaded ci H Hin)
      as [[] | [instance [Hi [-> [Hu Ha]]]]].
    split; [eauto 6|]. split.
    + apply rstrip_idempotent.
    + now apply auth_headers_nonempty.
  - destruct (String.eqb s ""); [intros [= <-] [] | discriminate].
  - discriminate.
  - intros [= <-] [].
Qed.

Lemma load_config_keeps_usable_instances_witness :
  rstrip "/" (ci_url (configured_of sample_entry))
  = ci_url (configured_of sample_entry).
Proof.
  apply (proj1 (proj2 (load_config_keeps_usable_instances
                         sample_config _ _ eq_refl (or_introl eq_refl)))).
Defined.

(** A configuration that [validate_config] accepts and whose instance
    entries are mappings holding only non-empty strings is loaded whole:
    [load_config] keeps every entry, in order.  An instance list with an
    entry that is not a mapping makes [load_config] raise, whether or not
    [validate_config] accepts it. *)
Theorem valid_config_is_loaded_whole (cfg : config) (l : list entry) :
  dict_get "artifactory_instances" cfg = Some (CInstances l) ->
  (validate_config cfg = Some [] ->
   forall ds, l = map EMap ds -> Forall values_truthy ds ->
              load_config cfg = Some (map configured_of ds))
  /\ (forall e, In e l -> (forall d, e <> EMap d) -> load_config cfg = None).
Proof.
  intros Hl. unfold validate_config, load_config. rewrite Hl. split.
  - intros Hv ds -> Ht. apply collect_errors_nil in Hv.
    change (map configured_of ds) with ([] ++ map configured_of ds).
    apply load_instances_all.
    rewrite Forall_forall in *. intros x Hx.
    assert (Hr : has_required_fields x).
    { apply (Hv (EMap x)). now apply in_map. }
    destruct Hr as [_ [Hu Ha]]. pose proof (Ht x Hx) as Hx'.
    split; [now apply truthy_field|].
    destruct Ha as [Ha | [H1 H2]]; [left | right; split]; now apply truthy_field.
  - intros e Hin Hne. now apply (load_entries_raises l e).
Qed.

Lemma valid_config_is_loaded_whole_witness :
  load_config sample_config = Some (map configured_of [sample_entry])
  /\ load_config list_entry_config = None.
Proof.
  split.
  - apply (proj1 (valid_config_is_loaded_whole
                    sample_config [EMap sample_entry] eq_refl)
                 eq_refl [sample_entry] eq_refl).
    repeat constructor. intros k v H. simpl in H.
    repeat (destruct H as [[= <- <-] | H]; [reflexivity|]). destruct H.
  - apply (proj2 (valid_config_is_loaded_whole
                    list_entry_config
                    [EList [Some "name"; Some "url"; Some "api_key"]] eq_refl)
                 (EList [Some "name"; Some "url"; Some "api_key"])).
    + now left.
    + discriminate.
Defined.

(* ================================================================== *)
(** ** What [visualize_graph] draws *)
(* ================================================================== *)

Section Drawing.

Lemma partition4 {A B} (f : A -> B) (p1 p2 p3 p4 : A -> bool) (l : list A) :
  (forall x, In x l ->
             (p1 x = true /\ p2 x = false /\ p3 x = false /\ p4 x = false)
             \/ (p1 x = false /\ p2 x = true /\ p3 x = false /\ p4 x = false)
             \/ (p1 x = false /\ p2 x = false /\ p3 x = true /\ p4 x = false)
             \/ (p1 x = false /\ p2 x = false /\ p3 x = false /\ p4 x = true)) ->
  Permutation (map f (filter p1 l) ++ map f (filter p2 l)
               ++ map f (filter p3 l) ++ map f (filter p4 l))
              (map f l).
Proof.
  induction l as [|a l IH]; intros H; [constructor|].
  assert (IH' := IH (fun x Hx => H x (or_intror Hx))). clear IH.
  simpl.
  destruct (H a (or_introl eq_refl))
    as [[-> [-> [-> ->]]] | [[-> [-> [-> ->]]] | [[-> [-> [-> ->]]] | [-> [-> [-> ->]]]]]];
    simpl.
  - now constructor.
  - apply Permutation_sym, Permutation_cons_app, Permutation_sym. exact IH'.
  - rewrite app_assoc.
    apply Permutation_sym, Permutation_cons_app, Permutation_sym.
    rewrite <- app_assoc. exact IH'.
  - rewrite 2 app_assoc.
    apply Permutation_sym, Permutation_cons_app, Permutation_sym.
    rewrite <- 2 app_assoc. exact IH'.
Qed.

Lemma classify_type (x : option string) :
  (opt_is x "local" = true /\ opt_is x "remote" = false
   /\ opt_is x "virtual" = false
   /\ not_listed x ["local"; "remote"; "virtual"] = false)
  \/ (opt_is x "local" = false /\ opt_is x "remote" = true
      /\ opt_is x "virtual" = false
      /\ not_listed x ["local"; "remote"; "virtual"] = false)
  \/ (opt_is x "local" = false /\ opt_is x "remote" = false
      /\ opt_is x "virtual" = true
      /\ not_listed x ["local"; "remote"; "virtual"] = false)
  \/ (opt_is x "local" = false /\ opt_is x "remote" = false
      /\ opt_is x "virtual" = false
      /\ not_listed x ["local"; "remote"; "virtual"] = true).
Proof.
  destruct x as [s|]; [|right; right; right; repeat split].
  unfold opt_is, not_listed, mem. cbn [existsb].
  destruct (String.eqb s "local") eqn:E1.
  { apply String.eqb_eq in E1. subst. left. repeat split. }
  destruct (String.eqb s "remote") eqn:E2.
  { apply String.eqb_eq in E2. subst. right; left. repeat split. }
  destruct (String.eqb s "virtual") eqn:E3.
  { apply String.eqb_eq in E3. subst. right; right; left. repeat split. }
  right; right; right. repeat split.
Qed.

Lemma classify_edge (x : option string) :
  (opt_is x "remote" = true /\ opt_is x "includes" = false
   /\ not_listed x ["remote"; "includes"] = false)
  \/ (opt_is x "remote" = false /\ opt_is x "includes" = true
      /\ not_listed x ["remote"; "includes"] = false)
  \/ (opt_is x "remote" = false /\ opt_is x "includes" = false
      /\ not_listed x ["remote"; "includes"] = true).
Proof.
  destruct x as [s|]; [|right; right; repeat split].
  unfold opt_is, not_listed, mem. cbn [existsb].
  destruct (String.eqb s "remote") eqn:E1.
  { apply String.eqb_eq in E1. subst. left. repeat split. }
  destruct (String.eqb s "includes") eqn:E2.
  { apply String.eqb_eq in E2. subst. right; left. repeat split. }
  right; right. repeat split.
Qed.

End Drawing.

(** [visualize_graph] draws every node once: the lists of local, remote,
    virtual and other repositories together are a rearrangement of the
    nodes of the graph. *)
Theorem drawn_nodes_partition (G : DiGraph) :
  Permutation (local_repos G ++ remote_repos G ++ virtual_repos G ++ other_repos G)
              (nodes G).
Proof.
  unfold local_repos, remote_repos, virtual_repos, repos_of_type, other_repos.
  assert (E : nodes G = map fst (nodes_data G)).
  { unfold nodes, nodes_data. rewrite map_map. reflexivity. }
  rewrite E. apply partition4. intros x _.
  apply (classify_type (dict_get "repo_type" (snd x))).
Qed.

(** Every edge is drawn once, in the remote, the include or the other
    style; in a graph produced by the builder no edge is drawn in the other
    style. *)
Theorem drawn_edges_partition :
  (forall G,
      Permutation (remote_edges G ++ include_edges G ++ other_edges G)
                  (map (fun e => (fst (fst e), snd (fst e))) (edges G)))
  /\ (forall instances, other_edges (build_repository_graph instances) = []).
Proof.
  split.
  - intros G. unfold remote_edges, include_edges, edges_of_type, other_edges.
    pose proof (partition4
                  (fun e : string * string * attrs => (fst (fst e), snd (fst e)))
                  (fun e => opt_is (dict_get "edge_type" (snd e)) "remote")
                  (fun e => opt_is (dict_get "edge_type" (snd e)) "includes")
                  (fun e => not_listed (dict_get "edge_type" (snd e))
                                       ["remote"; "includes"])
                  (fun _ => false) (edges G)) as P.
    rewrite (filter_none (fun _ => false)) in P by reflexivity.
    simpl in P. rewrite app_nil_r in P. apply P. intros x _.
    destruct (classify_edge (dict_get "edge_type" (snd x)))
      as [[-> [-> ->]] | [[-> [-> ->]] | [-> [-> ->]]]]; tauto.
  - intros instances. unfold other_edges.
    destruct (builder_inv_build instances) as [_ [_ H3]].
    rewrite filter_none; [reflexivity|].
    intros [[u v] d] H. destruct (H3 u v d H) as [_ [_ [Ht | Ht]]];
      simpl; now rewrite Ht.
Qed.

(* ================================================================== *)
(** ** Detectors on built graphs and at the bounds *)
(* ================================================================== *)

(** In a built graph a repository is reported as isolated exactly when it
    is a repository record whose node has type [local] and that no remote
    URL and no include list resolves to. *)
Theorem isolated_in_built_graph
        (instances : list ArtifactoryInstance) (n : string) :
  In n (detect_isolated_repositories (build_repository_graph instances))
  <-> In n (repository_ids instances)
      /\ dict_get "repo_type" (node_data (build_repository_graph instances) n)
         = Some "local"
      /\ (forall u, ~ remote_resolves instances u n)
      /\ (forall u, ~ include_resolves instances u n).
Proof.
  unfold detect_isolated_repositories.
  rewrite filter_In, andb_true_iff, Nat.eqb_eq, opt_is_Some.
  destruct (builder_inv_build instances) as [H1 [[ND _] _]].
  rewrite (in_degree_zero _ n ND).
  assert (Hn : In n (nodes (build_repository_graph instances))
               <-> In n (repository_ids instances)).
  { rewrite H1. unfold first_pass_nodes.
    rewrite add_nodes_In, In_repository_ids. simpl. tauto. }
  rewrite Hn. split.
  - intros [Hin [Hd Ht]]. split; [assumption|]. split; [assumption|].
    split; intros u Hr; apply (Hd u);
      [now apply remote_resolves_edge | now apply include_resolves_edge].
  - intros [Hin [Ht [Hr Hi]]]. split; [assumption|]. split; [|assumption].
    intros u He. destruct (built_edge_resolved instances u n He) as [A | A];
      [now apply (Hr u) | now apply (Hi u)].
Qed.

Lemma isolated_in_built_graph_witness :
  In "A:shared"
     (detect_isolated_repositories (build_repository_graph shared_instances)).
Proof.
  apply (proj2 (isolated_in_built_graph shared_instances "A:shared")).
  split; [vm_compute; tauto|]. split; [reflexivity|].
  split; intros u [inst [k [rd [x [Hi [Hk [Ht _]]]]]]];
    destruct Hi as [<- | [<- | []]];
    destruct Hk as [[= <- <-] | []]; discriminate.
Defined.

(** With a negative [max_length] the long-dependency-chains detector
    reports nothing, although every path has more nodes than
    [max_length]: the search depth [max_length + 1] is below one. *)
Theorem long_chains_negative_bound (graph : DiGraph) (max_length : Z) :
  (max_length < 0)%Z ->
  detect_long_dependency_chains graph max_length = [].
Proof.
  intros H. unfold detect_long_dependency_chains.
  assert (E : forall s t, all_simple_paths graph s t (max_length + 1) = []).
  { intros s t. unfold all_simple_paths. destruct (String.eqb s t); [reflexivity|].
    replace (Z.to_nat (max_length + 1)) with 0 by lia. reflexivity. }
  assert (F : forall (f : string -> list (list string)) l,
             (forall x, f x = []) -> flat_map f l = []).
  { intros f l Hf. induction l as [|x l IH]; simpl; [reflexivity|].
    now rewrite Hf, IH. }
  apply F. intros s. apply F. intros t. rewrite E.
  now destruct (negb (String.eqb s t)).
Qed.

Lemma long_chains_negative_bound_witness :
  detect_long_dependency_chains (chain_graph "remote" ["a"; "b"; "c"]) (-1) = [].
Proof.
  apply (long_chains_negative_bound (chain_graph "remote" ["a"; "b"; "c"]) (-1)).
  lia.
Defined.
